(** * TerminalChat: a shallow embedding of [server.py] and [client.py]

    The chat server keeps two dictionaries, [clients] (connection to optional
    nickname) and [nick_to_writer] (nickname to connection), guarded by one
    asyncio lock.  This file embeds the coroutines of [ChatServer] as programs
    of a small state monad and proves the properties the specification states
    about them.  The client is embedded by the traces of its three tasks, and
    the two programs are put together over the bytes they exchange.

    Modelling conventions.
    - A Python [str] is a list of Unicode code points ([list N]); [bytes] is a
      list of byte values.
    - A Python [dict] is an insertion-ordered association list.
    - A coroutine runs to completion once it is scheduled, with one exception:
      [disconnect] can be suspended where it asks for the lock, between the
      reading of the nickname and the update that uses it, and other
      coroutines run in between ([disconnect_resume], [run]).  The other
      [await] points change the order of the writes to the sockets, not the
      dictionaries; their interleaving is not modelled.  The lock is
      modelled, because a coroutine that awaits a lock it already holds never
      resumes.
    - What the environment decides (whether a socket write raises, what the
      wall clock reads) is given by two oracles indexed by a counter that
      advances at every consultation, so any pattern of failures is covered.
    - [str.lower] is a parameter: nothing proved here depends on the Unicode
      case tables.
    - Calls to the logger have no effect on the server state and are left out. *)

From Stdlib Require Import String Ascii DecimalString Decimal.
From Stdlib Require Import List NArith ZArith Arith Bool Lia Permutation Sorted.
Import ListNotations.

Set Implicit Arguments.

(** ** Python strings *)

Definition str := list N.
Definition bytes := list N.
Definition conn := nat.

(** A literal: the code points of an ASCII Rocq string. *)
Definition u (s : string) : str := map N_of_ascii (list_ascii_of_string s).

Definition nl : str := [10%N].

Definition str_eqb (a b : str) : bool :=
  if list_eq_dec N.eq_dec a b then true else false.

Definition truthy_str (s : str) : bool :=
  match s with [] => false | _ => true end.

(** [bool(x)] for [x : str | None]. *)
Definition truthy (o : option str) : bool :=
  match o with Some s => truthy_str s | None => false end.

(** [str.isspace] on one code point, as CPython's [Py_UNICODE_ISSPACE]. *)
Definition isspace (c : N) : bool :=
  ((9 <=? c) && (c <=? 13) || (28 <=? c) && (c <=? 32) ||
   (c =? 133) || (c =? 160) || (c =? 5760) ||
   (8192 <=? c) && (c <=? 8202) || (c =? 8232) || (c =? 8233) ||
   (c =? 8239) || (c =? 8287) || (c =? 12288))%N.

Fixpoint lstrip (s : str) : str :=
  match s with
  | c :: t => if isspace c then lstrip t else s
  | [] => []
  end.

(** Drops trailing characters satisfying [p]; [rstrip_by isspace] is
    [str.rstrip()], [rstrip_by] over CR and LF is [rstrip("\r\n")]. *)
Fixpoint rstrip_by (p : N -> bool) (s : str) : str :=
  match s with
  | [] => []
  | c :: t =>
      match rstrip_by p t with
      | [] => if p c then [] else [c]
      | t' => c :: t'
      end
  end.

Definition strip (s : str) : str := rstrip_by isspace (lstrip s).

Definition is_crlf (c : N) : bool := ((c =? 13) || (c =? 10))%N.

(** The longest prefix without whitespace, and what follows it. *)
Fixpoint span_word (s : str) : str * str :=
  match s with
  | [] => ([], [])
  | c :: t =>
      if isspace c then ([], s)
      else let (w, r) := span_word t in (c :: w, r)
  end.

(** [s.split(maxsplit=n)]: at most [n] whitespace-delimited words, then the
    remainder with its leading whitespace removed (its trailing whitespace is
    kept), if it is not empty. *)
Fixpoint split_ws (n : nat) (s : str) : list str :=
  match n with
  | O => match lstrip s with [] => [] | r => [r] end
  | S n' =>
      match lstrip s with
      | [] => []
      | r => let (w, rest) := span_word r in w :: split_ws n' rest
      end
  end.

Definition startswith_slash (s : str) : bool :=
  match s with c :: _ => (c =? 47)%N | [] => false end.

Fixpoint contains_char (c : N) (s : str) : bool :=
  match s with
  | [] => false
  | d :: t => (d =? c)%N || contains_char c t
  end.

(** [sep.join(l)] *)
Fixpoint join (sep : str) (l : list str) : str :=
  match l with
  | [] => []
  | [x] => x
  | x :: t => x ++ sep ++ join sep t
  end.

(** [str(n)] for a non-negative integer. *)
Definition str_of_nat (n : nat) : str :=
  u (NilEmpty.string_of_uint (Nat.to_uint n)).

(** Comparison of two [str] values: lexicographic on code points. *)
Fixpoint str_leb (a b : str) : bool :=
  match a, b with
  | [], _ => true
  | _ :: _, [] => false
  | x :: a', y :: b' =>
      if (x <? y)%N then true
      else if (y <? x)%N then false
      else str_leb a' b'
  end.

(** ** [bytes.decode(errors=...)] for UTF-8 *)

Definition is_cont (b : N) : bool := ((128 <=? b) && (b <=? 191))%N.

(** A well-formed two-byte sequence (lead C2..DF). *)
Definition ok2 (b0 b1 : N) : bool :=
  ((194 <=? b0) && (b0 <=? 223))%N && is_cont b1.

(** A well-formed three-byte sequence: no overlong form, no surrogate. *)
Definition ok3 (b0 b1 b2 : N) : bool :=
  ((b0 =? 224) && (160 <=? b1) && (b1 <=? 191) ||
   ((225 <=? b0) && (b0 <=? 236) || (238 <=? b0) && (b0 <=? 239)) && is_cont b1 ||
   (b0 =? 237) && (128 <=? b1) && (b1 <=? 159))%N && is_cont b2.

(** A well-formed four-byte sequence: no overlong form, at most U+10FFFF. *)
Definition ok4 (b0 b1 b2 b3 : N) : bool :=
  ((b0 =? 240) && (144 <=? b1) && (b1 <=? 191) ||
   (241 <=? b0) && (b0 <=? 243) && is_cont b1 ||
   (b0 =? 244) && (128 <=? b1) && (b1 <=? 143))%N && is_cont b2 && is_cont b3.

Definition cp2 (b0 b1 : N) : N := ((b0 - 192) * 64 + (b1 - 128))%N.
Definition cp3 (b0 b1 b2 : N) : N :=
  ((b0 - 224) * 4096 + (b1 - 128) * 64 + (b2 - 128))%N.
Definition cp4 (b0 b1 b2 b3 : N) : N :=
  ((b0 - 240) * 262144 + (b1 - 128) * 4096 + (b2 - 128) * 64 + (b3 - 128))%N.

(** What the decoder does with a byte that starts no well-formed sequence. *)
Inductive error_policy := Strict | Ignore | Replace.

Definition replacement_char : N := 65533%N.

(** [decode_with pol bs]: [None] is the [UnicodeDecodeError] of the strict
    policy.  An offending byte is skipped ([Ignore]) or turned into U+FFFD
    ([Replace]) and decoding resumes at the next byte. *)
Fixpoint decode_with (pol : error_policy) (bs : bytes) : option str :=
  match bs with
  | [] => Some []
  | b0 :: t0 =>
      let yield (c : N) (rest : option str) := option_map (cons c) rest in
      let bad :=
        match pol with
        | Strict => None
        | Ignore => decode_with pol t0
        | Replace => yield replacement_char (decode_with pol t0)
        end in
      if (b0 <? 128)%N then yield b0 (decode_with pol t0)
      else
        match t0 with
        | [] => bad
        | b1 :: t1 =>
            if ok2 b0 b1 then yield (cp2 b0 b1) (decode_with pol t1)
            else
              match t1 with
              | [] => bad
              | b2 :: t2 =>
                  if ok3 b0 b1 b2 then yield (cp3 b0 b1 b2) (decode_with pol t2)
                  else
                    match t2 with
                    | [] => bad
                    | b3 :: t3 =>
                        if ok4 b0 b1 b2 b3
                        then yield (cp4 b0 b1 b2 b3) (decode_with pol t3)
                        else bad
                    end
              end
        end
  end.

(** [raw.decode(errors="ignore")], the call in [handle_client]. *)
Definition decode_ignore (bs : bytes) : str :=
  match decode_with Ignore bs with Some s => s | None => [] end.

(** The first well-formed sequence of [bs], if [bs] starts with one: its
    code point and the bytes after it. *)
Definition decode_step (bs : bytes) : option (N * bytes) :=
  match bs with
  | [] => None
  | b0 :: t0 =>
      if (b0 <? 128)%N then Some (b0, t0)
      else
        match t0 with
        | [] => None
        | b1 :: t1 =>
            if ok2 b0 b1 then Some (cp2 b0 b1, t1)
            else
              match t1 with
              | [] => None
              | b2 :: t2 =>
                  if ok3 b0 b1 b2 then Some (cp3 b0 b1 b2, t2)
                  else
                    match t2 with
                    | [] => None
                    | b3 :: t3 =>
                        if ok4 b0 b1 b2 b3 then Some (cp4 b0 b1 b2 b3, t3)
                        else None
                    end
              end
        end
  end.

Definition well_formed_at (bs : bytes) : bool :=
  match decode_step bs with Some _ => true | None => false end.

(** The specification's reading of the decoder: an invalid byte becomes
    U+FFFD.  Used only to compare with [decode_ignore]. *)
Definition spec_decode_replace (bs : bytes) : str :=
  match decode_with Replace bs with Some s => s | None => [] end.

(** ** [str.encode()] for UTF-8 *)

(** The bytes of one code point; [None] where [encode] raises
    [UnicodeEncodeError], which it does for a surrogate.  (A Python [str]
    holds no value above U+10FFFF; for such a number the model answers
    [None] as well.) *)
Definition encode_cp (c : N) : option bytes :=
  if (c <? 128)%N then Some [c]
  else if (c <? 2048)%N then Some [192 + c / 64; 128 + c mod 64]%N
  else if (c <? 65536)%N then
    if ((55296 <=? c) && (c <=? 57343))%N then None
    else Some [224 + c / 4096; 128 + (c / 64) mod 64; 128 + c mod 64]%N
  else if (c <? 1114112)%N then
    Some [240 + c / 262144; 128 + (c / 4096) mod 64; 128 + (c / 64) mod 64;
          128 + c mod 64]%N
  else None.

Fixpoint encode (s : str) : option bytes :=
  match s with
  | [] => Some []
  | c :: t =>
      match encode_cp c, encode t with
      | Some a, Some b => Some (a ++ b)
      | _, _ => None
      end
  end.

(** [StreamReader.readline] on the bytes that have arrived: the first line
    with its line feed, and the bytes after it.  (A line longer than the
    limit of the stream reader makes the call raise instead; see
    [ReadFault].) *)
Fixpoint readline (buf : bytes) : bytes * bytes :=
  match buf with
  | [] => ([], [])
  | b :: t =>
      if (b =? 10)%N then ([b], t)
      else let (l, r) := readline t in (b :: l, r)
  end.

(** [str(n)] for an integer. *)
Definition str_of_int (z : Z) : str :=
  if (z <? 0)%Z then u "-" ++ str_of_nat (Z.abs_nat z) else str_of_nat (Z.abs_nat z).

(** ** Python dictionaries

    A [dict] is the list of its items in insertion order.  Keys are unique in
    every dictionary the server builds ([NoDup] of [dict_keys], part of the
    state invariant below). *)

Section Dict.
Variables K V : Type.
Variable eq_dec : forall a b : K, {a = b} + {a <> b}.

Definition dict := list (K * V).

(** [d.get(k)] *)
Fixpoint dict_get (k : K) (d : dict) : option V :=
  match d with
  | [] => None
  | (k', v) :: t => if eq_dec k k' then Some v else dict_get k t
  end.

(** [k in d] *)
Definition dict_mem (k : K) (d : dict) : bool :=
  match dict_get k d with Some _ => true | None => false end.

(** [d[k] = v]: an existing key keeps its position, a new one goes last. *)
Fixpoint dict_set (k : K) (v : V) (d : dict) : dict :=
  match d with
  | [] => [(k, v)]
  | (k', v') :: t =>
      if eq_dec k k' then (k', v) :: t else (k', v') :: dict_set k v t
  end.

(** [d.pop(k, None)].  With unique keys at most one item goes; written so
    that no item under [k] is left in any case. *)
Fixpoint dict_pop (k : K) (d : dict) : dict :=
  match d with
  | [] => []
  | (k', v') :: t =>
      if eq_dec k k' then dict_pop k t else (k', v') :: dict_pop k t
  end.

(** [list(d.keys())] *)
Definition dict_keys (d : dict) : list K := map fst d.
End Dict.

Definition str_eq_dec : forall a b : str, {a = b} + {a <> b} :=
  list_eq_dec N.eq_dec.

(** ** Server state *)

(** What a connection's peer, or an observer of the socket, can see. *)
Inductive io_event :=
| Sent (w : conn) (text : str)        (* write + drain completed *)
| SendFailed (w : conn) (text : str)  (* write or drain raised *)
| Closed (w : conn).                  (* writer.close() was called *)

Record State := mkState {
  clients : dict conn (option str);     (* self.clients *)
  nick_to_writer : dict str conn;       (* self.nick_to_writer *)
  locked : bool;                        (* self.lock is held *)
  tick : nat;                           (* oracle consultations so far *)
  out : list io_event                   (* socket activity, oldest first *)
}.

Definition init_state : State := mkState [] [] false 0 [].

Definition set_clients (c : dict conn (option str)) (st : State) : State :=
  mkState c (nick_to_writer st) (locked st) (tick st) (out st).
Definition set_nicks (d : dict str conn) (st : State) : State :=
  mkState (clients st) d (locked st) (tick st) (out st).
Definition set_locked (b : bool) (st : State) : State :=
  mkState (clients st) (nick_to_writer st) b (tick st) (out st).
Definition emit (e : io_event) (st : State) : State :=
  mkState (clients st) (nick_to_writer st) (locked st) (tick st) (out st ++ [e]).
Definition advance (st : State) : State :=
  mkState (clients st) (nick_to_writer st) (locked st) (S (tick st)) (out st).

(** ** The monad of coroutines *)

(** The two classes of exception [handle_client] tells apart:
    [(asyncio.IncompleteReadError, ConnectionResetError)] and every other
    [Exception]. *)
Inductive exn := TransportExn | OtherExn.

(** How a coroutine ends: it returns, it raises, it waits for ever on the
    lock, or the model ran out of recursion budget (shown below not to occur). *)
Inductive status (A : Type) :=
| Ok (a : A)
| Raised (e : exn)
| Hung
| NoFuel.
Arguments Raised {A} e.
Arguments Hung {A}.
Arguments NoFuel {A}.

Definition M (A : Type) := State -> status A * State.

Definition ret {A} (a : A) : M A := fun st => (Ok a, st).

Definition bind {A B} (m : M A) (k : A -> M B) : M B :=
  fun st =>
    match m st with
    | (Ok a, st') => k a st'
    | (Raised e, st') => (Raised e, st')
    | (Hung, st') => (Hung, st')
    | (NoFuel, st') => (NoFuel, st')
    end.

Declare Scope coro_scope.
Delimit Scope coro_scope with coro.
Notation "x <- m ;; k" := (bind m (fun x => k))
  (at level 61, m at next level, right associativity) : coro_scope.
Notation "m ;; k" := (bind m (fun _ => k))
  (at level 61, right associativity) : coro_scope.
Open Scope coro_scope.

Definition raise {A} (e : exn) : M A := fun st => (Raised e, st).
Definition out_of_fuel {A} : M A := fun st => (NoFuel, st).
Definition gets {A} (f : State -> A) : M A := fun st => (Ok (f st), st).
Definition modify (f : State -> State) : M unit := fun st => (Ok tt, f st).

(** [try: m  except Exception: h] *)
Definition try_except {A} (m : M A) (h : M A) : M A :=
  fun st =>
    match m st with
    | (Raised _, st') => h st'
    | r => r
    end.

(** [async with self.lock: m].  [asyncio.Lock] is not re-entrant: acquiring
    it while it is held suspends the task until a release that, with the
    holder suspended, never comes.  Leaving the block by return or by an
    exception releases the lock. *)
Definition with_lock {A} (m : M A) : M A :=
  fun st =>
    if locked st then (Hung, st)
    else
      match m (set_locked true st) with
      | (Ok a, st') => (Ok a, set_locked false st')
      | (Raised e, st') => (Raised e, set_locked false st')
      | r => r
      end.

(** [for x in l: body x] *)
Fixpoint for_each {A} (l : list A) (body : A -> M unit) : M unit :=
  match l with
  | [] => ret tt
  | x :: t => body x ;; for_each t body
  end.

(** [users.sort(key=...)]: Python's sort is stable, and a stable sort has one
    result; insertion from the right computes it. *)
Fixpoint insert_by (key : str -> str) (x : str) (l : list str) : list str :=
  match l with
  | [] => [x]
  | y :: t =>
      if str_leb (key x) (key y) then x :: l else y :: insert_by key x t
  end.

Definition sort_by (key : str -> str) (l : list str) : list str :=
  fold_right (insert_by key) [] l.

(** ** Messages *)

Definition WELCOME : str :=
  u "Welcome to AsyncChat!" ++ nl ++
  u "Type /help for commands." ++ nl ++
  u "First, set your nickname with: /nick <name>" ++ nl.

Definition HELP : str :=
  nl ++ u "Commands:" ++ nl ++
  u "/nick <name>       Set or change your nickname" ++ nl ++
  u "/list              List connected users" ++ nl ++
  u "/msg <user> <txt>  Send a private message" ++ nl ++
  u "/me <action>       Emote (e.g., /me waves)" ++ nl ++
  u "/quit              Disconnect" ++ nl.

Definition msg_nick_usage : str := u "Usage: /nick <name>" ++ nl.
Definition msg_nick_spaces : str := u "Nickname cannot contain spaces." ++ nl.
Definition msg_nick_in_use : str := u "Nickname already in use. Try another." ++ nl.
Definition msg_nick_ok (newnick : str) : str :=
  u "OK. You are now '" ++ newnick ++ u "'." ++ nl.
Definition msg_renamed (old newnick : str) : str :=
  u "* " ++ old ++ u " is now known as " ++ newnick.
Definition msg_joined (newnick : str) : str :=
  u "* " ++ newnick ++ u " joined the chat".
Definition msg_users (users : list str) : str :=
  u "Users (" ++ str_of_nat (length users) ++ u "): " ++ join (u ", ") users ++ nl.
Definition msg_msg_usage : str := u "Usage: /msg <user> <message>" ++ nl.
Definition msg_set_nick_first : str := u "Set your nickname first: /nick <name>" ++ nl.
Definition msg_not_found (target : str) : str :=
  u "User '" ++ target ++ u "' not found." ++ nl.
Definition msg_pm (stamp sender text : str) : str :=
  u "[" ++ stamp ++ u "] [PM] <" ++ sender ++ u "> " ++ text ++ nl.
Definition msg_pm_echo (target text : str) : str :=
  u "[PM -> " ++ target ++ u "] " ++ text ++ nl.
Definition msg_me_usage : str := u "Usage: /me <action>" ++ nl.
Definition msg_emote (sender action : str) : str :=
  u "* " ++ sender ++ u " " ++ action.
Definition msg_unknown : str := u "Unknown command. Type /help" ++ nl.
Definition msg_chat (sender text : str) : str :=
  u "<" ++ sender ++ u "> " ++ text.
Definition msg_left (name reason : str) : str :=
  u "* " ++ name ++ u " left (" ++ reason ++ u ")".
(** [f"[{self.ts()}] {text}\n"] *)
Definition stamped (stamp text : str) : str :=
  u "[" ++ stamp ++ u "] " ++ text ++ nl.

(** ** The coroutines of [ChatServer] *)

(** The nickname [self.clients.get(w)] yields. *)
Definition nick_of (w : conn) (st : State) : option str :=
  match dict_get Nat.eq_dec w (clients st) with
  | Some v => v
  | None => None
  end.

Inductive read_result :=
| Data (raw : bytes)   (* what [reader.readline()] returned; empty at end of stream *)
| ReadReset            (* it raised IncompleteReadError or ConnectionResetError *)
| ReadFault.           (* it raised something else *)

Inductive loop_ctl := Continue | Return.

Section Server.
Variable lower : str -> str.               (* str.lower *)
Variable write_fails : nat -> conn -> bool. (* does the write at this tick raise? *)
Variable clock : nat -> str.               (* datetime.now().strftime("%H:%M") at this tick *)

(** [self.ts()] *)
Definition ts : M str :=
  fun st => (Ok (clock (tick st)), advance st).

(** [writer.write(text.encode()); await writer.drain()] *)
Definition write_drain (w : conn) (text : str) : M unit :=
  fun st =>
    if write_fails (tick st) w
    then (Raised TransportExn, emit (SendFailed w text) (advance st))
    else (Ok tt, emit (Sent w text) (advance st)).

(** [try: writer.close(); await writer.wait_closed()  except Exception: pass] *)
Definition close_writer (w : conn) : M unit :=
  modify (emit (Closed w)).

(** [self.clients.get(writer)] *)
Definition clients_get (w : conn) : M (option str) :=
  gets (fun st =>
          match dict_get Nat.eq_dec w (clients st) with
          | Some v => v
          | None => None
          end).

(** The loop of [broadcast], run under the lock; returns [dead]. *)
Fixpoint broadcast_loop (ws exclude : list conn) (line : str)
         (dead : list conn) : M (list conn) :=
  match ws with
  | [] => ret dead
  | w :: rest =>
      if existsb (Nat.eqb w) exclude then broadcast_loop rest exclude line dead
      else
        dead' <- try_except (write_drain w line ;; ret dead)
                            (ret (dead ++ [w])) ;;
        broadcast_loop rest exclude line dead'
  end.

(** [broadcast], over the [disconnect] it calls for the dead. *)
Definition broadcast_with (disc : conn -> str -> M unit)
           (text : str) (exclude : list conn) : M unit :=
  stamp <- ts ;;
  let line := stamped stamp text in
  dead <- with_lock (ws <- gets (fun st => dict_keys (clients st)) ;;
                     broadcast_loop ws exclude line []) ;;
  for_each dead (fun w => disc w (u "broken pipe")).

(** [disconnect].  It and [broadcast] call each other; [fuel] bounds the
    nesting of these calls. *)
Fixpoint disconnect_fuel (fuel : nat) (w : conn) (reason : str) : M unit :=
  match fuel with
  | O => out_of_fuel
  | S fuel' =>
      name <- clients_get w ;;
      with_lock
        (modify (fun st =>
                   if dict_mem Nat.eq_dec w (clients st)
                   then set_clients (dict_pop Nat.eq_dec w (clients st)) st
                   else st) ;;
         match name with
         | Some n =>
             if truthy_str n
             then modify (fun st =>
                            set_nicks (dict_pop str_eq_dec n (nick_to_writer st)) st)
             else ret tt
         | None => ret tt
         end) ;;
      close_writer w ;;
      match name with
      | Some n =>
          if truthy_str n
          then broadcast_with (disconnect_fuel fuel') (msg_left n reason) []
          else ret tt
      | None => ret tt
      end
  end.

(** Every nested [disconnect] that broadcasts has removed a registered
    connection first, so one more than the size of the registry is enough. *)
Definition enough_fuel (st : State) : nat := S (List.length (clients st)).

Definition disconnect (w : conn) (reason : str) : M unit :=
  fun st => disconnect_fuel (enough_fuel st) w reason st.

Definition broadcast (text : str) (exclude : list conn) : M unit :=
  fun st => broadcast_with (disconnect_fuel (enough_fuel st)) text exclude st.

(** [broadcast] up to the end of its critical section: the time stamp is
    taken and the writes are made under the lock; the value is [dead]. *)
Definition broadcast_locked (text : str) (exclude : list conn) : M (list conn) :=
  stamp <- ts ;;
  let line := stamped stamp text in
  with_lock (ws <- gets (fun st => dict_keys (clients st)) ;;
             broadcast_loop ws exclude line []).

(** [disconnect] from the point where it is granted the lock.  [name] is
    what [self.clients.get(writer)] returned before the lock was asked for:
    when the lock is held, or others wait for it, the call is suspended
    there, and the tasks ahead of it run between the reading of the
    nickname and its use. *)
Definition disconnect_resume (name : option str) (w : conn) (reason : str) : M unit :=
  with_lock
    (modify (fun st =>
               if dict_mem Nat.eq_dec w (clients st)
               then set_clients (dict_pop Nat.eq_dec w (clients st)) st
               else st) ;;
     match name with
     | Some n =>
         if truthy_str n
         then modify (fun st =>
                        set_nicks (dict_pop str_eq_dec n (nick_to_writer st)) st)
         else ret tt
     | None => ret tt
     end) ;;
  close_writer w ;;
  match name with
  | Some n =>
      if truthy_str n then broadcast (msg_left n reason) [] else ret tt
  | None => ret tt
  end.

Definition send_line (w : conn) (text : str) : M unit :=
  try_except (write_drain w text) (disconnect w (u "send failed")).

Definition safe_send (w : conn) (text : str) : M unit :=
  try_except (write_drain w text) (ret tt).

(** [newnick.lower() in (n.lower() for n in self.nick_to_writer.keys())] *)
Definition name_taken (newnick : str) (d : dict str conn) : bool :=
  existsb (fun n => str_eqb (lower newnick) (lower n)) (dict_keys d).

(** The [/nick] branch of [handle_command]; [args] is [parts[1:]]. *)
Definition cmd_nick (w : conn) (args : list str) : M unit :=
  match args with
  | [] => send_line w msg_nick_usage
  | a1 :: _ =>
      if negb (truthy_str (strip a1)) then send_line w msg_nick_usage
      else
        let newnick := strip a1 in
        if contains_char 32 newnick then send_line w msg_nick_spaces
        else
          r <- with_lock
                 (taken <- gets (fun st => name_taken newnick (nick_to_writer st)) ;;
                  if taken : bool
                  then send_line w msg_nick_in_use ;; ret None
                  else
                    old <- clients_get w ;;
                    (if truthy old
                     then modify (fun st =>
                                    match old with
                                    | Some o =>
                                        set_nicks (dict_pop str_eq_dec o (nick_to_writer st)) st
                                    | None => st
                                    end)
                     else ret tt) ;;
                    modify (fun st =>
                              set_clients (dict_set Nat.eq_dec w (Some newnick) (clients st)) st) ;;
                    modify (fun st =>
                              set_nicks (dict_set str_eq_dec newnick w (nick_to_writer st)) st) ;;
                    ret (Some old)) ;;
          match r with
          | None => ret tt
          | Some (Some o) =>
              if truthy_str o
              then broadcast (msg_renamed o newnick) []
              else send_line w (msg_nick_ok newnick) ;;
                   broadcast (msg_joined newnick) [w]
          | Some None =>
              send_line w (msg_nick_ok newnick) ;;
              broadcast (msg_joined newnick) [w]
          end
  end.

(** The [/list] branch. *)
Definition list_users (d : dict str conn) : list str :=
  sort_by lower (dict_keys d).

Definition cmd_list (w : conn) : M unit :=
  users <- gets (fun st => list_users (nick_to_writer st)) ;;
  send_line w (msg_users users).

(** The [/msg] branch. *)
Definition cmd_msg (w : conn) (args : list str) : M unit :=
  match args with
  | target :: text :: _ =>
      sender <- clients_get w ;;
      match sender with
      | Some s =>
          if truthy_str s then
            tw <- with_lock (gets (fun st => dict_get str_eq_dec target (nick_to_writer st))) ;;
            match tw with
            | None => send_line w (msg_not_found target)
            | Some t =>
                stamp <- ts ;;
                safe_send t (msg_pm stamp s text) ;;
                send_line w (msg_pm_echo target text)
            end
          else send_line w msg_set_nick_first
      | None => send_line w msg_set_nick_first
      end
  | _ => send_line w msg_msg_usage
  end.

(** The [/me] branch. *)
Definition cmd_me (w : conn) (args : list str) : M unit :=
  match args with
  | [] => send_line w msg_me_usage
  | action :: _ =>
      sender <- clients_get w ;;
      match sender with
      | Some s =>
          if truthy_str s then broadcast (msg_emote s action) []
          else send_line w msg_set_nick_first
      | None => send_line w msg_set_nick_first
      end
  end.

Definition handle_command (w : conn) (line : str) : M unit :=
  match split_ws 2 line with
  | [] => raise OtherExn     (* parts[0] raises IndexError *)
  | p0 :: args =>
      let cmd := lower p0 in
      if str_eqb cmd (u "/help") then send_line w HELP
      else if str_eqb cmd (u "/quit") then disconnect w (u "quit")
      else if str_eqb cmd (u "/nick") then cmd_nick w args
      else if str_eqb cmd (u "/list") then cmd_list w
      else if str_eqb cmd (u "/msg") then cmd_msg w args
      else if str_eqb cmd (u "/me") then cmd_me w args
      else send_line w msg_unknown
  end.

Definition handle_chat (w : conn) (text : str) : M unit :=
  sender <- clients_get w ;;
  match sender with
  | Some s =>
      if truthy_str s then broadcast (msg_chat s text) []
      else send_line w msg_set_nick_first
  | None => send_line w msg_set_nick_first
  end.

(** The two [except] clauses of [handle_client]. *)
Definition guarded (w : conn) (m : M loop_ctl) : M loop_ctl :=
  fun st =>
    match m st with
    | (Raised TransportExn, st') =>
        (disconnect w (u "transport error") ;; ret Return) st'
    | (Raised OtherExn, st') =>
        (disconnect w (u "server error") ;; ret Return) st'
    | r => r
    end.

(** [handle_client] up to its loop: register, greet. *)
Definition client_open (w : conn) : M loop_ctl :=
  modify (fun st => set_clients (dict_set Nat.eq_dec w None (clients st)) st) ;;
  guarded w (send_line w WELCOME ;; ret Continue).

(** One turn of the loop of [handle_client], given what [readline] did. *)
Definition client_step (w : conn) (r : read_result) : M loop_ctl :=
  guarded w
    match r with
    | ReadReset => raise TransportExn
    | ReadFault => raise OtherExn
    | Data [] => disconnect w (u "client closed") ;; ret Return
    | Data raw =>
        let line := rstrip_by is_crlf (decode_ignore raw) in
        if negb (truthy_str line) then ret Continue
        else if startswith_slash line
             then handle_command w line ;; ret Continue
             else handle_chat w line ;; ret Continue
    end.

(** The states of the runs in which every coroutine, once scheduled, runs
    to its end before another starts: the server starts empty; connections
    are accepted (each writer object is new, so unknown to the registry),
    their read loops turn, and, to cover every caller, [handle_command] and
    [disconnect] may run on any argument. *)
Inductive atomic_run : State -> Prop :=
| atomic_init : atomic_run init_state
| atomic_open : forall st w,
    atomic_run st ->
    dict_mem Nat.eq_dec w (clients st) = false ->
    atomic_run (snd (client_open w st))
| atomic_step : forall st w r,
    atomic_run st -> atomic_run (snd (client_step w r st))
| atomic_command : forall st w line,
    atomic_run st -> atomic_run (snd (handle_command w line st))
| atomic_disconnect : forall st w reason,
    atomic_run st -> atomic_run (snd (disconnect w reason st)).

(** A call of [disconnect] that has read the nickname and waits for the
    lock: the connection, the nickname read, the reason. *)
Definition waiting : Type := conn * option str * str.

(** The runs of the server.  Besides the steps of [atomic_run], a call of
    [disconnect] may be suspended where it asks for the lock ([run_read]) and
    resumed after any number of other steps ([run_resume]); the list holds
    the calls so suspended.  This is the one place where the code reads a
    dictionary, awaits, and then updates the dictionaries from what it read;
    the other awaits are made under the lock or after the last update, and
    change only the order of the writes to the sockets. *)
Inductive run : list waiting -> State -> Prop :=
| run_init : run [] init_state
| run_open : forall q st w,
    run q st ->
    dict_mem Nat.eq_dec w (clients st) = false ->
    run q (snd (client_open w st))
| run_step : forall q st w r,
    run q st -> run q (snd (client_step w r st))
| run_command : forall q st w line,
    run q st -> run q (snd (handle_command w line st))
| run_disconnect : forall q st w reason,
    run q st -> run q (snd (disconnect w reason st))
| run_read : forall q st w reason,
    run q st -> run ((w, nick_of w st, reason) :: q) st
| run_resume : forall q st w name reason,
    run q st -> In (w, name, reason) q ->
    run q (snd (disconnect_resume name w reason st)).

(** The states the server can be in. *)
Definition reachable (st : State) : Prop := exists q, run q st.

End Server.

(** ** Pure descriptions of the state changes *)

(** What the critical section of [disconnect] does to the dictionaries. *)
Definition drop_conn (w : conn) (st : State) : State :=
  let st1 := set_clients (dict_pop Nat.eq_dec w (clients st)) st in
  match nick_of w st with
  | Some n =>
      if truthy_str n
      then set_nicks (dict_pop str_eq_dec n (nick_to_writer st1)) st1
      else st1
  | None => st1
  end.

(** The same when the nickname was read beforehand and is [name]. *)
Definition drop_named (name : option str) (w : conn) (st : State) : State :=
  let st1 := set_clients (dict_pop Nat.eq_dec w (clients st)) st in
  match name with
  | Some n =>
      if truthy_str n
      then set_nicks (dict_pop str_eq_dec n (nick_to_writer st1)) st1
      else st1
  | None => st1
  end.

(** What the critical section of [/nick] does when the name is free. *)
Definition install_nick (w : conn) (newnick : str) (st : State) : State :=
  let st1 :=
    match nick_of w st with
    | Some o =>
        if truthy_str o
        then set_nicks (dict_pop str_eq_dec o (nick_to_writer st)) st
        else st
    | None => st
    end in
  let st2 := set_clients (dict_set Nat.eq_dec w (Some newnick) (clients st1)) st1 in
  set_nicks (dict_set str_eq_dec newnick w (nick_to_writer st2)) st2.

Definition same_dicts (a b : State) : Prop :=
  clients a = clients b /\ nick_to_writer a = nick_to_writer b.


(** The write events of the loop of [broadcast] over the recipients [ws],
    the first write being attempted at tick [t]. *)
Fixpoint deliveries (write_fails : nat -> conn -> bool) (t : nat)
         (ws : list conn) (line : str) : list io_event :=
  match ws with
  | [] => []
  | w :: rest =>
      (if write_fails t w then SendFailed w line else Sent w line)
        :: deliveries write_fails (S t) rest line
  end.

(** The recipients whose write raised: the list [dead] of [broadcast]. *)
Fixpoint failures (write_fails : nat -> conn -> bool) (t : nat)
         (ws : list conn) : list conn :=
  match ws with
  | [] => []
  | w :: rest =>
      if write_fails t w then w :: failures write_fails (S t) rest
      else failures write_fails (S t) rest
  end.

Definition recipients (exclude : list conn) (st : State) : list conn :=
  filter (fun w => negb (existsb (Nat.eqb w) exclude)) (dict_keys (clients st)).

Definition after_delivery (write_fails : nat -> conn -> bool)
           (ws : list conn) (line : str) (st : State) : State :=
  mkState (clients st) (nick_to_writer st) (locked st)
          (tick st + List.length ws)
          (out st ++ deliveries write_fails (tick st) ws line).

(** ** The invariant of the two dictionaries *)

Record wf (lower : str -> str) (st : State) : Prop := mkWf {
  wf_clients_nodup : NoDup (dict_keys (clients st));
  wf_nicks_nodup : NoDup (dict_keys (nick_to_writer st));
  wf_link : forall n w,
      dict_get str_eq_dec n (nick_to_writer st) = Some w <->
      dict_get Nat.eq_dec w (clients st) = Some (Some n);
  wf_nonempty : forall w, dict_get Nat.eq_dec w (clients st) <> Some (Some []);
  wf_unique : forall n1 n2,
      In n1 (dict_keys (nick_to_writer st)) ->
      In n2 (dict_keys (nick_to_writer st)) ->
      lower n1 = lower n2 -> n1 = n2
}.

(** A coroutine respects [R] when [R] relates the state it starts in to the
    state it leaves, however it ends. *)
Definition respects (R : State -> State -> Prop) {A} (m : M A) : Prop :=
  forall st, R st (snd (m st)).

(** [keeps_wf] relates two states when the second is well formed if the
    first is; [shrinks] when the second has lost registry and directory
    entries at most, and gained output at most. *)
Definition keeps_wf (lower : str -> str) (a b : State) : Prop :=
  wf lower a -> wf lower b.

Record shrinks (a b : State) : Prop := mkShrinks {
  sh_clients : forall k, In k (dict_keys (clients b)) -> In k (dict_keys (clients a));
  sh_nicks : forall n, In n (dict_keys (nick_to_writer b)) ->
                       In n (dict_keys (nick_to_writer a));
  sh_length : List.length (clients b) <= List.length (clients a);
  sh_nick_of : forall w n, nick_of w b = Some n -> nick_of w a = Some n;
  sh_out : exists evs, out b = out a ++ evs
}.

(** A word: a string without whitespace. *)
Definition is_word (s : str) : bool := forallb (fun c => negb (isspace c)) s.

(** What [/nick] does once the lock is released, [old] being the previous
    nickname: announce a rename to all, or confirm and announce a join. *)
Definition announce_nick (write_fails : nat -> conn -> bool) (clock : nat -> str)
           (w : conn) (old : option str) (newnick : str) : M unit :=
  match old with
  | Some o =>
      if truthy_str o
      then broadcast write_fails clock (msg_renamed o newnick) []
      else send_line write_fails clock w (msg_nick_ok newnick) ;;
           broadcast write_fails clock (msg_joined newnick) [w]
  | None =>
      send_line write_fails clock w (msg_nick_ok newnick) ;;
      broadcast write_fails clock (msg_joined newnick) [w]
  end.

(** A connection is gone once it is out of the registry and its stream has
    been closed. *)
Definition gone (w : conn) (st : State) : Prop :=
  ~ In w (dict_keys (clients st)) /\ In (Closed w) (out st).

(** The registry entries whose nickname is not [None], and the order by
    which [/list] sorts. *)
Definition has_nick (e : conn * option str) : bool :=
  match snd e with Some _ => true | None => false end.

Definition named_count (c : dict conn (option str)) : nat :=
  List.length (filter has_nick c).

Definition lower_le (lower : str -> str) (a b : str) : Prop :=
  str_leb (lower a) (lower b) = true.

(** C6 as the specification states it: a [/msg] to a name the directory
    lacks leaves both dictionaries as they were and its whole socket
    activity is one "not found" line to the sender. *)
Definition msg_unknown_claim (lower : str -> str)
           (write_fails : nat -> conn -> bool) (clock : nat -> str)
           (w : conn) (line target : str) (st : State) : Prop :=
  let res := handle_command lower write_fails clock w line st in
  clients (snd res) = clients st /\
  nick_to_writer (snd res) = nick_to_writer st /\
  (out (snd res) = out st ++ [Sent w (msg_not_found target)] \/
   out (snd res) = out st ++ [SendFailed w (msg_not_found target)]).




(** A coroutine is [fueled] when the recursion budget of the model never
    runs out under it. *)
Definition fueled {A} (m : M A) : Prop := forall st, fst (m st) <> NoFuel.

(** No write raises from tick [t] on. *)
Definition quiet_from (write_fails : nat -> conn -> bool) (t : nat) : Prop :=
  forall t' w, t <= t' -> write_fails t' w = false.

(** The reason [handle_client] gives [disconnect] when its loop ends on
    what [readline] did. *)
Definition end_reason (r : read_result) : str :=
  match r with
  | Data _ => u "client closed"
  | ReadReset => u "transport error"
  | ReadFault => u "server error"
  end.

(** [readline] gave no line: end of stream, or it raised. *)
Definition stream_ended (r : read_result) : bool :=
  match r with
  | Data [] => true
  | Data _ => false
  | ReadReset | ReadFault => true
  end.

(** Every nickname, in the directory or in the registry, is a non-empty
    word. *)
Definition names_are_words (st : State) : Prop :=
  (forall n, In n (dict_keys (nick_to_writer st)) -> is_word n = true /\ n <> []) /\
  (forall w n, nick_of w st = Some n -> is_word n = true /\ n <> []).

(** The nicknames of the directory differ even up to letter case. *)
Definition distinct_names (lower : str -> str) (st : State) : Prop :=
  forall n1 n2,
    In n1 (dict_keys (nick_to_writer st)) ->
    In n2 (dict_keys (nick_to_writer st)) ->
    lower n1 = lower n2 -> n1 = n2.

(** A step from [a] to [b] keeps the property [I]. *)
Definition keeps (I : State -> Prop) (a b : State) : Prop := I a -> I b.

(** ** The client ([client.py])

    [run_client] starts two tasks, [stdin_reader], which feeds a queue with
    the lines typed, and [server_to_stdout], which shows what the server
    sends, and then forwards the queue to the server.  Each of the three is
    modelled by the trace of what it writes; how the three traces interleave
    is not modelled, nor is a [KeyboardInterrupt]. *)

Module Client.

Definition HELP : str :=
  u "Type messages and press Enter to chat. Commands: " ++ nl ++
  u "/help, /nick <name>, /list, /msg <user> <text>, /me <action>, /quit" ++ nl.

Inductive event :=
| Stdout (s : str)            (* text written to standard output *)
| Written (data : bytes)      (* [writer.write(data)], [await writer.drain()] *)
| WriteFailed (data : bytes)  (* the same, raising *)
| WriterClosed.               (* [writer.close()], [await writer.wait_closed()] *)

(** How [run_client] ends. *)
Inductive ending :=
| Returned    (* it returned *)
| Escaped     (* an exception left it *)
| Waiting.    (* it waits for ever on an empty queue *)

(** How the loop of [run_client] ends. *)
Inductive loop_end := Broke | Failed | Starved.

(** [stdin_reader]: what it puts on the queue, given what the successive
    calls of [sys.stdin.readline] return; the empty string is the end of
    file, and when the list is used up no further call returns.  The
    argument of [rstrip] is the empty string (its literal holds a backslash
    and a line break, which Python reads as a line continuation), so nothing
    is stripped and a line keeps its line feed. *)
Fixpoint stdin_reader (input : list str) : list str :=
  match input with
  | [] => []
  | line :: rest =>
      if str_eqb line [] then [u "/quit"]
      else rstrip_by (fun c => contains_char c []) line :: stdin_reader rest
  end.

(** [server_to_stdout], given what the successive calls of
    [reader.readline] do, up to the cancellation of the task. *)
Fixpoint server_to_stdout (reads : list read_result) : list event :=
  match reads with
  | [] => []
  | Data [] :: _ => [Stdout (u "[INFO] Server closed the connection" ++ nl)]
  | Data data :: rest => Stdout (decode_ignore data) :: server_to_stdout rest
  | ReadReset :: _ => []
  | ReadFault :: _ => []
  end.

Section Run.
Variable lower : str -> str.              (* str.lower *)
Variable write_fails : nat -> bool.       (* does the write number [t] raise? *)
Variable connect_error : option str.      (* what [open_connection] raised, as text *)
Variable close_fails : bool.              (* does [wait_closed] raise? *)

Definition write_drain (t : nat) (data : bytes) : event :=
  if write_fails t then WriteFailed data else Written data.

(** The loop of [run_client] on the lines of the queue; [t] counts the
    writes made so far. *)
Fixpoint main_loop (t : nat) (queue : list str) : loop_end * nat * list event :=
  match queue with
  | [] => (Starved, t, [])
  | line :: rest =>
      if negb (truthy_str line) then main_loop t rest
      else if str_eqb (lower (strip line)) (u "/help") then
        let '(e, t', evs) := main_loop t rest in (e, t', Stdout HELP :: evs)
      else
        match encode (line ++ nl) with
        | None => (Failed, t, [])
        | Some data =>
            if write_fails t then (Failed, S t, [WriteFailed data])
            else if str_eqb (lower (strip line)) (u "/quit")
                 then (Broke, S t, [Written data])
                 else let '(e, t', evs) := main_loop (S t) rest in
                      (e, t', Written data :: evs)
        end
  end.

(** The [finally] clause of [run_client]. *)
Definition finally (e : ending) (t : nat) : ending * list event :=
  let bye := [write_drain t (u "/quit" ++ nl); WriterClosed] in
  if close_fails then (Escaped, bye)
  else (e, bye ++ [Stdout (u "[INFO] Disconnected" ++ nl)]).

(** The loop of [run_client] with its [finally] clause, from write number
    [t] on. *)
Definition session (t : nat) (queue : list str) : ending * list event :=
  match main_loop t queue with
  | (Starved, _, evs) => (Waiting, evs)
  | (Broke, t', evs) => let (e, bye) := finally Returned t' in (e, evs ++ bye)
  | (Failed, t', evs) => let (e, bye) := finally Escaped t' in (e, evs ++ bye)
  end.

Definition run_client (host : str) (port : Z) (nick : option str)
           (input : list str) : ending * list event :=
  let addr := host ++ u ":" ++ str_of_int port in
  match connect_error with
  | Some e =>
      (Returned, [Stdout (u "[ERR] Cannot connect to " ++ addr ++ u " -> " ++ e ++ nl)])
  | None =>
      let hello := Stdout (u "[INFO] Connected to " ++ addr ++ nl) in
      let queue := stdin_reader input in
      if truthy nick then
        match encode (u "/nick " ++ match nick with Some n => n | None => [] end ++ nl) with
        | None => (Escaped, [hello])
        | Some data =>
            if write_fails 0 then (Escaped, [hello; WriteFailed data])
            else let (e, evs) := session 1 queue in (e, hello :: Written data :: evs)
        end
      else let (e, evs) := session 0 queue in (e, hello :: evs)
  end.

End Run.

End Client.

(** A line of the input that ends the session: the end of file, or a line
    that reads [/quit]. *)
Definition ends_session (lower : str -> str) (line : str) : bool :=
  str_eqb line [] || str_eqb (lower (strip line)) (u "/quit").

(** What [handle_client] does with a received line once it is decoded and
    its line ending is removed. *)
Definition handle_line (lower : str -> str) (write_fails : nat -> conn -> bool)
           (clock : nat -> str) (w : conn) (line : str) : M loop_ctl :=
  guarded write_fails clock w
    (if negb (truthy_str line) then ret Continue
     else if startswith_slash line
          then handle_command lower write_fails clock w line ;; ret Continue
          else handle_chat write_fails clock w line ;; ret Continue).

Definition is_close (e : Client.event) : bool :=
  match e with Client.WriterClosed => true | _ => false end.

(** The write of the nickname given on the command line raises. *)
Definition nick_write_raises (write_fails : nat -> bool) (nick : option str) : bool :=
  truthy nick &&
  match encode (u "/nick " ++ match nick with Some n => n | None => [] end ++ nl) with
  | None => true
  | Some _ => write_fails 0
  end.

(** The loop of [handle_client], given what the successive calls of
    [readline] do; when the list is used up the handler waits for the next
    line. *)
Fixpoint read_loop (lower : str -> str) (write_fails : nat -> conn -> bool)
         (clock : nat -> str) (w : conn) (reads : list read_result) : M loop_ctl :=
  match reads with
  | [] => ret Continue
  | r :: rest =>
      c <- client_step lower write_fails clock w r ;;
      match c with
      | Return => ret Return
      | Continue => read_loop lower write_fails clock w rest
      end
  end.

Definition handle_client (lower : str -> str) (write_fails : nat -> conn -> bool)
           (clock : nat -> str) (w : conn) (reads : list read_result) : M loop_ctl :=
  c <- client_open write_fails clock w ;;
  match c with
  | Return => ret Return
  | Continue => read_loop lower write_fails clock w reads
  end.

(** ** Concrete oracles, for examples *)

Definition lower_cp (c : N) : N :=
  if ((65 <=? c) && (c <=? 90))%N then (c + 32)%N else c.

(** [str.lower] on ASCII text. *)
Definition ascii_lower (s : str) : str := map lower_cp s.

Definition never_fails (_ : nat) (_ : conn) : bool := false.
Definition broken (bad : conn) (_ : nat) (w : conn) : bool := Nat.eqb w bad.
(** Writes to [bad] raise from tick [t0] on. *)
Definition fails_from (t0 : nat) (bad : conn) (t : nat) (w : conn) : bool :=
  Nat.leb t0 t && Nat.eqb w bad.
Definition noon (_ : nat) : str := u "12:00".
(** A client whose writes never raise. *)
Definition writes_ok (_ : nat) : bool := false.

(** Connection 1 alone, just accepted. *)
Definition demo_one (write_fails : nat -> conn -> bool) : State :=
  snd (client_open write_fails noon 1 init_state).

(** Connections 1 and 2 with the nicknames "alice" and "Bob"; the oracle
    has been consulted seven times. *)
Definition demo_two (write_fails : nat -> conn -> bool) : State :=
  let run w line st := snd (handle_command ascii_lower write_fails noon w line st) in
  let s1 := run 1 (u "/nick alice") (demo_one write_fails) in
  let s2 := snd (client_open write_fails noon 2 s1) in
  run 2 (u "/nick Bob") s2.

(** C9 as the specification states it: invalid bytes are replaced. *)
Definition decode_replaces_claim (bs : bytes) : Prop :=
  decode_ignore bs = spec_decode_replace bs.

(** [tauto], kept from using the oracles of the enclosing section as if they
    were implications. *)
Ltac only_props :=
  repeat match goal with
         | f : ?A -> ?B |- _ =>
             lazymatch type of (A -> B) with
             | Prop => fail
             | _ => clear f
             end
         end.
Ltac ptauto := only_props; tauto.

(** ** Facts about dictionaries *)

Section DictFacts.
Variables K V : Type.
Variable eq_dec : forall a b : K, {a = b} + {a <> b}.
Implicit Types (k : K) (v : V) (d : dict K V).

Lemma dict_get_set_eq k v d : dict_get eq_dec k (dict_set eq_dec k v d) = Some v.
Proof.
  induction d as [|[k' v'] t IH]; simpl.
  - destruct (eq_dec k k); congruence.
  - destruct (eq_dec k k') as [E|E]; simpl.
    + destruct (eq_dec k k'); congruence.
    + destruct (eq_dec k k'); congruence.
Qed.

Lemma dict_get_set_neq k k' v d :
  k' <> k -> dict_get eq_dec k' (dict_set eq_dec k v d) = dict_get eq_dec k' d.
Proof.
  intros N; induction d as [|[k0 v0] t IH]; simpl.
  - destruct (eq_dec k' k); congruence.
  - destruct (eq_dec k k0) as [E|E]; simpl.
    + subst k0. destruct (eq_dec k' k); congruence.
    + destruct (eq_dec k' k0); congruence.
Qed.

Lemma dict_get_pop_eq k d : dict_get eq_dec k (dict_pop eq_dec k d) = None.
Proof.
  induction d as [|[k' v'] t IH]; simpl; auto.
  destruct (eq_dec k k') as [E|E]; simpl; auto.
  destruct (eq_dec k k'); congruence.
Qed.

Lemma dict_get_pop_neq k k' d :
  k' <> k -> dict_get eq_dec k' (dict_pop eq_dec k d) = dict_get eq_dec k' d.
Proof.
  intros N; induction d as [|[k0 v0] t IH]; simpl; auto.
  destruct (eq_dec k k0) as [E|E]; simpl.
  - subst k0. destruct (eq_dec k' k); congruence.
  - destruct (eq_dec k' k0); congruence.
Qed.

Lemma dict_get_in k v d : dict_get eq_dec k d = Some v -> In (k, v) d.
Proof.
  induction d as [|[k' v'] t IH]; simpl; [discriminate|].
  destruct (eq_dec k k'); intros H.
  - left. congruence.
  - right. auto.
Qed.

Lemma dict_get_none k d : dict_get eq_dec k d = None <-> ~ In k (dict_keys d).
Proof.
  induction d as [|[k' v'] t IH]; simpl.
  - ptauto.
  - destruct (eq_dec k k') as [E|E].
    + split; [discriminate|]. intros H. exfalso. apply H. left. congruence.
    + rewrite IH. split; intros H; [intros [F|F]; [congruence|ptauto]|ptauto].
Qed.

Lemma dict_get_some_key k v d : dict_get eq_dec k d = Some v -> In k (dict_keys d).
Proof.
  intros H. destruct (in_dec eq_dec k (dict_keys d)) as [I|I]; auto.
  apply dict_get_none in I. congruence.
Qed.

Lemma dict_key_get k d : In k (dict_keys d) -> exists v, dict_get eq_dec k d = Some v.
Proof.
  intros H. destruct (dict_get eq_dec k d) as [v|] eqn:E; eauto.
  apply dict_get_none in E. ptauto.
Qed.

Lemma in_dict_get k v d : NoDup (dict_keys d) -> In (k, v) d -> dict_get eq_dec k d = Some v.
Proof.
  induction d as [|[k' v'] t IH]; simpl; [ptauto|].
  intros ND [H|H].
  - inversion H; subst. destruct (eq_dec k k); congruence.
  - inversion ND; subst. destruct (eq_dec k k') as [E|E]; auto.
    subst k'. exfalso. apply H2. change k with (fst (k, v)). now apply in_map.
Qed.

Lemma dict_mem_true k d : dict_mem eq_dec k d = true <-> In k (dict_keys d).
Proof.
  unfold dict_mem. destruct (dict_get eq_dec k d) eqn:E.
  - split; auto. intros _. eapply dict_get_some_key; eauto.
  - apply dict_get_none in E. split; [discriminate|ptauto].
Qed.

Lemma dict_keys_pop k k' d :
  In k' (dict_keys (dict_pop eq_dec k d)) <-> k' <> k /\ In k' (dict_keys d).
Proof.
  induction d as [|[k0 v0] t IH]; simpl; [ptauto|].
  destruct (eq_dec k k0) as [E|E]; simpl; rewrite IH.
  - subst. intuition congruence.
  - intuition congruence.
Qed.

Lemma dict_keys_set k k' v d :
  In k' (dict_keys (dict_set eq_dec k v d)) <-> k' = k \/ In k' (dict_keys d).
Proof.
  induction d as [|[k0 v0] t IH]; simpl.
  - intuition congruence.
  - destruct (eq_dec k k0) as [E|E]; simpl.
    + subst. intuition congruence.
    + rewrite IH. intuition congruence.
Qed.

Lemma dict_pop_nodup k d : NoDup (dict_keys d) -> NoDup (dict_keys (dict_pop eq_dec k d)).
Proof.
  induction d as [|[k0 v0] t IH]; simpl; auto.
  intros ND. inversion ND; subst.
  destruct (eq_dec k k0); simpl; auto.
  constructor; auto. rewrite dict_keys_pop. ptauto.
Qed.

Lemma dict_set_nodup k v d : NoDup (dict_keys d) -> NoDup (dict_keys (dict_set eq_dec k v d)).
Proof.
  induction d as [|[k0 v0] t IH]; simpl.
  - intros _. constructor; [simpl; ptauto|constructor].
  - intros ND. inversion ND; subst.
    destruct (eq_dec k k0); simpl.
    + constructor; auto.
    + constructor; auto. rewrite dict_keys_set. intuition congruence.
Qed.

Lemma dict_pop_length k d : List.length (dict_pop eq_dec k d) <= List.length d.
Proof.
  induction d as [|[k0 v0] t IH]; simpl; auto.
  destruct (eq_dec k k0); simpl; lia.
Qed.

Lemma dict_pop_length_lt k d :
  In k (dict_keys d) -> List.length (dict_pop eq_dec k d) < List.length d.
Proof.
  induction d as [|[k0 v0] t IH]; simpl; [ptauto|].
  destruct (eq_dec k k0) as [E|E]; simpl.
  - intros _. pose proof (dict_pop_length k t). lia.
  - intros [H|H]; [congruence|]. apply IH in H. lia.
Qed.

Lemma dict_pop_absent k d : ~ In k (dict_keys d) -> dict_pop eq_dec k d = d.
Proof.
  induction d as [|[k0 v0] t IH]; simpl; auto.
  intros H. destruct (eq_dec k k0) as [E|E].
  - exfalso. apply H. left. congruence.
  - f_equal. apply IH. ptauto.
Qed.
End DictFacts.

(** ** What [broadcast], [disconnect] and [send_line] compute *)

Section Unfold.
Variable write_fails : nat -> conn -> bool.
Variable clock : nat -> str.

Lemma state_eta st :
  mkState (clients st) (nick_to_writer st) (locked st) (tick st) (out st) = st.
Proof. destruct st; reflexivity. Qed.

Lemma broadcast_loop_eq ws exclude line dead st :
  broadcast_loop write_fails ws exclude line dead st =
  let rs := filter (fun w => negb (existsb (Nat.eqb w) exclude)) ws in
  (Ok (dead ++ failures write_fails (tick st) rs),
   after_delivery write_fails rs line st).
Proof.
  revert dead st. induction ws as [|w rest IH]; intros dead st; simpl.
  - unfold ret, after_delivery; simpl.
    rewrite !app_nil_r, Nat.add_0_r, state_eta. reflexivity.
  - destruct (existsb (Nat.eqb w) exclude); simpl; [apply IH|].
    unfold bind at 1, try_except, bind at 1, write_drain.
    destruct (write_fails (tick st) w) eqn:F; simpl.
    + rewrite IH. simpl. unfold after_delivery; simpl.
      rewrite F, <- !app_assoc, Nat.add_succ_r. reflexivity.
    + rewrite IH. simpl. unfold after_delivery; simpl.
      rewrite F, Nat.add_succ_r, <- app_assoc. reflexivity.
Qed.

Lemma broadcast_with_eq disc text exclude st :
  broadcast_with write_fails clock disc text exclude st =
  if locked st then (Hung, advance st)
  else
    let ws := recipients exclude st in
    for_each (failures write_fails (S (tick st)) ws)
             (fun w => disc w (u "broken pipe"))
             (after_delivery write_fails ws (stamped (clock (tick st)) text)
                             (advance st)).
Proof.
  unfold broadcast_with, bind at 1, ts. unfold bind at 1, with_lock.
  simpl. destruct (locked st) eqn:L; [reflexivity|].
  unfold bind at 1, gets. rewrite broadcast_loop_eq. simpl.
  unfold recipients, after_delivery, set_locked, advance; simpl.
  rewrite L. reflexivity.
Qed.

Lemma disconnect_fuel_eq fuel w reason st :
  disconnect_fuel write_fails clock (S fuel) w reason st =
  if locked st then (Hung, st)
  else
    let st1 := emit (Closed w) (drop_conn w st) in
    match nick_of w st with
    | Some n =>
        if truthy_str n
        then broadcast_with write_fails clock
               (disconnect_fuel write_fails clock fuel) (msg_left n reason) [] st1
        else (Ok tt, st1)
    | None => (Ok tt, st1)
    end.
Proof.
  cbn [disconnect_fuel]. unfold bind at 1, clients_get, gets.
  fold (nick_of w st). unfold bind at 1, with_lock.
  destruct (locked st) eqn:L; [reflexivity|].
  assert (forall s : State,
             (if dict_mem Nat.eq_dec w (clients s)
              then set_clients (dict_pop Nat.eq_dec w (clients s)) s
              else s) = set_clients (dict_pop Nat.eq_dec w (clients s)) s) as E.
  { intros s. destruct (dict_mem Nat.eq_dec w (clients s)) eqn:Hm; auto.
    rewrite dict_pop_absent.
    - destruct s; reflexivity.
    - intros I. apply dict_mem_true with (eq_dec := Nat.eq_dec) in I. congruence. }
  unfold bind at 1, modify at 1. rewrite E.
  unfold drop_conn.
  destruct (nick_of w st) as [n|]; [destruct (truthy_str n)|];
    unfold modify, ret, bind, close_writer, modify, set_locked, set_nicks,
      set_clients, emit; simpl; rewrite ?L; reflexivity.
Qed.

Lemma send_line_eq w text st :
  send_line write_fails clock w text st =
  if write_fails (tick st) w
  then disconnect write_fails clock w (u "send failed")
                  (emit (SendFailed w text) (advance st))
  else (Ok tt, emit (Sent w text) (advance st)).
Proof.
  unfold send_line, try_except, write_drain.
  destruct (write_fails (tick st) w); reflexivity.
Qed.

Lemma safe_send_eq w text st :
  safe_send write_fails w text st =
  (Ok tt, emit (if write_fails (tick st) w then SendFailed w text else Sent w text)
               (advance st)).
Proof.
  unfold safe_send, try_except, write_drain.
  destruct (write_fails (tick st) w); reflexivity.
Qed.

End Unfold.

(** ** Relations that every step of a coroutine respects *)

Section Frame.
Variable R : State -> State -> Prop.
Hypothesis R_refl : forall st, R st st.
Hypothesis R_trans : forall a b c, R a b -> R b c -> R a c.
Hypothesis R_lock : forall b st, R st (set_locked b st).
Hypothesis R_advance : forall st, R st (advance st).
Hypothesis R_emit : forall e st, R st (emit e st).

Lemma respects_ret A (a : A) : respects R (ret a).
Proof. intros st; apply R_refl. Qed.

Lemma respects_gets A (f : State -> A) : respects R (gets f).
Proof. intros st; apply R_refl. Qed.

Lemma respects_raise A e : respects R (@raise A e).
Proof. intros st; apply R_refl. Qed.

Lemma respects_out_of_fuel A : respects R (@out_of_fuel A).
Proof. intros st; apply R_refl. Qed.

Lemma respects_modify f : (forall st, R st (f st)) -> respects R (modify f).
Proof. intros H st; apply H. Qed.

Lemma respects_bind A B (m : M A) (k : A -> M B) :
  respects R m -> (forall a, respects R (k a)) -> respects R (bind m k).
Proof.
  intros Hm Hk st. unfold bind. specialize (Hm st).
  destruct (m st) as [[a|e| |] st']; simpl in *; auto.
  eapply R_trans; [exact Hm|apply Hk].
Qed.

Lemma respects_try A (m h : M A) :
  respects R m -> respects R h -> respects R (try_except m h).
Proof.
  intros Hm Hh st. unfold try_except. specialize (Hm st).
  destruct (m st) as [[a|e| |] st']; simpl in *; auto.
  eapply R_trans; [exact Hm|apply Hh].
Qed.

Lemma respects_with_lock A (m : M A) : respects R m -> respects R (with_lock m).
Proof.
  intros Hm st. unfold with_lock. destruct (locked st); [apply R_refl|].
  specialize (Hm (set_locked true st)).
  assert (R st (snd (m (set_locked true st)))) as H
      by (eapply R_trans; [apply R_lock|exact Hm]).
  destruct (m (set_locked true st)) as [[a|e| |] st']; simpl in *; auto;
    (eapply R_trans; [exact H|apply R_lock]).
Qed.

Lemma respects_for_each A (l : list A) (body : A -> M unit) :
  (forall x, respects R (body x)) -> respects R (for_each l body).
Proof.
  intros Hb. induction l as [|x t IH]; simpl.
  - apply respects_ret.
  - apply respects_bind; auto.
Qed.

Section FrameServer.
Variable lower : str -> str.
Variable write_fails : nat -> conn -> bool.
Variable clock : nat -> str.
Hypothesis R_drop : forall w st, R st (drop_conn w st).

Lemma respects_ts : respects R (ts clock).
Proof. intros st; apply R_advance. Qed.

Lemma respects_write_drain w text : respects R (write_drain write_fails w text).
Proof.
  intros st. unfold write_drain.
  destruct (write_fails (tick st) w); simpl;
    (eapply R_trans; [apply R_advance|apply R_emit]).
Qed.

Lemma respects_close_writer w : respects R (close_writer w).
Proof. apply respects_modify. intros st; apply R_emit. Qed.

Lemma respects_clients_get w : respects R (clients_get w).
Proof. apply respects_gets. Qed.

Lemma respects_broadcast_loop ws exclude line dead :
  respects R (broadcast_loop write_fails ws exclude line dead).
Proof.
  revert dead. induction ws as [|w rest IH]; intros dead; simpl.
  - apply respects_ret.
  - destruct (existsb (Nat.eqb w) exclude); auto.
    apply respects_bind; auto.
    apply respects_try; [|apply respects_ret].
    apply respects_bind; [apply respects_write_drain|intros; apply respects_ret].
Qed.

Lemma respects_broadcast_with disc text exclude :
  (forall w r, respects R (disc w r)) ->
  respects R (broadcast_with write_fails clock disc text exclude).
Proof.
  intros Hd. unfold broadcast_with.
  apply respects_bind; [apply respects_ts|intros stamp].
  apply respects_bind.
  - apply respects_with_lock. apply respects_bind; [apply respects_gets|].
    intros ws. apply respects_broadcast_loop.
  - intros dead. apply respects_for_each. intros w. apply Hd.
Qed.

Lemma respects_disconnect_fuel fuel w r :
  respects R (disconnect_fuel write_fails clock fuel w r).
Proof.
  revert w r. induction fuel as [|f IH]; intros w r.
  - apply respects_out_of_fuel.
  - intros st. rewrite disconnect_fuel_eq.
    destruct (locked st); [apply R_refl|].
    assert (R st (emit (Closed w) (drop_conn w st))) as H1
        by (eapply R_trans; [apply R_drop|apply R_emit]).
    cbv zeta. destruct (nick_of w st) as [n|]; [destruct (truthy_str n)|]; auto.
    eapply R_trans; [exact H1|]. apply respects_broadcast_with. exact IH.
Qed.

Lemma respects_disconnect w r : respects R (disconnect write_fails clock w r).
Proof. intros st. apply respects_disconnect_fuel. Qed.

Lemma respects_broadcast text exclude :
  respects R (broadcast write_fails clock text exclude).
Proof.
  intros st. unfold broadcast.
  apply respects_broadcast_with. intros; apply respects_disconnect_fuel.
Qed.

Lemma respects_send_line w text : respects R (send_line write_fails clock w text).
Proof.
  apply respects_try; [apply respects_write_drain|apply respects_disconnect].
Qed.

Lemma respects_safe_send w text : respects R (safe_send write_fails w text).
Proof.
  apply respects_try; [apply respects_write_drain|apply respects_ret].
Qed.

Lemma respects_cmd_list w : respects R (cmd_list lower write_fails clock w).
Proof.
  apply respects_bind; [apply respects_gets|intros; apply respects_send_line].
Qed.

Lemma respects_cmd_msg w args : respects R (cmd_msg write_fails clock w args).
Proof.
  unfold cmd_msg.
  destruct args as [|target [|text rest]]; try apply respects_send_line.
  apply respects_bind; [apply respects_gets|].
  intros [s|]; [destruct (truthy_str s)|]; try apply respects_send_line.
  apply respects_bind; [apply respects_with_lock, respects_gets|].
  intros [t|]; [|apply respects_send_line].
  apply respects_bind; [apply respects_ts|intros stamp].
  apply respects_bind; [apply respects_safe_send|intros; apply respects_send_line].
Qed.

Lemma respects_cmd_me w args : respects R (cmd_me write_fails clock w args).
Proof.
  unfold cmd_me. destruct args as [|action rest]; [apply respects_send_line|].
  apply respects_bind; [apply respects_gets|].
  intros [s|]; [destruct (truthy_str s)|];
    try apply respects_send_line; apply respects_broadcast.
Qed.

Lemma respects_handle_chat w text : respects R (handle_chat write_fails clock w text).
Proof.
  unfold handle_chat. apply respects_bind; [apply respects_gets|].
  intros [s|]; [destruct (truthy_str s)|];
    try apply respects_send_line; apply respects_broadcast.
Qed.

Lemma respects_guarded w m :
  respects R m -> respects R (guarded write_fails clock w m).
Proof.
  intros Hm st. unfold guarded. specialize (Hm st).
  destruct (m st) as [[a|[|]| |] st']; simpl in *; auto;
    (eapply R_trans; [exact Hm|]);
    (apply respects_bind; [apply respects_disconnect|intros; apply respects_ret]).
Qed.

Hypothesis R_nick : forall w newnick st,
    name_taken lower newnick (nick_to_writer st) = false ->
    truthy_str newnick = true ->
    R st (install_nick w newnick st).

Lemma respects_cmd_nick w args : respects R (cmd_nick lower write_fails clock w args).
Proof.
  unfold cmd_nick. destruct args as [|a1 rest]; [apply respects_send_line|].
  destruct (truthy_str (strip a1)) eqn:T; simpl; [|apply respects_send_line].
  destruct (contains_char 32 (strip a1)); [apply respects_send_line|].
  apply respects_bind.
  - apply respects_with_lock. intros st. unfold bind at 1, gets at 1.
    destruct (name_taken lower (strip a1) (nick_to_writer st)) eqn:Tk.
    + apply respects_bind; [apply respects_send_line|intros; apply respects_ret].
    + replace (snd _) with (install_nick w (strip a1) st); [now apply R_nick|].
      unfold install_nick, bind, clients_get, gets, modify, ret. fold (nick_of w st).
      destruct (nick_of w st) as [o|]; [destruct (truthy_str o) eqn:To|]; simpl;
        rewrite ?To; reflexivity.
  - intros [[o|]|].
    + destruct (truthy_str o); [apply respects_broadcast|].
      apply respects_bind; [apply respects_send_line|intros; apply respects_broadcast].
    + apply respects_bind; [apply respects_send_line|intros; apply respects_broadcast].
    + apply respects_ret.
Qed.

Lemma respects_handle_command w line :
  respects R (handle_command lower write_fails clock w line).
Proof.
  unfold handle_command. destruct (split_ws 2 line) as [|p0 args]; [apply respects_raise|].
  cbv zeta.
  repeat match goal with
         | |- respects R (if ?b then _ else _) => destruct b
         end;
    auto using respects_send_line, respects_disconnect, respects_cmd_nick,
      respects_cmd_list, respects_cmd_msg, respects_cmd_me.
Qed.

Lemma respects_client_step w r : respects R (client_step lower write_fails clock w r).
Proof.
  unfold client_step. apply respects_guarded.
  destruct r as [raw| |]; try apply respects_raise.
  destruct raw as [|b raw].
  - apply respects_bind; [apply respects_disconnect|intros; apply respects_ret].
  - cbv zeta. destruct (negb _); [apply respects_ret|].
    destruct (startswith_slash _);
      (apply respects_bind;
       [auto using respects_handle_command, respects_handle_chat
       |intros; apply respects_ret]).
Qed.

End FrameServer.
End Frame.


(** ** The invariant is kept *)

Section Invariant.
Variable lower : str -> str.

Lemma str_eqb_true a b : str_eqb a b = true <-> a = b.
Proof. unfold str_eqb. destruct (list_eq_dec N.eq_dec a b); split; congruence. Qed.

Lemma str_eqb_false a b : str_eqb a b = false <-> a <> b.
Proof. unfold str_eqb. destruct (list_eq_dec N.eq_dec a b); split; congruence. Qed.

Lemma name_taken_false newnick d :
  name_taken lower newnick d = false <->
  forall n, In n (dict_keys d) -> lower newnick <> lower n.
Proof.
  unfold name_taken. split.
  - intros H n I E.
    assert (existsb (fun n => str_eqb (lower newnick) (lower n)) (dict_keys d) = true).
    { apply existsb_exists. exists n. split; auto. now apply str_eqb_true. }
    congruence.
  - intros H. destruct (existsb _ _) eqn:E; auto.
    apply existsb_exists in E. destruct E as [n [I E]].
    apply str_eqb_true in E. exfalso. eapply H; eauto.
Qed.

Lemma name_taken_true newnick d :
  name_taken lower newnick d = true <->
  exists n, In n (dict_keys d) /\ lower newnick = lower n.
Proof.
  unfold name_taken. rewrite existsb_exists.
  split; intros [n [I E]]; exists n; split; auto; now apply str_eqb_true.
Qed.

Lemma truthy_str_true s : truthy_str s = true <-> s <> [].
Proof. destruct s; simpl; split; congruence. Qed.

Lemma wf_same_dicts a b : same_dicts a b -> wf lower a -> wf lower b.
Proof.
  intros [Hc Hn] [H1 H2 H3 H4 H5].
  constructor; rewrite <- ?Hc, <- ?Hn; auto.
Qed.

Lemma wf_init : wf lower init_state.
Proof.
  constructor; simpl; try constructor; try discriminate; ptauto.
Qed.

Lemma nick_of_some w n st :
  nick_of w st = Some n <-> dict_get Nat.eq_dec w (clients st) = Some (Some n).
Proof.
  unfold nick_of. destruct (dict_get Nat.eq_dec w (clients st)) as [[m|]|];
    split; congruence.
Qed.

Lemma wf_drop_conn w st : wf lower st -> wf lower (drop_conn w st).
Proof.
  intros [ND1 ND2 L NE U]. unfold drop_conn.
  destruct (nick_of w st) as [n|] eqn:Hn.
  - apply nick_of_some in Hn.
    destruct (truthy_str n) eqn:T.
    + constructor; simpl.
      * now apply dict_pop_nodup.
      * now apply dict_pop_nodup.
      * intros n' w'. destruct (str_eq_dec n' n) as [En|En].
        { subst n'. rewrite dict_get_pop_eq. split; [discriminate|].
          destruct (Nat.eq_dec w' w) as [Ew|Ew].
          - subst w'. rewrite dict_get_pop_eq. discriminate.
          - rewrite dict_get_pop_neq by auto. intros H.
            apply L in H. apply L in Hn. congruence. }
        { rewrite dict_get_pop_neq by auto.
          destruct (Nat.eq_dec w' w) as [Ew|Ew].
          - subst w'. rewrite dict_get_pop_eq. rewrite L. split; congruence.
          - rewrite dict_get_pop_neq by auto. apply L. }
      * intros w'. destruct (Nat.eq_dec w' w) as [Ew|Ew].
        { subst w'. rewrite dict_get_pop_eq. discriminate. }
        { rewrite dict_get_pop_neq by auto. apply NE. }
      * intros n1 n2. rewrite !dict_keys_pop. intros [_ I1] [_ I2]. now apply U.
    + destruct n; [|discriminate]. exfalso. eapply NE; eauto.
  - assert (forall n, dict_get Nat.eq_dec w (clients st) <> Some (Some n)) as Hw.
    { intros n H. apply nick_of_some in H. congruence. }
    constructor; simpl; auto.
    + now apply dict_pop_nodup.
    + intros n' w'. rewrite L. destruct (Nat.eq_dec w' w) as [Ew|Ew].
      * subst w'. rewrite dict_get_pop_eq. split; [intros H; now apply Hw in H|discriminate].
      * rewrite dict_get_pop_neq by auto. ptauto.
    + intros w'. destruct (Nat.eq_dec w' w) as [Ew|Ew].
      * subst w'. rewrite dict_get_pop_eq. discriminate.
      * rewrite dict_get_pop_neq by auto. apply NE.
Qed.

Lemma wf_install_nick w newnick st :
  name_taken lower newnick (nick_to_writer st) = false ->
  truthy_str newnick = true ->
  wf lower st -> wf lower (install_nick w newnick st).
Proof.
  intros Tk T [ND1 ND2 L NE U].
  rewrite name_taken_false in Tk. apply truthy_str_true in T.
  assert (dict_get str_eq_dec newnick (nick_to_writer st) = None) as Fresh.
  { apply dict_get_none. intros I. now apply (Tk _ I). }
  (* the directory once the old name is gone *)
  set (d1 := nick_to_writer
               match nick_of w st with
               | Some o =>
                   if truthy_str o
                   then set_nicks (dict_pop str_eq_dec o (nick_to_writer st)) st
                   else st
               | None => st
               end).
  assert (forall n' w', dict_get str_eq_dec n' d1 = Some w' <->
                        w' <> w /\ dict_get str_eq_dec n' (nick_to_writer st) = Some w')
    as Hd1.
  { intros n' w'. subst d1. destruct (nick_of w st) as [o|] eqn:Ho.
    - apply nick_of_some in Ho. destruct (truthy_str o) eqn:To; simpl.
      + destruct (str_eq_dec n' o) as [E|E].
        * subst n'. rewrite dict_get_pop_eq. apply L in Ho.
          split; [discriminate|]. intros [A B]. congruence.
        * rewrite dict_get_pop_neq by auto. split; [|ptauto].
          intros H. split; auto. intros ->. apply L in H. congruence.
      + destruct o; [|discriminate]. exfalso. eapply NE; eauto.
    - simpl. split; [|ptauto]. intros H. split; auto. intros ->.
      apply L in H. apply nick_of_some in H. congruence. }
  assert (forall n', In n' (dict_keys d1) -> In n' (dict_keys (nick_to_writer st)))
    as Hk1.
  { intros n' I. apply dict_key_get with (eq_dec := str_eq_dec) in I.
    destruct I as [w' I]. apply Hd1 in I. eapply dict_get_some_key. apply I. }
  assert (NoDup (dict_keys d1)) as ND3.
  { subst d1. destruct (nick_of w st) as [o|]; [destruct (truthy_str o)|]; simpl; auto.
    now apply dict_pop_nodup. }
  assert (clients match nick_of w st with
                  | Some o =>
                      if truthy_str o
                      then set_nicks (dict_pop str_eq_dec o (nick_to_writer st)) st
                      else st
                  | None => st
                  end = clients st) as Hc.
  { destruct (nick_of w st) as [o|]; [destruct (truthy_str o)|]; reflexivity. }
  unfold install_nick. constructor; simpl; fold d1; rewrite ?Hc.
  - now apply dict_set_nodup.
  - now apply dict_set_nodup.
  - intros n' w'. destruct (str_eq_dec n' newnick) as [En|En].
    + subst n'. rewrite dict_get_set_eq.
      destruct (Nat.eq_dec w' w) as [Ew|Ew].
      * subst w'. rewrite dict_get_set_eq. ptauto.
      * rewrite dict_get_set_neq by auto. split; [congruence|].
        intros H. apply L in H. congruence.
    + rewrite dict_get_set_neq by auto. rewrite Hd1.
      destruct (Nat.eq_dec w' w) as [Ew|Ew].
      * subst w'. rewrite dict_get_set_eq. split; [ptauto|congruence].
      * rewrite dict_get_set_neq by auto. rewrite L. ptauto.
  - intros w'. destruct (Nat.eq_dec w' w) as [Ew|Ew].
    + subst w'. rewrite dict_get_set_eq. congruence.
    + rewrite dict_get_set_neq by auto. apply NE.
  - intros n1 n2. rewrite !dict_keys_set.
    intros [E1|I1] [E2|I2] E; subst; auto.
    + exfalso. apply (Tk n2); auto.
    + exfalso. apply (Tk n1); auto.
Qed.

Lemma wf_register w st :
  dict_mem Nat.eq_dec w (clients st) = false ->
  wf lower st ->
  wf lower (set_clients (dict_set Nat.eq_dec w None (clients st)) st).
Proof.
  intros Hm [ND1 ND2 L NE U].
  assert (dict_get Nat.eq_dec w (clients st) = None) as Hw.
  { unfold dict_mem in Hm. destruct (dict_get Nat.eq_dec w (clients st)); congruence. }
  constructor; simpl; auto.
  - now apply dict_set_nodup.
  - intros n' w'. rewrite L. destruct (Nat.eq_dec w' w) as [Ew|Ew].
    + subst w'. rewrite dict_get_set_eq, Hw. split; discriminate.
    + rewrite dict_get_set_neq by auto. ptauto.
  - intros w'. destruct (Nat.eq_dec w' w) as [Ew|Ew].
    + subst w'. rewrite dict_get_set_eq. discriminate.
    + rewrite dict_get_set_neq by auto. apply NE.
Qed.

End Invariant.

(** ** Every reachable state is well formed *)

Section Reachable.
Variable lower : str -> str.
Variable write_fails : nat -> conn -> bool.
Variable clock : nat -> str.

Lemma keeps_wf_refl st : keeps_wf lower st st.
Proof. unfold keeps_wf; auto. Qed.

Lemma keeps_wf_trans a b c :
  keeps_wf lower a b -> keeps_wf lower b c -> keeps_wf lower a c.
Proof. unfold keeps_wf; auto. Qed.

Lemma keeps_wf_lock b st : keeps_wf lower st (set_locked b st).
Proof. unfold keeps_wf. apply wf_same_dicts; split; reflexivity. Qed.

Lemma keeps_wf_advance st : keeps_wf lower st (advance st).
Proof. unfold keeps_wf. apply wf_same_dicts; split; reflexivity. Qed.

Lemma keeps_wf_emit e st : keeps_wf lower st (emit e st).
Proof. unfold keeps_wf. apply wf_same_dicts; split; reflexivity. Qed.

Lemma keeps_wf_drop w st : keeps_wf lower st (drop_conn w st).
Proof. unfold keeps_wf. apply wf_drop_conn. Qed.

Lemma keeps_wf_nick w newnick st :
  name_taken lower newnick (nick_to_writer st) = false ->
  truthy_str newnick = true ->
  keeps_wf lower st (install_nick w newnick st).
Proof. unfold keeps_wf. intros; now apply wf_install_nick. Qed.

Lemma wf_disconnect w reason st :
  wf lower st -> wf lower (snd (disconnect write_fails clock w reason st)).
Proof.
  apply (@respects_disconnect (keeps_wf lower) keeps_wf_refl keeps_wf_trans
           keeps_wf_lock keeps_wf_advance keeps_wf_emit write_fails clock
           keeps_wf_drop w reason st).
Qed.

Lemma wf_send_line w text st :
  wf lower st -> wf lower (snd (send_line write_fails clock w text st)).
Proof.
  apply (@respects_send_line (keeps_wf lower) keeps_wf_refl keeps_wf_trans
           keeps_wf_lock keeps_wf_advance keeps_wf_emit write_fails clock
           keeps_wf_drop w text st).
Qed.

Lemma wf_broadcast text exclude st :
  wf lower st -> wf lower (snd (broadcast write_fails clock text exclude st)).
Proof.
  apply (@respects_broadcast (keeps_wf lower) keeps_wf_refl keeps_wf_trans
           keeps_wf_lock keeps_wf_advance keeps_wf_emit write_fails clock
           keeps_wf_drop text exclude st).
Qed.

Lemma wf_handle_command w line st :
  wf lower st -> wf lower (snd (handle_command lower write_fails clock w line st)).
Proof.
  apply (@respects_handle_command (keeps_wf lower) keeps_wf_refl keeps_wf_trans
           keeps_wf_lock keeps_wf_advance keeps_wf_emit lower write_fails clock
           keeps_wf_drop keeps_wf_nick w line st).
Qed.

Lemma wf_client_step w r st :
  wf lower st -> wf lower (snd (client_step lower write_fails clock w r st)).
Proof.
  apply (@respects_client_step (keeps_wf lower) keeps_wf_refl keeps_wf_trans
           keeps_wf_lock keeps_wf_advance keeps_wf_emit lower write_fails clock
           keeps_wf_drop keeps_wf_nick w r st).
Qed.

Lemma wf_client_open w st :
  dict_mem Nat.eq_dec w (clients st) = false ->
  wf lower st -> wf lower (snd (client_open write_fails clock w st)).
Proof.
  intros Hm Hwf. unfold client_open, bind at 1, modify.
  apply (@respects_guarded (keeps_wf lower) keeps_wf_refl keeps_wf_trans
           keeps_wf_lock keeps_wf_advance keeps_wf_emit write_fails clock
           keeps_wf_drop w).
  - apply (respects_bind keeps_wf_trans).
    + intros s. unfold keeps_wf. apply wf_send_line.
    + intros a s. apply keeps_wf_refl.
  - now apply wf_register.
Qed.

(** As long as no [disconnect] is overtaken between the reading of the
    nickname and the lock, the two dictionaries stay consistent. *)
Lemma atomic_run_wf st : atomic_run lower write_fails clock st -> wf lower st.
Proof.
  induction 1.
  - apply wf_init.
  - now apply wf_client_open.
  - now apply wf_client_step.
  - now apply wf_handle_command.
  - now apply wf_disconnect.
Qed.

Lemma atomic_run_run st :
  atomic_run lower write_fails clock st -> run lower write_fails clock [] st.
Proof.
  induction 1.
  - apply run_init.
  - now apply run_open.
  - now apply run_step.
  - now apply run_command.
  - now apply run_disconnect.
Qed.

Lemma atomic_run_reachable st :
  atomic_run lower write_fails clock st -> reachable lower write_fails clock st.
Proof. intros H. exists []. now apply atomic_run_run. Qed.

End Reachable.

(** ** [disconnect] and [broadcast] only remove, and always return *)

Section Termination.
Variable write_fails : nat -> conn -> bool.
Variable clock : nat -> str.

Lemma shrinks_refl st : shrinks st st.
Proof. constructor; auto. exists []. now rewrite app_nil_r. Qed.

Lemma shrinks_trans a b c : shrinks a b -> shrinks b c -> shrinks a c.
Proof.
  intros [A1 A2 A3 A5 [e1 A4]] [B1 B2 B3 B5 [e2 B4]]. constructor; auto.
  - lia.
  - exists (e1 ++ e2). now rewrite B4, A4, app_assoc.
Qed.

Lemma shrinks_lock b st : shrinks st (set_locked b st).
Proof. constructor; simpl; auto. exists []. now rewrite app_nil_r. Qed.

Lemma shrinks_advance st : shrinks st (advance st).
Proof. constructor; simpl; auto. exists []. now rewrite app_nil_r. Qed.

Lemma shrinks_emit e st : shrinks st (emit e st).
Proof. constructor; simpl; auto. now exists [e]. Qed.

Lemma nick_of_pop w d n c :
  nick_of d (set_clients (dict_pop Nat.eq_dec w (clients c)) c) = Some n ->
  nick_of d c = Some n.
Proof using.
  unfold nick_of; simpl. destruct (Nat.eq_dec d w) as [E|E].
  - subst. rewrite dict_get_pop_eq. discriminate.
  - now rewrite dict_get_pop_neq.
Qed.

Lemma shrinks_pop_client w st :
  shrinks st (set_clients (dict_pop Nat.eq_dec w (clients st)) st).
Proof using.
  constructor; simpl.
  - intros k H. apply dict_keys_pop in H. apply H.
  - intros n H. exact H.
  - apply dict_pop_length.
  - intros d n. apply nick_of_pop.
  - exists []. now rewrite app_nil_r.
Qed.

Lemma shrinks_pop_nick n st :
  shrinks st (set_nicks (dict_pop str_eq_dec n (nick_to_writer st)) st).
Proof using.
  constructor; simpl.
  - intros k H. exact H.
  - intros k H. apply dict_keys_pop in H. apply H.
  - apply le_n.
  - intros d m H. exact H.
  - exists []. now rewrite app_nil_r.
Qed.

Lemma shrinks_drop w st : shrinks st (drop_conn w st).
Proof using.
  unfold drop_conn.
  destruct (nick_of w st) as [n|]; [destruct (truthy_str n)|];
    try apply shrinks_pop_client.
  eapply shrinks_trans; [apply shrinks_pop_client|apply shrinks_pop_nick].
Qed.

Lemma shrinks_disconnect_fuel fuel w r st :
  shrinks st (snd (disconnect_fuel write_fails clock fuel w r st)).
Proof.
  apply (@respects_disconnect_fuel shrinks shrinks_refl shrinks_trans
           shrinks_lock shrinks_advance shrinks_emit write_fails clock
           shrinks_drop fuel w r st).
Qed.

Lemma shrinks_disconnect w r st :
  shrinks st (snd (disconnect write_fails clock w r st)).
Proof. apply shrinks_disconnect_fuel. Qed.

Lemma shrinks_broadcast text exclude st :
  shrinks st (snd (broadcast write_fails clock text exclude st)).
Proof.
  apply (@respects_broadcast shrinks shrinks_refl shrinks_trans
           shrinks_lock shrinks_advance shrinks_emit write_fails clock
           shrinks_drop text exclude st).
Qed.

Lemma drop_conn_length w n st :
  nick_of w st = Some n ->
  List.length (clients (drop_conn w st)) < List.length (clients st).
Proof.
  intros H. apply nick_of_some in H. apply dict_get_some_key in H.
  unfold drop_conn. destruct (nick_of w st) as [m|]; [destruct (truthy_str m)|];
    simpl; now apply dict_pop_length_lt.
Qed.

Lemma drop_conn_locked w st : locked (drop_conn w st) = locked st.
Proof.
  unfold drop_conn.
  destruct (nick_of w st) as [m|]; [destruct (truthy_str m)|]; reflexivity.
Qed.

(** A loop whose turns return and keep [J] returns and keeps [J]. *)
Lemma for_each_ok A (J : State -> Prop) (body : A -> M unit) l :
  (forall x st, J st -> exists st', body x st = (Ok tt, st') /\ J st') ->
  forall st, J st -> exists st', for_each l body st = (Ok tt, st') /\ J st'.
Proof.
  intros Hb. induction l as [|x t IH]; intros st HJ; simpl.
  - exists st. split; auto.
  - unfold bind. destruct (Hb x st HJ) as [st1 [E J1]]. rewrite E. now apply IH.
Qed.

(** Two loop bodies that agree wherever [J] holds give the same loop. *)
Lemma for_each_ext A (J : State -> Prop) (body1 body2 : A -> M unit) l :
  (forall x st, J st -> body1 x st = body2 x st) ->
  (forall x st, J st -> J (snd (body1 x st))) ->
  forall st, J st -> for_each l body1 st = for_each l body2 st.
Proof.
  intros He Hj. induction l as [|x t IH]; intros st HJ; simpl; auto.
  unfold bind. rewrite <- He by auto. specialize (Hj x st HJ).
  destruct (body1 x st) as [[[]|e| |] st1]; simpl in *; auto.
Qed.

Lemma disconnect_fuel_ok fuel :
  forall w r st,
    locked st = false -> List.length (clients st) < fuel ->
    exists st', disconnect_fuel write_fails clock fuel w r st = (Ok tt, st') /\
                locked st' = false.
Proof.
  induction fuel as [|f IH]; intros w r st L F; [lia|].
  rewrite disconnect_fuel_eq, L. cbv zeta.
  assert (locked (emit (Closed w) (drop_conn w st)) = false) as L1
      by (simpl; now rewrite drop_conn_locked).
  destruct (nick_of w st) as [n|] eqn:Hn; [destruct (truthy_str n)|]; eauto.
  rewrite broadcast_with_eq, L1. cbv zeta.
  pose proof (drop_conn_length _ _ Hn) as Hlen.
  destruct (@for_each_ok conn
              (fun s => locked s = false /\ List.length (clients s) < f)
              (fun w0 => disconnect_fuel write_fails clock f w0 (u "broken pipe"))
              (failures write_fails (S (tick (emit (Closed w) (drop_conn w st))))
                 (recipients [] (emit (Closed w) (drop_conn w st)))))
    with (st := after_delivery write_fails
                  (recipients [] (emit (Closed w) (drop_conn w st)))
                  (stamped (clock (tick (emit (Closed w) (drop_conn w st))))
                           (msg_left n r))
                  (advance (emit (Closed w) (drop_conn w st))))
    as [st' [E [L' _]]].
  - intros x s [Ls Fs]. destruct (IH x (u "broken pipe") s Ls Fs) as [s' [E L']].
    exists s'. repeat split; auto.
    pose proof (shrinks_disconnect_fuel f x (u "broken pipe") s) as Sh.
    rewrite E in Sh. apply sh_length in Sh. simpl in Sh. lia.
  - simpl. rewrite drop_conn_locked. split; auto. simpl in Hlen. lia.
  - exists st'. split; auto.
Qed.

Lemma disconnect_fuel_irrelevant f1 :
  forall f2 w r st,
    List.length (clients st) < f1 -> List.length (clients st) < f2 ->
    disconnect_fuel write_fails clock f1 w r st =
    disconnect_fuel write_fails clock f2 w r st.
Proof.
  induction f1 as [|f1 IH]; intros f2 w r st F1 F2; [lia|].
  destruct f2 as [|f2]; [lia|].
  rewrite !disconnect_fuel_eq. destruct (locked st); auto. cbv zeta.
  destruct (nick_of w st) as [n|] eqn:Hn; [destruct (truthy_str n)|]; auto.
  rewrite !broadcast_with_eq. destruct (locked _); auto. cbv zeta.
  pose proof (drop_conn_length _ _ Hn) as Hlen.
  apply for_each_ext
    with (J := fun s => List.length (clients s) < f1 /\ List.length (clients s) < f2).
  - intros x s [A B]. now apply IH.
  - intros x s [A B].
    pose proof (shrinks_disconnect_fuel f1 x (u "broken pipe") s) as Sh.
    apply sh_length in Sh. lia.
  - simpl. simpl in Hlen. lia.
Qed.

(** [disconnect], in terms of [broadcast]. *)
Lemma disconnect_eq w reason st :
  disconnect write_fails clock w reason st =
  if locked st then (Hung, st)
  else
    let st1 := emit (Closed w) (drop_conn w st) in
    match nick_of w st with
    | Some n =>
        if truthy_str n
        then broadcast write_fails clock (msg_left n reason) [] st1
        else (Ok tt, st1)
    | None => (Ok tt, st1)
    end.
Proof.
  unfold disconnect, enough_fuel. rewrite disconnect_fuel_eq.
  destruct (locked st); auto. cbv zeta.
  destruct (nick_of w st) as [n|] eqn:Hn; [destruct (truthy_str n)|]; auto.
  unfold broadcast, enough_fuel. rewrite !broadcast_with_eq.
  destruct (locked _); auto. cbv zeta.
  pose proof (drop_conn_length _ _ Hn) as Hlen.
  apply for_each_ext
    with (J := fun s => List.length (clients s) <= List.length (clients (drop_conn w st))).
  - intros x s A. apply disconnect_fuel_irrelevant; simpl; lia.
  - intros x s A.
    pose proof (shrinks_disconnect_fuel (List.length (clients st)) x (u "broken pipe") s) as Sh.
    apply sh_length in Sh. lia.
  - simpl. lia.
Qed.

(** [broadcast], in terms of [disconnect]. *)
Lemma broadcast_eq text exclude st :
  broadcast write_fails clock text exclude st =
  if locked st then (Hung, advance st)
  else
    let ws := recipients exclude st in
    for_each (failures write_fails (S (tick st)) ws)
             (fun w => disconnect write_fails clock w (u "broken pipe"))
             (after_delivery write_fails ws (stamped (clock (tick st)) text)
                             (advance st)).
Proof.
  unfold broadcast. rewrite broadcast_with_eq.
  destruct (locked st); auto. cbv zeta.
  apply for_each_ext
    with (J := fun s => List.length (clients s) <= List.length (clients st)).
  - intros x s A. unfold disconnect.
    apply disconnect_fuel_irrelevant; unfold enough_fuel; lia.
  - intros x s A.
    pose proof (shrinks_disconnect_fuel (enough_fuel st) x (u "broken pipe") s) as Sh.
    apply sh_length in Sh. lia.
  - simpl. lia.
Qed.

(** [disconnect] resumed with the nickname [name]. *)
Lemma disconnect_resume_eq name w reason st :
  disconnect_resume write_fails clock name w reason st =
  if locked st then (Hung, st)
  else
    let st1 := emit (Closed w) (drop_named name w st) in
    match name with
    | Some n =>
        if truthy_str n
        then broadcast write_fails clock (msg_left n reason) [] st1
        else (Ok tt, st1)
    | None => (Ok tt, st1)
    end.
Proof.
  unfold disconnect_resume. unfold bind at 1, with_lock.
  destruct (locked st) eqn:L; [reflexivity|].
  assert (forall s : State,
             (if dict_mem Nat.eq_dec w (clients s)
              then set_clients (dict_pop Nat.eq_dec w (clients s)) s
              else s) = set_clients (dict_pop Nat.eq_dec w (clients s)) s) as E.
  { intros s. destruct (dict_mem Nat.eq_dec w (clients s)) eqn:Hm; auto.
    rewrite dict_pop_absent.
    - destruct s; reflexivity.
    - intros I. apply dict_mem_true with (eq_dec := Nat.eq_dec) in I. congruence. }
  unfold bind at 1, modify at 1. rewrite E.
  unfold drop_named.
  destruct name as [n|]; [destruct (truthy_str n)|];
    unfold modify, ret, bind, close_writer, modify, set_locked, set_nicks,
      set_clients, emit; simpl; rewrite ?L; reflexivity.
Qed.

(** [disconnect] is the reading of the nickname followed, at once, by the
    rest. *)
Lemma disconnect_split w reason st :
  disconnect write_fails clock w reason st =
  disconnect_resume write_fails clock (nick_of w st) w reason st.
Proof. rewrite disconnect_eq, disconnect_resume_eq. reflexivity. Qed.

Lemma shrinks_drop_named name w st : shrinks st (drop_named name w st).
Proof.
  unfold drop_named.
  destruct name as [n|]; [destruct (truthy_str n)|]; cbv zeta;
    try apply shrinks_pop_client.
  eapply shrinks_trans; [apply shrinks_pop_client|apply shrinks_pop_nick].
Qed.

Lemma shrinks_disconnect_resume name w reason st :
  shrinks st (snd (disconnect_resume write_fails clock name w reason st)).
Proof.
  rewrite disconnect_resume_eq. destruct (locked st); [apply shrinks_refl|].
  cbv zeta.
  assert (shrinks st (emit (Closed w) (drop_named name w st))) as H.
  { eapply shrinks_trans; [apply shrinks_drop_named|apply shrinks_emit]. }
  destruct name as [n|]; [destruct (truthy_str n)|]; try exact H.
  eapply shrinks_trans; [exact H|apply shrinks_broadcast].
Qed.

(** [broadcast] is its critical section followed by the disconnection of
    the dead. *)
Lemma broadcast_locked_eq text exclude st :
  broadcast_locked write_fails clock text exclude st =
  if locked st then (Hung, advance st)
  else
    let ws := recipients exclude st in
    (Ok (failures write_fails (S (tick st)) ws),
     after_delivery write_fails ws (stamped (clock (tick st)) text) (advance st)).
Proof.
  unfold broadcast_locked, bind at 1, ts. unfold with_lock.
  simpl. destruct (locked st) eqn:L; [reflexivity|].
  unfold bind at 1, gets. rewrite broadcast_loop_eq. simpl.
  unfold recipients, after_delivery, set_locked, advance; simpl.
  rewrite L. reflexivity.
Qed.

Lemma broadcast_split text exclude st :
  broadcast write_fails clock text exclude st =
  (dead <- broadcast_locked write_fails clock text exclude ;;
   for_each dead (fun w => disconnect write_fails clock w (u "broken pipe"))) st.
Proof.
  rewrite broadcast_eq. unfold bind. rewrite broadcast_locked_eq.
  destruct (locked st); reflexivity.
Qed.

Lemma disconnect_ok w r st :
  locked st = false ->
  exists st', disconnect write_fails clock w r st = (Ok tt, st') /\ locked st' = false.
Proof.
  intros L. apply disconnect_fuel_ok; [assumption|unfold enough_fuel; lia].
Qed.

Lemma broadcast_ok text exclude st :
  locked st = false ->
  exists st', broadcast write_fails clock text exclude st = (Ok tt, st') /\
              locked st' = false.
Proof.
  intros L. rewrite broadcast_eq, L. cbv zeta.
  destruct (@for_each_ok conn (fun s => locked s = false)
              (fun w => disconnect write_fails clock w (u "broken pipe"))
              (failures write_fails (S (tick st)) (recipients exclude st)))
    with (st := after_delivery write_fails (recipients exclude st)
                  (stamped (clock (tick st)) text) (advance st))
    as [st' [E L']]; eauto.
  intros x s Ls. now apply disconnect_ok.
Qed.

Lemma send_line_ok w text st :
  locked st = false ->
  exists st', send_line write_fails clock w text st = (Ok tt, st') /\
              locked st' = false.
Proof.
  intros L. rewrite send_line_eq.
  destruct (write_fails (tick st) w); [now apply disconnect_ok|eauto].
Qed.

End Termination.

(** ** Parsing a command line *)

Section Parsing.

Lemma span_word_is_word s : is_word (fst (span_word s)) = true.
Proof.
  induction s as [|c t IH]; simpl; auto.
  destruct (isspace c) eqn:E; simpl; auto.
  destruct (span_word t) as [w r]; simpl in *. now rewrite E, IH.
Qed.

Lemma span_word_nonempty c t : isspace c = false -> fst (span_word (c :: t)) <> [].
Proof.
  intros E. simpl. rewrite E. destruct (span_word t); simpl. discriminate.
Qed.

Lemma lstrip_head s c t : lstrip s = c :: t -> isspace c = false.
Proof.
  induction s as [|d s IH]; simpl; [discriminate|].
  destruct (isspace d) eqn:E; auto. intros H. inversion H; subst. exact E.
Qed.

Lemma split_ws_head n s p rest :
  split_ws (S n) s = p :: rest ->
  is_word p = true /\ p <> [] /\ exists r, rest = split_ws n r.
Proof.
  change (split_ws (S n) s)
    with (match lstrip s with
          | [] => []
          | r => let (w, rest) := span_word r in w :: split_ws n rest
          end).
  destruct (lstrip s) as [|c t] eqn:E; [discriminate|].
  pose proof (span_word_is_word (c :: t)) as W.
  pose proof (@span_word_nonempty c t (lstrip_head _ E)) as Ne.
  destruct (span_word (c :: t)) as [w r]. intros H. inversion H; subst.
  simpl in W, Ne. eauto.
Qed.

(** The first argument of a command line is a non-empty word. *)
Lemma split_ws_arg line p0 a1 rest :
  split_ws 2 line = p0 :: a1 :: rest -> is_word a1 = true /\ a1 <> [].
Proof.
  intros H. apply split_ws_head in H. destruct H as [_ [_ [r H]]].
  symmetry in H. apply split_ws_head in H. ptauto.
Qed.

Lemma lstrip_word s : is_word s = true -> lstrip s = s.
Proof.
  destruct s as [|c t]; simpl; auto. intros H. apply andb_prop in H.
  destruct H as [H _]. now destruct (isspace c).
Qed.

Lemma rstrip_word s : is_word s = true -> rstrip_by isspace s = s.
Proof.
  induction s as [|c t IH]; simpl; auto. intros H. apply andb_prop in H.
  destruct H as [Hc Ht]. rewrite IH by auto.
  destruct t; auto. now destruct (isspace c).
Qed.

Lemma strip_word s : is_word s = true -> strip s = s.
Proof. intros H. unfold strip. now rewrite lstrip_word, rstrip_word. Qed.

(** A word holds no space: the test of [" " in newnick] never succeeds on the
    first argument of a command line. *)
Lemma word_no_space s : is_word s = true -> contains_char 32 s = false.
Proof.
  induction s as [|c t IH]; simpl; auto. intros H. apply andb_prop in H.
  destruct H as [Hc Ht]. rewrite IH by auto.
  destruct (N.eqb_spec c 32); auto. subst c. discriminate.
Qed.

(** A word followed by a space is found again by [span_word]; so two
    strings that start with a word and a space and are equal start with the
    same word. *)
Lemma span_word_app a r :
  is_word a = true -> span_word (a ++ 32%N :: r) = (a, 32%N :: r).
Proof.
  induction a as [|c t IH]; simpl; auto. intros H. apply andb_prop in H.
  destruct H as [Hc Ht]. destruct (isspace c); [discriminate|].
  now rewrite (IH Ht).
Qed.


End Parsing.

(** ** The [/nick] command *)

Section NickCommand.
Variable lower : str -> str.
Variable write_fails : nat -> conn -> bool.
Variable clock : nat -> str.

Lemma handle_command_nick w line p0 args st :
  split_ws 2 line = p0 :: args -> lower p0 = u "/nick" ->
  handle_command lower write_fails clock w line st =
  cmd_nick lower write_fails clock w args st.
Proof. intros P C. unfold handle_command. rewrite P. cbv zeta. rewrite C. reflexivity. Qed.

Lemma unlock_after_lock st :
  locked st = false -> set_locked false (set_locked true st) = st.
Proof. destruct st; simpl; intros ->; reflexivity. Qed.

(** The name is taken: one write of the rejection, nothing else.  If that
    write raises, [send_line] calls [disconnect], which waits for the lock
    its own caller holds. *)
Lemma cmd_nick_taken w a1 rest st :
  is_word a1 = true -> a1 <> [] -> locked st = false ->
  name_taken lower a1 (nick_to_writer st) = true ->
  cmd_nick lower write_fails clock w (a1 :: rest) st =
  if write_fails (tick st) w
  then (Hung, set_locked true (emit (SendFailed w msg_nick_in_use) (advance st)))
  else (Ok tt, emit (Sent w msg_nick_in_use) (advance st)).
Proof.
  intros W Ne L Tk. unfold cmd_nick.
  rewrite (strip_word _ W), (word_no_space _ W).
  apply truthy_str_true in Ne. rewrite Ne. cbn [negb].
  unfold bind at 1, with_lock. rewrite L.
  unfold bind at 1, gets at 1. cbn [nick_to_writer set_locked].
  rewrite Tk. unfold bind at 1. rewrite send_line_eq. cbn [tick set_locked].
  destruct (write_fails (tick st) w).
  - rewrite disconnect_eq. destruct st; reflexivity.
  - unfold ret. destruct st; simpl in *; subst; reflexivity.
Qed.

(** The name is free: the critical section installs it, then the change is
    announced. *)
Lemma cmd_nick_free w a1 rest st :
  is_word a1 = true -> a1 <> [] -> locked st = false ->
  name_taken lower a1 (nick_to_writer st) = false ->
  cmd_nick lower write_fails clock w (a1 :: rest) st =
  announce_nick write_fails clock w (nick_of w st) a1 (install_nick w a1 st).
Proof.
  intros W Ne L Tk. unfold cmd_nick.
  rewrite (strip_word _ W), (word_no_space _ W).
  apply truthy_str_true in Ne. rewrite Ne. cbn [negb].
  unfold bind at 1, with_lock. rewrite L.
  unfold bind at 1, gets at 1. cbn [nick_to_writer set_locked].
  rewrite Tk. unfold install_nick, announce_nick, bind, clients_get, gets, modify, ret.
  fold (nick_of w (set_locked true st)).
  replace (nick_of w (set_locked true st)) with (nick_of w st) by reflexivity.
  destruct (nick_of w st) as [o|]; [destruct (truthy_str o) eqn:To|];
    cbn -[broadcast send_line msg_renamed msg_nick_ok msg_joined];
    rewrite ?To; destruct st; simpl in L; subst; reflexivity.
Qed.

(** C2 -- a [/nick] whose name collides, up to letter case, with a nickname
    in the directory: the only socket activity is one write of
    "Nickname already in use. Try another." to the issuer; the registry and
    the directory are unchanged, so the issuer keeps the nickname it had, or
    none; the connection is not closed; and when the write goes through the
    command returns normally. *)
Theorem nick_collision_rejected w line p0 name rest st :
  split_ws 2 line = p0 :: name :: rest ->
  lower p0 = u "/nick" ->
  (exists n, In n (dict_keys (nick_to_writer st)) /\ lower name = lower n) ->
  locked st = false ->
  let res := handle_command lower write_fails clock w line st in
  clients (snd res) = clients st /\
  nick_to_writer (snd res) = nick_to_writer st /\
  nick_of w (snd res) = nick_of w st /\
  out (snd res) =
    out st ++ [if write_fails (tick st) w
               then SendFailed w msg_nick_in_use
               else Sent w msg_nick_in_use] /\
  (forall c, ~ In (Closed c) (out st) -> ~ In (Closed c) (out (snd res))) /\
  (write_fails (tick st) w = false ->
   res = (Ok tt, emit (Sent w msg_nick_in_use) (advance st))).
Proof.
  intros P C Col L res. subst res.
  destruct (split_ws_arg _ P) as [W Ne].
  rewrite (handle_command_nick _ _ _ P C).
  rewrite cmd_nick_taken by (auto; now apply name_taken_true).
  destruct (write_fails (tick st) w); cbn [snd]; unfold nick_of; simpl;
    repeat split; auto; try discriminate;
    intros c H I; apply in_app_or in I; destruct I as [I|[I|[]]];
      auto; discriminate.
Qed.


End NickCommand.

(** ** Sequences of operations *)

Section Sequences.
Variable lower : str -> str.
Variable write_fails : nat -> conn -> bool.
Variable clock : nat -> str.

(** In every state of a run whose coroutines are not interleaved, the
    directory never maps two distinct connections to nicknames equal up to
    letter case, and a connection has a nickname in the registry exactly
    when a directory entry points to it; that entry is the one under the
    nickname.  (With a [disconnect] overtaken at its lock the second part
    fails: see [stale_nickname_orphans_directory_entry].) *)
Lemma atomic_runs_consistent st :
  atomic_run lower write_fails clock st ->
  (forall n1 n2 w1 w2,
      dict_get str_eq_dec n1 (nick_to_writer st) = Some w1 ->
      dict_get str_eq_dec n2 (nick_to_writer st) = Some w2 ->
      lower n1 = lower n2 -> w1 = w2) /\
  (forall w, nick_of w st <> None <->
             exists n, dict_get str_eq_dec n (nick_to_writer st) = Some w) /\
  (forall w n, nick_of w st = Some n <->
               dict_get str_eq_dec n (nick_to_writer st) = Some w).
Proof.
  intros Hr. apply atomic_run_wf in Hr. destruct Hr as [ND1 ND2 L NE U].
  assert (forall w n, nick_of w st = Some n <->
                      dict_get str_eq_dec n (nick_to_writer st) = Some w) as Hl.
  { intros w n. rewrite nick_of_some. symmetry. apply L. }
  repeat split.
  - intros n1 n2 w1 w2 H1 H2 E.
    assert (n1 = n2) by (apply U; eauto using dict_get_some_key).
    congruence.
  - intros H. destruct (nick_of w st) as [n|] eqn:E; [|congruence].
    exists n. now apply Hl.
  - intros [n H] E. apply Hl in H. congruence.
  - apply Hl.
  - apply Hl.
Qed.

End Sequences.

(** ** Broadcast *)

Section Broadcast.
Variable write_fails : nat -> conn -> bool.
Variable clock : nat -> str.

Lemma recipients_spec exclude st w :
  In w (recipients exclude st) <->
  In w (dict_keys (clients st)) /\ ~ In w exclude.
Proof.
  unfold recipients. rewrite filter_In.
  assert (existsb (Nat.eqb w) exclude = true <-> In w exclude) as E.
  { rewrite existsb_exists. split.
    - intros [x [I H]]. apply Nat.eqb_eq in H. now subst.
    - intros I. exists w. split; auto. apply Nat.eqb_refl. }
  destruct (existsb (Nat.eqb w) exclude); simpl.
  - split; [intros [_ H]; discriminate|]. intros [_ H]. exfalso. apply H. now apply E.
  - split; intros [H _]; split; auto. intros I. apply E in I. discriminate.
Qed.

Lemma deliveries_each t ws line w :
  In w ws ->
  In (Sent w line) (deliveries write_fails t ws line) \/
  In (SendFailed w line) (deliveries write_fails t ws line).
Proof.
  revert t. induction ws as [|x rest IH]; intros t; simpl; [ptauto|].
  intros [E|I].
  - subst x. destruct (write_fails t w); auto.
  - destruct (IH (S t) I); auto.
Qed.

Lemma failures_spec t ws line w :
  In w (failures write_fails t ws) <->
  In (SendFailed w line) (deliveries write_fails t ws line).
Proof.
  revert t. induction ws as [|x rest IH]; intros t; simpl; [ptauto|].
  destruct (write_fails t x); simpl; rewrite IH; split.
  - intros [E|I]; [left; congruence|auto].
  - intros [E|I]; [left; congruence|auto].
  - auto.
  - intros [E|I]; [discriminate|auto].
Qed.

Lemma gone_shrinks w a b : shrinks a b -> gone w a -> gone w b.
Proof.
  intros [S1 _ _ _ [evs S4]] [G1 G2]. split.
  - intros I. apply G1. now apply S1.
  - rewrite S4. apply in_or_app. now left.
Qed.

Lemma disconnect_gone w r st :
  locked st = false -> gone w (snd (disconnect write_fails clock w r st)).
Proof.
  intros L. rewrite disconnect_eq, L. cbv zeta.
  assert (gone w (emit (Closed w) (drop_conn w st))) as G.
  { split; simpl.
    - unfold drop_conn.
      destruct (nick_of w st) as [n|]; [destruct (truthy_str n)|]; simpl;
        rewrite dict_keys_pop; ptauto.
    - apply in_or_app. right. now left. }
  destruct (nick_of w st) as [n|]; [destruct (truthy_str n)|]; auto.
  eapply gone_shrinks; [apply shrinks_broadcast|exact G].
Qed.

(** Reaping the dead: each is gone afterwards, and the loop returns. *)
Lemma reap_all dead st :
  locked st = false ->
  let res := for_each dead
               (fun w => disconnect write_fails clock w (u "broken pipe")) st in
  fst res = Ok tt /\ locked (snd res) = false /\
  shrinks st (snd res) /\
  forall w, In w dead -> gone w (snd res).
Proof.
  revert st. induction dead as [|d rest IH]; intros st L; simpl.
  - split; [reflexivity|]. split; [assumption|].
    split; [apply shrinks_refl|]. intros w [].
  - unfold bind.
    destruct (disconnect_ok write_fails clock d (u "broken pipe") st L) as [st1 [E L1]].
    pose proof (disconnect_gone d (u "broken pipe") st L) as G.
    pose proof (shrinks_disconnect write_fails clock d (u "broken pipe") st) as Sh.
    rewrite E in *. simpl in G, Sh.
    destruct (IH st1 L1) as [A [B [C D]]].
    split; [exact A|]. split; [exact B|].
    split; [eapply shrinks_trans; eauto|].
    intros w [<-|I]; [|now apply D]. eapply gone_shrinks; eauto.
Qed.

(** C4 -- [broadcast] attempts one write of the line "[HH:MM] text", ended
    by a line feed, to every
    registered connection outside [exclude]; the connections whose write
    raised are exactly the ones collected, and each of them is then
    disconnected with reason "broken pipe" (it ends out of the registry,
    its stream closed); the call returns normally: no failure of a write
    is raised to the caller. *)
Theorem broadcast_delivers_and_reaps text exclude st :
  locked st = false ->
  let line := u "[" ++ clock (tick st) ++ u "] " ++ text ++ nl in
  let ws := recipients exclude st in
  let attempts := deliveries write_fails (S (tick st)) ws line in
  let dead := failures write_fails (S (tick st)) ws in
  let sent := after_delivery write_fails ws line (advance st) in
  let res := broadcast write_fails clock text exclude st in
  (forall w, In w ws <-> In w (dict_keys (clients st)) /\ ~ In w exclude) /\
  (forall w, In w ws -> In (Sent w line) attempts \/ In (SendFailed w line) attempts) /\
  (forall w, In w dead <-> In (SendFailed w line) attempts) /\
  out sent = out st ++ attempts /\
  same_dicts st sent /\
  res = for_each dead
          (fun w => disconnect write_fails clock w (u "broken pipe")) sent /\
  fst res = Ok tt /\
  (exists more, out (snd res) = out st ++ attempts ++ more) /\
  (forall w, In w dead -> gone w (snd res)).
Proof.
  intros L line ws attempts dead sent res.
  assert (res = for_each dead
                  (fun w => disconnect write_fails clock w (u "broken pipe")) sent)
    as E by (subst res; rewrite broadcast_eq, L; reflexivity).
  assert (locked sent = false) as Ls by exact L.
  destruct (reap_all dead sent Ls) as [A [B [C D]]]. rewrite <- E in A, B, C, D.
  split; [intros w; apply recipients_spec|].
  split; [intros w; apply deliveries_each|].
  split; [intros w; apply failures_spec|].
  split; [reflexivity|].
  split; [split; reflexivity|].
  split; [exact E|].
  split; [exact A|].
  split; [|exact D].
  destruct (sh_out C) as [more Hm]. exists more.
  rewrite Hm. subst sent. simpl. now rewrite app_assoc.
Qed.

(** A write that fails never surfaces as an exception, whatever the lock. *)
Lemma broadcast_never_raises text exclude st e :
  fst (broadcast write_fails clock text exclude st) <> Raised e.
Proof.
  destruct (locked st) eqn:L.
  - rewrite broadcast_eq, L. discriminate.
  - destruct (broadcast_ok write_fails clock text exclude st L) as [st' [E _]].
    rewrite E. discriminate.
Qed.

End Broadcast.

(** ** Disconnecting twice *)

Section Idempotence.
Variable write_fails : nat -> conn -> bool.
Variable clock : nat -> str.

(** C8 -- disconnecting a connection again, after a first [disconnect] has
    run, changes neither dictionary and writes to nobody: it returns at
    once, its only act being a second [close] of the same stream.  The same
    holds for a second [/quit]. *)
Theorem disconnect_idempotent (lower : str -> str) w r1 r2 line p0 args st :
  locked st = false ->
  split_ws 2 line = p0 :: args ->
  lower p0 = u "/quit" ->
  let st1 := snd (disconnect write_fails clock w r1 st) in
  disconnect write_fails clock w r2 st1 = (Ok tt, emit (Closed w) st1) /\
  handle_command lower write_fails clock w line st1 = (Ok tt, emit (Closed w) st1) /\
  handle_command lower write_fails clock w line st =
    disconnect write_fails clock w (u "quit") st.
Proof.
  intros L P C st1.
  assert (forall s, handle_command lower write_fails clock w line s =
                    disconnect write_fails clock w (u "quit") s) as Hq.
  { intros s. unfold handle_command. rewrite P. cbv zeta. rewrite C. reflexivity. }
  assert (forall r, disconnect write_fails clock w r st1 = (Ok tt, emit (Closed w) st1))
    as Hd.
  { intros r. subst st1.
    destruct (disconnect_ok write_fails clock w r1 st L) as [s1 [E L1]].
    pose proof (disconnect_gone write_fails clock w r1 st L) as [G _].
    rewrite E in *. cbn [snd] in *.
    rewrite disconnect_eq, L1. cbv zeta.
    assert (dict_get Nat.eq_dec w (clients s1) = None) as Hg
        by now apply dict_get_none.
    unfold nick_of, drop_conn, nick_of. rewrite Hg.
    rewrite dict_pop_absent by exact G.
    destruct s1; reflexivity. }
  split; [apply Hd|]. split; [rewrite Hq; apply Hd|apply Hq].
Qed.

End Idempotence.

(** ** The [/list] command *)

Section ListCommand.
Variable lower : str -> str.
Variable write_fails : nat -> conn -> bool.
Variable clock : nat -> str.

Lemma str_leb_total a b : str_leb a b = false -> str_leb b a = true.
Proof.
  revert b. induction a as [|x a IH]; intros [|y b]; simpl; try discriminate; auto.
  destruct (N.ltb_spec x y); [discriminate|].
  destruct (N.ltb_spec y x); [reflexivity|]. apply IH.
Qed.

Lemma str_leb_trans a b c :
  str_leb a b = true -> str_leb b c = true -> str_leb a c = true.
Proof.
  revert b c. induction a as [|x a IH]; intros [|y b] [|z c]; simpl;
    try discriminate; auto.
  destruct (N.ltb_spec x y), (N.ltb_spec y z), (N.ltb_spec x z);
    try reflexivity; try lia;
    destruct (N.ltb_spec y x), (N.ltb_spec z y), (N.ltb_spec z x);
    try discriminate; try lia; auto.
  apply IH.
Qed.

Lemma insert_by_perm x l : Permutation (insert_by lower x l) (x :: l).
Proof.
  induction l as [|y t IH]; simpl; auto.
  destruct (str_leb (lower x) (lower y)); auto.
  eapply Permutation_trans; [apply perm_skip, IH|apply perm_swap].
Qed.

Lemma sort_by_perm l : Permutation (sort_by lower l) l.
Proof.
  induction l as [|x t IH]; simpl; auto.
  eapply Permutation_trans; [apply insert_by_perm|now apply perm_skip].
Qed.

Lemma insert_by_sorted x l :
  StronglySorted (lower_le lower) l ->
  StronglySorted (lower_le lower) (insert_by lower x l).
Proof.
  induction 1 as [|y t St IH Fa]; simpl.
  - repeat constructor.
  - destruct (str_leb (lower x) (lower y)) eqn:E.
    + constructor; [now constructor|]. constructor; [exact E|].
      eapply Forall_impl; [|exact Fa]. intros z Hz.
      unfold lower_le in *. eapply str_leb_trans; eauto.
    + constructor; auto.
      apply (Permutation_Forall (Permutation_sym (insert_by_perm x t))).
      constructor; auto. now apply str_leb_total.
Qed.

Lemma sort_by_sorted l : StronglySorted (lower_le lower) (sort_by lower l).
Proof.
  induction l as [|x t IH]; simpl; [constructor|now apply insert_by_sorted].
Qed.

Lemma nodup_keys_filter (p : conn * option str -> bool) c :
  NoDup (dict_keys c) -> NoDup (dict_keys (filter p c)).
Proof.
  induction c as [|e t IH]; simpl; auto. intros ND. inversion ND; subst.
  destruct (p e); simpl; auto. constructor; auto.
  intros I. apply H1. unfold dict_keys in *. apply in_map_iff in I.
  destruct I as [e' [E I]]. apply filter_In in I. rewrite <- E.
  apply in_map. ptauto.
Qed.

(** As many directory entries as registry entries with a nickname. *)
Lemma directory_size st :
  wf lower st ->
  List.length (dict_keys (nick_to_writer st)) = named_count (clients st).
Proof.
  intros [ND1 ND2 L NE U]. unfold named_count, dict_keys. rewrite length_map.
  set (l1 := map (fun e : str * conn => (snd e, fst e)) (nick_to_writer st)).
  set (l2 := map (fun e : conn * option str =>
                    (fst e, match snd e with Some n => n | None => [] end))
                 (filter has_nick (clients st))).
  assert (Permutation l1 l2) as HP.
  { apply NoDup_Permutation.
    - apply (NoDup_map_inv snd). subst l1. rewrite map_map. simpl. exact ND2.
    - apply (NoDup_map_inv fst). subst l2. rewrite map_map. simpl.
      now apply nodup_keys_filter.
    - intros [w n]. subst l1 l2. rewrite !in_map_iff. split.
      + intros [[n' w'] [E I]]. simpl in E. inversion E; subst.
        apply in_dict_get with (eq_dec := str_eq_dec) in I; auto.
        apply L in I. apply dict_get_in in I.
        exists (w, Some n). split; auto. apply filter_In. split; auto.
      + intros [[w' o] [E I]]. apply filter_In in I. destruct I as [I Hn].
        destruct o as [n'|]; [|discriminate]. simpl in E. inversion E; subst.
        apply in_dict_get with (eq_dec := Nat.eq_dec) in I; auto.
        apply L in I. apply dict_get_in in I.
        exists (n, w). split; auto. }
  apply Permutation_length in HP. subst l1 l2. now rewrite !length_map in HP.
Qed.

(** In a state whose dictionaries agree, [/list] replies with
    "Users (k): a, b, ..." where the names are all the nicknames of the
    directory, ordered by their lower-case form and joined by ", ", and
    [k], their number, is the number of connections whose registry nickname
    is not [None].  (The count is the size of the directory; after a
    [disconnect] overtaken at its lock the two numbers differ: see
    [list_counts_orphaned_nickname].) *)
Lemma list_reply_sorted_and_counted w line p0 args st :
  wf lower st ->
  split_ws 2 line = p0 :: args ->
  lower p0 = u "/list" ->
  let users := list_users lower (nick_to_writer st) in
  handle_command lower write_fails clock w line st =
    send_line write_fails clock w
      (u "Users (" ++ str_of_nat (named_count (clients st)) ++ u "): " ++
       join (u ", ") users ++ nl) st /\
  Permutation users (dict_keys (nick_to_writer st)) /\
  StronglySorted (lower_le lower) users /\
  List.length users = named_count (clients st).
Proof.
  intros Hwf P C users.
  assert (List.length users = named_count (clients st)) as Hc.
  { subst users. unfold list_users.
    rewrite (Permutation_length (sort_by_perm _)). now apply directory_size. }
  split; [|split; [apply sort_by_perm|split; [apply sort_by_sorted|exact Hc]]].
  unfold handle_command. rewrite P. cbv zeta. rewrite C.
  change (str_eqb (u "/list") (u "/help")) with false.
  change (str_eqb (u "/list") (u "/quit")) with false.
  change (str_eqb (u "/list") (u "/nick")) with false.
  change (str_eqb (u "/list") (u "/list")) with true. cbv iota.
  unfold cmd_list, bind, gets. fold users. unfold msg_users. now rewrite Hc.
Qed.

End ListCommand.

(** ** The [/msg] command *)

Section MsgCommand.
Variable lower : str -> str.
Variable write_fails : nat -> conn -> bool.
Variable clock : nat -> str.

Lemma handle_command_msg w line p0 args st :
  split_ws 2 line = p0 :: args -> lower p0 = u "/msg" ->
  handle_command lower write_fails clock w line st =
  cmd_msg write_fails clock w args st.
Proof. intros P C. unfold handle_command. rewrite P. cbv zeta. rewrite C. reflexivity. Qed.

(** What a reply sent with [send_line] leaves in the output. *)
Lemma send_line_out w text st :
  exists more,
    out (snd (send_line write_fails clock w text st)) =
    out st ++ [if write_fails (tick st) w then SendFailed w text else Sent w text]
           ++ more.
Proof.
  rewrite send_line_eq. destruct (write_fails (tick st) w).
  - destruct (sh_out (shrinks_disconnect write_fails clock w (u "send failed")
                        (emit (SendFailed w text) (advance st)))) as [more E].
    exists more. rewrite E. simpl. now rewrite <- app_assoc.
  - exists []. reflexivity.
Qed.

(** C6, amended -- a sender with a nickname sends [/msg] to a name the
    directory lacks: the command is one [send_line] of the "not found"
    reply.  If that write goes through, both dictionaries are unchanged and
    nothing else is written; if it raises, the sender is disconnected with
    reason "send failed" and ends out of the registry. *)
Theorem msg_unknown_target w line p0 target text rest sender st :
  split_ws 2 line = p0 :: target :: text :: rest ->
  lower p0 = u "/msg" ->
  nick_of w st = Some sender ->
  truthy_str sender = true ->
  dict_get str_eq_dec target (nick_to_writer st) = None ->
  locked st = false ->
  let res := handle_command lower write_fails clock w line st in
  let reply := msg_not_found target in
  res = send_line write_fails clock w reply st /\
  fst res = Ok tt /\
  (write_fails (tick st) w = false ->
   res = (Ok tt, emit (Sent w reply) (advance st)) /\
   clients (snd res) = clients st /\
   nick_to_writer (snd res) = nick_to_writer st /\
   out (snd res) = out st ++ [Sent w reply]) /\
  (write_fails (tick st) w = true ->
   res = disconnect write_fails clock w (u "send failed")
                    (emit (SendFailed w reply) (advance st)) /\
   gone w (snd res)) /\
  (exists more,
      out (snd res) =
      out st ++ [if write_fails (tick st) w then SendFailed w reply else Sent w reply]
             ++ more).
Proof.
  intros P C Hs T Hn L res reply.
  assert (res = send_line write_fails clock w reply st) as E.
  { subst res. rewrite (handle_command_msg _ _ _ P C). unfold cmd_msg.
    unfold bind at 1, clients_get, gets. fold (nick_of w st). rewrite Hs, T.
    unfold bind at 1, with_lock. rewrite L.
    cbn [nick_to_writer set_locked]. rewrite Hn.
    now rewrite (unlock_after_lock _ L). }
  split; [exact E|]. rewrite E. split; [|split; [|split]].
  - destruct (send_line_ok write_fails clock w reply st L) as [st' [Eo _]].
    now rewrite Eo.
  - intros F. rewrite send_line_eq, F. auto.
  - intros F. rewrite send_line_eq, F. split; auto.
    apply disconnect_gone. exact L.
  - apply send_line_out.
Qed.

End MsgCommand.

(** ** Decoding a received line *)

Section Decoding.

Lemma decode_with_cons pol b t :
  decode_with pol (b :: t) =
  match decode_step (b :: t) with
  | Some (c, rest) => option_map (cons c) (decode_with pol rest)
  | None =>
      match pol with
      | Strict => None
      | Ignore => decode_with pol t
      | Replace => option_map (cons replacement_char) (decode_with pol t)
      end
  end.
Proof.
  cbn [decode_with decode_step].
  destruct (b <? 128)%N; [reflexivity|].
  destruct t as [|b1 t1]; [reflexivity|].
  destruct (ok2 b b1); [reflexivity|].
  destruct t1 as [|b2 t2]; [reflexivity|].
  destruct (ok3 b b1 b2); [reflexivity|].
  destruct t2 as [|b3 t3]; [reflexivity|].
  destruct (ok4 b b1 b2 b3); reflexivity.
Qed.

Lemma decode_step_shorter bs c rest :
  decode_step bs = Some (c, rest) -> List.length rest < List.length bs.
Proof.
  destruct bs as [|b0 [|b1 [|b2 [|b3 t]]]]; simpl;
    repeat match goal with
           | |- context [if ?b then _ else _] => destruct b
           end;
    intros H; inversion H; subst; simpl; lia.
Qed.

Lemma decode_ignore_defined n :
  forall bs, List.length bs <= n -> exists s, decode_with Ignore bs = Some s.
Proof.
  induction n as [|n IH]; intros [|b t] Hl; simpl in Hl; try lia;
    try (exists []; reflexivity).
  rewrite decode_with_cons.
  destruct (decode_step (b :: t)) as [[c rest]|] eqn:E.
  - apply decode_step_shorter in E. simpl in E.
    destruct (IH rest) as [s Hs]; [lia|]. rewrite Hs. simpl. eauto.
  - apply IH. lia.
Qed.

Lemma decode_strict_agrees n :
  forall bs s, List.length bs <= n ->
               decode_with Strict bs = Some s -> decode_with Ignore bs = Some s.
Proof.
  induction n as [|n IH]; intros [|b t] s Hl; simpl in Hl; try lia; auto.
  rewrite !decode_with_cons.
  destruct (decode_step (b :: t)) as [[c rest]|] eqn:E; [|discriminate].
  apply decode_step_shorter in E. simpl in E.
  destruct (decode_with Strict rest) as [s'|] eqn:D; [|discriminate].
  rewrite (IH rest s'); auto. lia.
Qed.

Lemma decode_step_app pre c r rest :
  decode_step pre = Some (c, r) -> decode_step (pre ++ rest) = Some (c, r ++ rest).
Proof.
  destruct pre as [|b0 [|b1 [|b2 [|b3 t]]]]; simpl;
    repeat match goal with
           | |- context [if ?b then _ else _] => destruct b
           end;
    intros H; inversion H; subst; reflexivity.
Qed.

(** Bytes that follow a well-formed prefix are decoded on their own. *)
Lemma decode_ignore_after_prefix n :
  forall pre s rest,
    List.length pre <= n ->
    decode_with Strict pre = Some s ->
    decode_ignore (pre ++ rest) = s ++ decode_ignore rest.
Proof.
  induction n as [|n IH]; intros [|b t] s rest Hl; simpl in Hl; try lia;
    try (simpl; intros H; inversion H; reflexivity).
  rewrite decode_with_cons.
  destruct (decode_step (b :: t)) as [[c r]|] eqn:E; [|discriminate].
  destruct (decode_with Strict r) as [s'|] eqn:D; [|discriminate].
  simpl. intros H. inversion H; subst.
  pose proof (decode_step_shorter _ E) as Hs. simpl in Hs.
  assert (List.length r <= n) as Hr by lia.
  pose proof (IH r s' rest Hr D) as IHr.
  unfold decode_ignore in *.
  change ((b :: t) ++ rest) with (b :: (t ++ rest)).
  rewrite decode_with_cons.
  change (b :: (t ++ rest)) with ((b :: t) ++ rest).
  rewrite (decode_step_app _ rest E).
  destruct (@decode_ignore_defined (List.length (r ++ rest)) (r ++ rest) (le_n _))
    as [x Hx].
  rewrite Hx in *. simpl. now rewrite IHr.
Qed.

(** C9, amended -- decoding a received line never raises; a byte that
    starts no well-formed UTF-8 sequence is dropped (not replaced), so the
    line is handled as if the byte had not been sent; well-formed input
    decodes to itself. *)
Theorem decode_drops_invalid_bytes
        (lower : str -> str) (write_fails : nat -> conn -> bool)
        (clock : nat -> str) (w : conn) (b : N) (bs : bytes) :
  well_formed_at (b :: bs) = false ->
  bs <> [] ->
  decode_with Ignore (b :: bs) = Some (decode_ignore (b :: bs)) /\
  decode_ignore (b :: bs) = decode_ignore bs /\
  (forall s, decode_with Strict bs = Some s -> decode_ignore (b :: bs) = s) /\
  (forall pre s, decode_with Strict pre = Some s ->
                 decode_ignore (pre ++ b :: bs) = s ++ decode_ignore bs) /\
  client_step lower write_fails clock w (Data (b :: bs)) =
  client_step lower write_fails clock w (Data bs).
Proof.
  intros Wf Ne.
  assert (decode_ignore (b :: bs) = decode_ignore bs) as E.
  { unfold decode_ignore. rewrite decode_with_cons.
    unfold well_formed_at in Wf. now destruct (decode_step (b :: bs)). }
  split; [|split; [exact E|split; [|split]]].
  - unfold decode_ignore.
    destruct (@decode_ignore_defined (List.length (b :: bs)) (b :: bs) (le_n _))
      as [s Hs].
    now rewrite Hs.
  - intros s Hs. rewrite E. unfold decode_ignore.
    now rewrite (@decode_strict_agrees (List.length bs) bs s (le_n _) Hs).
  - intros pre s Hs.
    rewrite (@decode_ignore_after_prefix (List.length pre) pre s (b :: bs) (le_n _) Hs).
    now rewrite E.
  - unfold client_step. rewrite E. destruct bs; [congruence|reflexivity].
Qed.

End Decoding.

(** ** Disconnecting a connection that has a nickname *)

Section Departure.
Variable lower : str -> str.
Variable write_fails : nat -> conn -> bool.
Variable clock : nat -> str.









Lemma install_nick_frame c N st :
  tick (install_nick c N st) = tick st /\
  locked (install_nick c N st) = locked st /\
  out (install_nick c N st) = out st.
Proof.
  unfold install_nick.
  destruct (nick_of c st) as [o|]; [destruct (truthy_str o)|]; simpl; auto.
Qed.

Lemma recipients_nil st : recipients [] st = dict_keys (clients st).
Proof.
  unfold recipients. induction (dict_keys (clients st)) as [|x t IH]; simpl; auto.
  f_equal. exact IH.
Qed.

Lemma drop_conn_named w N st :
  nick_of w st = Some N -> N <> [] ->
  drop_conn w st =
  mkState (dict_pop Nat.eq_dec w (clients st))
          (dict_pop str_eq_dec N (nick_to_writer st))
          (locked st) (tick st) (out st).
Proof.
  intros H Ne. unfold drop_conn. rewrite H.
  apply truthy_str_true in Ne. now rewrite Ne.
Qed.

Lemma quiet_from_le t t' :
  t <= t' -> quiet_from write_fails t -> quiet_from write_fails t'.
Proof. intros H Q k x Hk. apply Q. lia. Qed.

Lemma failures_quiet t ws : quiet_from write_fails t -> failures write_fails t ws = [].
Proof.
  revert t. induction ws as [|x rest IH]; intros t Q; simpl; auto.
  rewrite (Q t x (le_n t)). apply IH. apply (quiet_from_le (Nat.le_succ_diag_r t) Q).
Qed.

Lemma send_line_quiet x text st :
  quiet_from write_fails (tick st) ->
  send_line write_fails clock x text st = (Ok tt, emit (Sent x text) (advance st)).
Proof. intros Q. rewrite send_line_eq. now rewrite (Q (tick st) x (le_n _)). Qed.

Lemma broadcast_quiet text exclude st :
  quiet_from write_fails (tick st) -> locked st = false ->
  broadcast write_fails clock text exclude st =
  (Ok tt, after_delivery write_fails (recipients exclude st)
                         (stamped (clock (tick st)) text) (advance st)).
Proof.
  intros Q L. rewrite broadcast_eq, L. cbv zeta.
  rewrite failures_quiet; [reflexivity|].
  apply (quiet_from_le (Nat.le_succ_diag_r (tick st)) Q).
Qed.





End Departure.

(** ** The recursion budget is never exhausted *)

Section Totality.
Variable lower : str -> str.
Variable write_fails : nat -> conn -> bool.
Variable clock : nat -> str.

Lemma fueled_ret A (a : A) : fueled (ret a).
Proof. intros st. discriminate. Qed.

Lemma fueled_gets A (f : State -> A) : fueled (gets f).
Proof. intros st. discriminate. Qed.

Lemma fueled_modify f : fueled (modify f).
Proof. intros st. discriminate. Qed.

Lemma fueled_raise A e : fueled (@raise A e).
Proof. intros st. discriminate. Qed.

Lemma fueled_bind A B (m : M A) (k : A -> M B) :
  fueled m -> (forall a, fueled (k a)) -> fueled (bind m k).
Proof.
  intros Hm Hk st. unfold bind. specialize (Hm st).
  destruct (m st) as [[a|e| |] st']; simpl in *;
    [apply Hk|discriminate|discriminate|congruence].
Qed.

Lemma fueled_try A (m h : M A) : fueled m -> fueled h -> fueled (try_except m h).
Proof.
  intros Hm Hh st. unfold try_except. specialize (Hm st).
  destruct (m st) as [[a|e| |] st']; simpl in *;
    [discriminate|apply Hh|discriminate|congruence].
Qed.

Lemma fueled_with_lock A (m : M A) : fueled m -> fueled (with_lock m).
Proof.
  intros Hm st. unfold with_lock. destruct (locked st); [discriminate|].
  specialize (Hm (set_locked true st)).
  destruct (m (set_locked true st)) as [[a|e| |] st']; simpl in *;
    try discriminate; auto.
Qed.

Lemma fueled_write_drain w text : fueled (write_drain write_fails w text).
Proof.
  intros st. unfold write_drain. destruct (write_fails (tick st) w); discriminate.
Qed.

Lemma fueled_disconnect w r : fueled (disconnect write_fails clock w r).
Proof.
  intros st. destruct (locked st) eqn:L.
  - rewrite disconnect_eq, L. discriminate.
  - destruct (disconnect_ok write_fails clock w r st L) as [st' [E _]].
    rewrite E. discriminate.
Qed.

Lemma fueled_broadcast text exclude : fueled (broadcast write_fails clock text exclude).
Proof.
  intros st. destruct (locked st) eqn:L.
  - rewrite broadcast_eq, L. discriminate.
  - destruct (broadcast_ok write_fails clock text exclude st L) as [st' [E _]].
    rewrite E. discriminate.
Qed.

Lemma fueled_send_line w text : fueled (send_line write_fails clock w text).
Proof. apply fueled_try; [apply fueled_write_drain|apply fueled_disconnect]. Qed.

Lemma fueled_safe_send w text : fueled (safe_send write_fails w text).
Proof. apply fueled_try; [apply fueled_write_drain|apply fueled_ret]. Qed.

Lemma fueled_cmd_nick w args : fueled (cmd_nick lower write_fails clock w args).
Proof.
  unfold cmd_nick. destruct args as [|a1 rest]; [apply fueled_send_line|].
  destruct (negb _); [apply fueled_send_line|].
  destruct (contains_char 32 (strip a1)); [apply fueled_send_line|].
  apply fueled_bind.
  - apply fueled_with_lock. apply fueled_bind; [apply fueled_gets|].
    intros [|].
    + apply fueled_bind; [apply fueled_send_line|intros; apply fueled_ret].
    + apply fueled_bind; [apply fueled_gets|intros old].
      apply fueled_bind.
      * destruct (truthy old); [apply fueled_modify|apply fueled_ret].
      * intros _. repeat (apply fueled_bind; [apply fueled_modify|intros _]).
        apply fueled_ret.
  - intros [[o|]|]; [destruct (truthy_str o)| |];
      try apply fueled_broadcast; try apply fueled_ret;
      (apply fueled_bind; [apply fueled_send_line|intros; apply fueled_broadcast]).
Qed.

Lemma fueled_cmd_msg w args : fueled (cmd_msg write_fails clock w args).
Proof.
  unfold cmd_msg.
  destruct args as [|target [|text rest]]; try apply fueled_send_line.
  apply fueled_bind; [apply fueled_gets|].
  intros [s|]; [destruct (truthy_str s)|]; try apply fueled_send_line.
  apply fueled_bind; [apply fueled_with_lock, fueled_gets|].
  intros [t|]; [|apply fueled_send_line].
  apply fueled_bind; [intros st; discriminate|intros stamp].
  apply fueled_bind; [apply fueled_safe_send|intros; apply fueled_send_line].
Qed.

Lemma fueled_cmd_me w args : fueled (cmd_me write_fails clock w args).
Proof.
  unfold cmd_me. destruct args as [|action rest]; [apply fueled_send_line|].
  apply fueled_bind; [apply fueled_gets|].
  intros [s|]; [destruct (truthy_str s)|];
    try apply fueled_send_line; apply fueled_broadcast.
Qed.

Lemma fueled_handle_chat w text : fueled (handle_chat write_fails clock w text).
Proof.
  unfold handle_chat. apply fueled_bind; [apply fueled_gets|].
  intros [s|]; [destruct (truthy_str s)|];
    try apply fueled_send_line; apply fueled_broadcast.
Qed.

(** Whatever the line, [handle_command] ends by returning, raising or
    waiting for the lock: the model's budget is enough. *)
Lemma fueled_handle_command w line :
  fueled (handle_command lower write_fails clock w line).
Proof.
  unfold handle_command. destruct (split_ws 2 line) as [|p0 args]; [apply fueled_raise|].
  cbv zeta.
  repeat match goal with
         | |- fueled (if ?b then _ else _) => destruct b
         end;
    auto using fueled_send_line, fueled_disconnect, fueled_cmd_nick,
      fueled_cmd_msg, fueled_cmd_me.
  apply fueled_bind; [apply fueled_gets|intros; apply fueled_send_line].
Qed.

Lemma fueled_guarded w m : fueled m -> fueled (guarded write_fails clock w m).
Proof.
  intros Hm st. unfold guarded. specialize (Hm st).
  destruct (m st) as [[a|[|]| |] st']; simpl in *; try discriminate; auto;
    (apply fueled_bind; [apply fueled_disconnect|intros; apply fueled_ret]).
Qed.

Lemma fueled_client_step w r : fueled (client_step lower write_fails clock w r).
Proof.
  unfold client_step. apply fueled_guarded.
  destruct r as [raw| |]; try apply fueled_raise.
  destruct raw as [|b raw].
  - apply fueled_bind; [apply fueled_disconnect|intros; apply fueled_ret].
  - cbv zeta. destruct (negb _); [apply fueled_ret|].
    destruct (startswith_slash _);
      (apply fueled_bind;
       [auto using fueled_handle_command, fueled_handle_chat
       |intros; apply fueled_ret]).
Qed.

End Totality.

(** ** Concrete runs *)

Section Examples.

Lemma demo_two_atomic wfails :
  dict_mem Nat.eq_dec 2
    (clients (snd (handle_command ascii_lower wfails noon 1 (u "/nick alice")
                                  (demo_one wfails)))) = false ->
  atomic_run ascii_lower wfails noon (demo_two wfails).
Proof.
  intros H. unfold demo_two, demo_one.
  apply atomic_command. apply atomic_open; [|exact H].
  apply atomic_command. apply atomic_open; [apply atomic_init|reflexivity].
Qed.

Lemma demo_two_reachable wfails :
  dict_mem Nat.eq_dec 2
    (clients (snd (handle_command ascii_lower wfails noon 1 (u "/nick alice")
                                  (demo_one wfails)))) = false ->
  reachable ascii_lower wfails noon (demo_two wfails).
Proof. intros H. now apply atomic_run_reachable, demo_two_atomic. Qed.

Lemma demo_two_wf : wf ascii_lower (demo_two never_fails).
Proof.
  apply (@atomic_run_wf ascii_lower never_fails noon).
  apply demo_two_atomic. vm_compute. reflexivity.
Qed.

Example demo_two_state :
  clients (demo_two never_fails) = [(1, Some (u "alice")); (2, Some (u "Bob"))] /\
  nick_to_writer (demo_two never_fails) = [(u "alice", 1); (u "Bob", 2)] /\
  tick (demo_two never_fails) = 7 /\
  demo_two (fails_from 7 1) = demo_two never_fails.
Proof. vm_compute. repeat split. Qed.

(** The scenarios of the specification, run on the model. *)
Example scenario_public_message :
  let res := client_step ascii_lower never_fails noon 1
               (Data (map N_of_ascii (list_ascii_of_string "hello") ++ [13; 10]%N))
               (demo_two never_fails) in
  fst res = Ok Continue /\
  out (snd res) =
    out (demo_two never_fails) ++
    [Sent 1 (u "[12:00] <alice> hello" ++ nl);
     Sent 2 (u "[12:00] <alice> hello" ++ nl)].
Proof. vm_compute. split; reflexivity. Qed.

Example scenario_private_message :
  let res := handle_command ascii_lower never_fails noon 1 (u "/msg Bob hi")
               (demo_two never_fails) in
  fst res = Ok tt /\
  out (snd res) =
    out (demo_two never_fails) ++
    [Sent 2 (u "[12:00] [PM] <alice> hi" ++ nl);
     Sent 1 (u "[PM -> Bob] hi" ++ nl)].
Proof. vm_compute. split; reflexivity. Qed.

Example scenario_emote :
  let res := handle_command ascii_lower never_fails noon 1 (u "/me waves")
               (demo_two never_fails) in
  fst res = Ok tt /\
  out (snd res) =
    out (demo_two never_fails) ++
    [Sent 1 (u "[12:00] * alice waves" ++ nl);
     Sent 2 (u "[12:00] * alice waves" ++ nl)].
Proof. vm_compute. split; reflexivity. Qed.

Example scenario_name_taken :
  let st := snd (client_open never_fails noon 2
                   (snd (handle_command ascii_lower never_fails noon 1
                           (u "/nick alice") (demo_one never_fails)))) in
  let res := handle_command ascii_lower never_fails noon 2 (u "/nick alice") st in
  out (snd res) = out st ++ [Sent 2 (u "Nickname already in use. Try another." ++ nl)] /\
  nick_of 2 (snd res) = None.
Proof. vm_compute. split; reflexivity. Qed.

(** A failed write of the rejection leaves the task waiting on the lock it
    holds. *)
Example rejection_write_failure_hangs :
  let res := handle_command ascii_lower (broken 2) noon 2 (u "/nick ALICE")
               (demo_two never_fails) in
  fst res = Hung /\ locked (snd res) = true /\
  clients (snd res) = clients (demo_two never_fails).
Proof. vm_compute. repeat split. Qed.

(** C3 -- "/nick foo bar" is not rejected: [split] has already cut the line
    at the space, so the name is "foo", the test for a space in it cannot
    succeed, and the nickname "foo" is installed and confirmed. *)
Theorem nick_with_space_takes_first_word :
  let st := demo_one never_fails in
  let res := handle_command ascii_lower never_fails noon 1 (u "/nick foo bar") st in
  split_ws 2 (u "/nick foo bar") = [u "/nick"; u "foo"; u "bar"] /\
  fst res = Ok tt /\
  nick_of 1 st = None /\
  nick_of 1 (snd res) = Some (u "foo") /\
  nick_to_writer (snd res) = [(u "foo", 1)] /\
  out (snd res) = out st ++ [Sent 1 (msg_nick_ok (u "foo"))].
Proof. vm_compute. repeat split. Qed.

(** The test [" " in newnick] of [/nick] is dead code on every line. *)
Lemma nick_space_test_never_fires line p0 a1 rest :
  split_ws 2 line = p0 :: a1 :: rest ->
  strip a1 = a1 /\ a1 <> [] /\ contains_char 32 (strip a1) = false.
Proof.
  intros P. destruct (split_ws_arg _ P) as [W Ne].
  rewrite (strip_word _ W). auto using word_no_space.
Qed.

(** The part of C3 the code keeps: without a name, [/nick] only replies with
    its usage line. *)
Lemma nick_without_name_is_usage lower write_fails clock w line p0 st :
  split_ws 2 line = [p0] -> lower p0 = u "/nick" ->
  handle_command lower write_fails clock w line st =
  send_line write_fails clock w msg_nick_usage st.
Proof.
  intros P C. now rewrite (handle_command_nick lower write_fails clock w line st P C).
Qed.

Lemma nick_collision_rejected_witness :
  (split_ws 2 (u "/nick ALICE") = [u "/nick"; u "ALICE"] /\
  nick_of 2 (snd (handle_command ascii_lower never_fails noon 2 (u "/nick ALICE")
                                 (demo_two never_fails))) = Some (u "Bob")) /\
  out (snd (handle_command ascii_lower never_fails noon 2 (u "/nick ALICE")
                           (demo_two never_fails))) =
  out (demo_two never_fails) ++
  [Sent 2 (u "Nickname already in use. Try another." ++ nl)].
Proof.
  split.
  { split; [vm_compute; reflexivity|].
    refine (eq_trans
              (proj1 (proj2 (proj2
                 (@nick_collision_rejected ascii_lower never_fails noon 2
                    (u "/nick ALICE") (u "/nick") (u "ALICE") []
                    (demo_two never_fails) _ _ _ _)))) _);
      try (vm_compute; reflexivity).
    exists (u "alice"). split; [vm_compute; auto|vm_compute; reflexivity]. }
  vm_compute; reflexivity.
Defined.


Lemma broadcast_delivers_and_reaps_witness :
  locked (demo_two never_fails) = false /\
  fst (broadcast (broken 1) noon (u "hi") [2] (demo_two never_fails)) = Ok tt /\
  In (SendFailed 1 (u "[12:00] hi" ++ nl))
     (deliveries (broken 1) (S (tick (demo_two never_fails))) [1]
                 (u "[12:00] hi" ++ nl)) /\
  gone 1 (snd (broadcast (broken 1) noon (u "hi") [2] (demo_two never_fails))) /\
  out (snd (broadcast (broken 1) noon (u "hi") [2] (demo_two never_fails))) =
    out (demo_two never_fails) ++
    [SendFailed 1 (u "[12:00] hi" ++ nl); Closed 1;
     Sent 2 (u "[12:00] * alice left (broken pipe)" ++ nl)].
Proof.
  split; [reflexivity|].
  pose proof (@broadcast_delivers_and_reaps (broken 1) noon (u "hi") [2]
                (demo_two never_fails) eq_refl) as H.
  cbv zeta in H. destruct H as [_ [_ [Hdead [_ [_ [_ [Hok [_ Hgone]]]]]]]].
  split; [exact Hok|]. split; [|split].
  - apply (proj1 (Hdead 1)). vm_compute. auto.
  - apply Hgone. vm_compute. auto.
  - vm_compute. reflexivity.
Defined.

Lemma msg_unknown_target_witness :
  (dict_get str_eq_dec (u "carol") (nick_to_writer (demo_two never_fails)) = None /\
  handle_command ascii_lower never_fails noon 1 (u "/msg carol hi")
                 (demo_two never_fails) =
  send_line never_fails noon 1 (msg_not_found (u "carol")) (demo_two never_fails)) /\
  out (snd (handle_command ascii_lower never_fails noon 1 (u "/msg carol hi")
                           (demo_two never_fails))) =
  out (demo_two never_fails) ++ [Sent 1 (u "User 'carol' not found." ++ nl)].
Proof.
  split.
  { split; [vm_compute; reflexivity|].
    refine (proj1 (@msg_unknown_target ascii_lower never_fails noon 1
                     (u "/msg carol hi") (u "/msg") (u "carol") (u "hi") []
                     (u "alice") (demo_two never_fails) _ _ _ _ _ _));
      vm_compute; reflexivity. }
  vm_compute; reflexivity.
Defined.

(** C6 as stated fails when the write of the reply raises: connection 1 is
    dropped from the registry and connection 2 is told that it left. *)
Lemma msg_unknown_target_counterexample :
  ~ msg_unknown_claim ascii_lower (fails_from 7 1) noon 1
      (u "/msg carol hi") (u "carol") (demo_two (fails_from 7 1)).
Proof.
  unfold msg_unknown_claim. vm_compute. intros [H _]. discriminate H.
Qed.

Example unknown_target_failure_run :
  let res := handle_command ascii_lower (fails_from 7 1) noon 1
               (u "/msg carol hi") (demo_two (fails_from 7 1)) in
  clients (snd res) = [(2, Some (u "Bob"))] /\
  nick_to_writer (snd res) = [(u "Bob", 2)] /\
  out (snd res) =
    out (demo_two (fails_from 7 1)) ++
    [SendFailed 1 (msg_not_found (u "carol")); Closed 1;
     Sent 2 (stamped (u "12:00") (msg_left (u "alice") (u "send failed")))].
Proof. vm_compute. repeat split. Qed.

Lemma list_reply_sorted_and_counted_witness :
  split_ws 2 (u "/list") = [u "/list"] /\
  list_users ascii_lower (nick_to_writer (demo_two never_fails)) =
    [u "alice"; u "Bob"] /\
  List.length (list_users ascii_lower (nick_to_writer (demo_two never_fails))) =
    named_count (clients (demo_two never_fails)).
Proof.
  split; [vm_compute; reflexivity|]. split; [vm_compute; reflexivity|].
  refine (proj2 (proj2 (proj2
            (@list_reply_sorted_and_counted ascii_lower never_fails noon 1
               (u "/list") (u "/list") [] (demo_two never_fails)
               demo_two_wf _ _)))); vm_compute; reflexivity.
Defined.

Lemma disconnect_idempotent_witness :
  locked (demo_two never_fails) = false /\
  disconnect never_fails noon 1 (u "quit")
             (snd (disconnect never_fails noon 1 (u "quit") (demo_two never_fails))) =
  (Ok tt,
   emit (Closed 1)
        (snd (disconnect never_fails noon 1 (u "quit") (demo_two never_fails)))).
Proof.
  split; [reflexivity|].
  refine (proj1 (@disconnect_idempotent never_fails noon ascii_lower 1
                   (u "quit") (u "quit") (u "/quit") (u "/quit") []
                   (demo_two never_fails) _ _ _));
    vm_compute; reflexivity.
Defined.

Lemma decode_drops_invalid_bytes_witness :
  well_formed_at [255; 97; 10]%N = false /\
  decode_ignore [255; 97; 10]%N = [97; 10]%N.
Proof.
  split; [reflexivity|].
  refine (eq_trans
            (proj1 (proj2
               (@decode_drops_invalid_bytes ascii_lower never_fails noon 1
                  255%N [97; 10]%N _ _))) _);
    try reflexivity. discriminate.
Defined.

(** C9 as stated fails on the bytes FF 61: the decoder drops FF, where the
    specification has U+FFFD. *)
Lemma decode_ignore_counterexample : ~ decode_replaces_claim [255; 97]%N.
Proof. unfold decode_replaces_claim. vm_compute. discriminate. Qed.

End Examples.

(** ** How a command ends *)

Section Outcomes.
Variable lower : str -> str.
Variable write_fails : nat -> conn -> bool.
Variable clock : nat -> str.

Lemma slash_line_parts line :
  startswith_slash line = true -> exists p0 args, split_ws 2 line = p0 :: args.
Proof.
  destruct line as [|c t]; [discriminate|]. intros H. simpl in H.
  apply N.eqb_eq in H. subst c.
  change (split_ws 2 (47%N :: t))
    with (let (w, rest) := span_word (47%N :: t) in w :: split_ws 1 rest).
  destruct (span_word (47%N :: t)) as [w rest].
  exists w, (split_ws 1 rest). reflexivity.
Qed.

Lemma install_nick_locked w n st : locked (install_nick w n st) = locked st.
Proof. apply install_nick_frame. Qed.

Lemma announce_nick_ok w old n st :
  locked st = false ->
  exists st', announce_nick write_fails clock w old n st = (Ok tt, st') /\
              locked st' = false.
Proof.
  intros L.
  assert (exists st',
             (send_line write_fails clock w (msg_nick_ok n) ;;
              broadcast write_fails clock (msg_joined n) [w]) st = (Ok tt, st') /\
             locked st' = false) as Hj.
  { unfold bind.
    destruct (send_line_ok write_fails clock w (msg_nick_ok n) st L) as [s1 [E1 L1]].
    rewrite E1. now apply broadcast_ok. }
  unfold announce_nick. destruct old as [o|]; [destruct (truthy_str o)|]; auto.
  now apply broadcast_ok.
Qed.

Lemma cmd_list_ok w st :
  locked st = false ->
  exists st', cmd_list lower write_fails clock w st = (Ok tt, st') /\
              locked st' = false.
Proof. intros L. unfold cmd_list, bind, gets. now apply send_line_ok. Qed.

Lemma cmd_msg_ok w args st :
  locked st = false ->
  exists st', cmd_msg write_fails clock w args st = (Ok tt, st') /\
              locked st' = false.
Proof.
  intros L. unfold cmd_msg.
  destruct args as [|target [|text rest]]; try now apply send_line_ok.
  unfold bind at 1, clients_get, gets.
  destruct (match dict_get Nat.eq_dec w (clients st) with
            | Some v => v
            | None => None
            end) as [s|]; [destruct (truthy_str s)|]; try now apply send_line_ok.
  unfold bind at 1, with_lock. rewrite L. cbn [nick_to_writer set_locked].
  rewrite (unlock_after_lock _ L).
  destruct (dict_get str_eq_dec target (nick_to_writer st)) as [t|];
    [|now apply send_line_ok].
  unfold bind at 1, ts. unfold bind at 1. rewrite safe_send_eq.
  now apply send_line_ok.
Qed.

Lemma cmd_me_ok w args st :
  locked st = false ->
  exists st', cmd_me write_fails clock w args st = (Ok tt, st') /\
              locked st' = false.
Proof.
  intros L. unfold cmd_me. destruct args as [|action rest]; [now apply send_line_ok|].
  unfold bind, clients_get, gets.
  destruct (match dict_get Nat.eq_dec w (clients st) with
            | Some v => v
            | None => None
            end) as [s|]; [destruct (truthy_str s)|];
    try now apply send_line_ok. now apply broadcast_ok.
Qed.

Lemma handle_chat_ok w text st :
  locked st = false ->
  exists st', handle_chat write_fails clock w text st = (Ok tt, st') /\
              locked st' = false.
Proof.
  intros L. unfold handle_chat, bind, clients_get, gets.
  destruct (match dict_get Nat.eq_dec w (clients st) with
            | Some v => v
            | None => None
            end) as [s|]; [destruct (truthy_str s)|];
    try now apply send_line_ok. now apply broadcast_ok.
Qed.

(** How [handle_command] ends on a line that starts with a slash. *)
Lemma command_outcome w line st :
  locked st = false ->
  startswith_slash line = true ->
  let res := handle_command lower write_fails clock w line st in
  (exists st', res = (Ok tt, st') /\ locked st' = false) \/
  (exists p0 name rest,
      split_ws 2 line = p0 :: name :: rest /\
      lower p0 = u "/nick" /\
      name_taken lower name (nick_to_writer st) = true /\
      write_fails (tick st) w = true /\
      res = (Hung, set_locked true (emit (SendFailed w msg_nick_in_use) (advance st)))).
Proof.
  intros L Sl res. subst res.
  destruct (slash_line_parts _ Sl) as [p0 [args P]].
  unfold handle_command. rewrite P. cbv zeta.
  destruct (str_eqb (lower p0) (u "/help")); [left; now apply send_line_ok|].
  destruct (str_eqb (lower p0) (u "/quit")); [left; now apply disconnect_ok|].
  destruct (str_eqb (lower p0) (u "/nick")) eqn:Cn.
  - apply str_eqb_true in Cn.
    destruct args as [|name rest]; [left; now apply send_line_ok|].
    destruct (split_ws_arg _ P) as [W Ne].
    destruct (name_taken lower name (nick_to_writer st)) eqn:Tk.
    + rewrite (cmd_nick_taken lower write_fails clock w rest st W Ne L Tk).
      destruct (write_fails (tick st) w) eqn:F.
      * right. exists p0, name, rest. auto.
      * left. eexists. split; [reflexivity|]. exact L.
    + rewrite (cmd_nick_free lower write_fails clock w rest st W Ne L Tk).
      left. apply announce_nick_ok. now rewrite install_nick_locked.
  - destruct (str_eqb (lower p0) (u "/list")); [left; now apply cmd_list_ok|].
    destruct (str_eqb (lower p0) (u "/msg")); [left; now apply cmd_msg_ok|].
    destruct (str_eqb (lower p0) (u "/me")); [left; now apply cmd_me_ok|].
    left. now apply send_line_ok.
Qed.

(** X1 -- a command line (one that starts with "/") handled with the lock
    free neither raises nor exhausts the model: it returns with the lock
    free, except in one case, a [/nick] whose name is taken while the write
    of the rejection raises; then the task waits for ever on the lock it
    holds. *)
Theorem command_returns_or_deadlocks w line st :
  locked st = false ->
  startswith_slash line = true ->
  let res := handle_command lower write_fails clock w line st in
  (exists st', res = (Ok tt, st') /\ locked st' = false) \/
  (exists p0 name rest,
      split_ws 2 line = p0 :: name :: rest /\
      lower p0 = u "/nick" /\
      name_taken lower name (nick_to_writer st) = true /\
      write_fails (tick st) w = true /\
      res = (Hung, set_locked true (emit (SendFailed w msg_nick_in_use) (advance st)))).
Proof. apply command_outcome. Qed.

(** The turn of the loop on which the stream ends. *)
Lemma stream_end_step w r st :
  locked st = false ->
  stream_ended r = true ->
  let res := client_step lower write_fails clock w r st in
  res = (disconnect write_fails clock w (end_reason r) ;; ret Return) st /\
  fst res = Ok Return /\
  locked (snd res) = false /\
  gone w (snd res).
Proof.
  intros L Hr res.
  assert (res = (disconnect write_fails clock w (end_reason r) ;; ret Return) st) as E.
  { subst res. destruct r as [[|b raw]| |]; try discriminate; try reflexivity.
    unfold client_step, guarded, bind. simpl.
    destruct (disconnect_ok write_fails clock w (u "client closed") st L)
      as [st' [Ed _]].
    now rewrite Ed. }
  split; [exact E|]. rewrite E. unfold bind.
  destruct (disconnect_ok write_fails clock w (end_reason r) st L) as [st' [Ed L']].
  pose proof (disconnect_gone write_fails clock w (end_reason r) st L) as G.
  rewrite Ed in *. simpl in *. auto.
Qed.

(** X2 -- when [readline] returns nothing or raises, the turn ends the loop:
    [disconnect] runs with the reason that matches (client closed, transport
    error, server error), the connection ends out of the registry with its
    stream closed, and the handler returns. *)
Theorem stream_end_removes_connection w r st :
  locked st = false ->
  stream_ended r = true ->
  let res := client_step lower write_fails clock w r st in
  res = (disconnect write_fails clock w (end_reason r) ;; ret Return) st /\
  fst res = Ok Return /\
  locked (snd res) = false /\
  gone w (snd res).
Proof. apply stream_end_step. Qed.

Lemma disconnect_nickless w reason st :
  locked st = false ->
  nick_of w st = None ->
  disconnect write_fails clock w reason st =
  (Ok tt, emit (Closed w) (set_clients (dict_pop Nat.eq_dec w (clients st)) st)).
Proof.
  intros L Hn. rewrite disconnect_eq, L. cbv zeta. rewrite Hn.
  unfold drop_conn. now rewrite Hn.
Qed.

(** X3 -- a connection without a nickname leaves silently: [disconnect]
    takes it out of the registry, closes its stream and writes to nobody;
    the directory is untouched. *)
Theorem nickless_disconnect_is_silent w reason st :
  locked st = false ->
  nick_of w st = None ->
  disconnect write_fails clock w reason st =
  (Ok tt, emit (Closed w) (set_clients (dict_pop Nat.eq_dec w (clients st)) st)).
Proof. apply disconnect_nickless. Qed.

End Outcomes.

(** ** Commands that change no nickname *)

Section ReadOnly.
Variable lower : str -> str.
Variable write_fails : nat -> conn -> bool.
Variable clock : nat -> str.

Lemma shrinks_handle_chat w text st :
  shrinks st (snd (handle_chat write_fails clock w text st)).
Proof.
  apply (@respects_handle_chat shrinks shrinks_refl shrinks_trans shrinks_lock
           shrinks_advance shrinks_emit write_fails clock shrinks_drop w text st).
Qed.

Lemma shrinks_other_command w line p0 args st :
  split_ws 2 line = p0 :: args ->
  lower p0 <> u "/nick" ->
  shrinks st (snd (handle_command lower write_fails clock w line st)).
Proof.
  intros P C. unfold handle_command. rewrite P. cbv zeta.
  destruct (str_eqb (lower p0) (u "/help")).
  { apply (@respects_send_line shrinks shrinks_refl shrinks_trans shrinks_lock
             shrinks_advance shrinks_emit write_fails clock shrinks_drop). }
  destruct (str_eqb (lower p0) (u "/quit")); [apply shrinks_disconnect|].
  destruct (str_eqb (lower p0) (u "/nick")) eqn:Cn.
  { apply str_eqb_true in Cn. contradiction. }
  destruct (str_eqb (lower p0) (u "/list")).
  { apply (@respects_cmd_list shrinks shrinks_refl shrinks_trans shrinks_lock
             shrinks_advance shrinks_emit lower write_fails clock shrinks_drop). }
  destruct (str_eqb (lower p0) (u "/msg")).
  { apply (@respects_cmd_msg shrinks shrinks_refl shrinks_trans shrinks_lock
             shrinks_advance shrinks_emit write_fails clock shrinks_drop). }
  destruct (str_eqb (lower p0) (u "/me")).
  { apply (@respects_cmd_me shrinks shrinks_refl shrinks_trans shrinks_lock
             shrinks_advance shrinks_emit write_fails clock shrinks_drop). }
  apply (@respects_send_line shrinks shrinks_refl shrinks_trans shrinks_lock
           shrinks_advance shrinks_emit write_fails clock shrinks_drop).
Qed.

(** X4 -- only [/nick] gives out nicknames: after any other command, and
    after any chat line, every registry nickname and every directory entry
    of the new state was already there, and the registry has not grown,
    whatever writes failed on the way. *)
Theorem only_nick_adds_names w line p0 args text st :
  split_ws 2 line = p0 :: args ->
  lower p0 <> u "/nick" ->
  let after_command := snd (handle_command lower write_fails clock w line st) in
  let after_chat := snd (handle_chat write_fails clock w text st) in
  (forall c n, nick_of c after_command = Some n -> nick_of c st = Some n) /\
  (forall n, In n (dict_keys (nick_to_writer after_command)) ->
             In n (dict_keys (nick_to_writer st))) /\
  List.length (clients after_command) <= List.length (clients st) /\
  (forall c n, nick_of c after_chat = Some n -> nick_of c st = Some n) /\
  (forall n, In n (dict_keys (nick_to_writer after_chat)) ->
             In n (dict_keys (nick_to_writer st))) /\
  List.length (clients after_chat) <= List.length (clients st).
Proof.
  intros P C a b.
  destruct (shrinks_other_command w line st P C) as [_ A2 A3 A4 _].
  destruct (shrinks_handle_chat w text st) as [_ B2 B3 B4 _].
  repeat split; assumption.
Qed.

(** X5 -- without a nickname nothing is said in public or in private: a
    chat line, a [/me] with an action and a [/msg] with a target and a text
    each end in one [send_line] of "Set your nickname first"; when that
    write goes through, nothing else is written and no dictionary changes. *)
Theorem nickname_required w text me_line p1 action rest1 msg_line p2 target body rest2 st :
  nick_of w st = None ->
  split_ws 2 me_line = p1 :: action :: rest1 ->
  lower p1 = u "/me" ->
  split_ws 2 msg_line = p2 :: target :: body :: rest2 ->
  lower p2 = u "/msg" ->
  let reply := send_line write_fails clock w msg_set_nick_first st in
  handle_chat write_fails clock w text st = reply /\
  handle_command lower write_fails clock w me_line st = reply /\
  handle_command lower write_fails clock w msg_line st = reply /\
  (write_fails (tick st) w = false ->
   reply = (Ok tt, emit (Sent w msg_set_nick_first) (advance st))).
Proof.
  intros Hn P1 C1 P2 C2 reply. subst reply.
  assert (match dict_get Nat.eq_dec w (clients st) with
          | Some v => v
          | None => None
          end = None) as Hg by exact Hn.
  split; [|split; [|split]].
  - unfold handle_chat, bind, clients_get, gets. now rewrite Hg.
  - unfold handle_command. rewrite P1. cbv zeta. rewrite C1.
    change (str_eqb (u "/me") (u "/help")) with false.
    change (str_eqb (u "/me") (u "/quit")) with false.
    change (str_eqb (u "/me") (u "/nick")) with false.
    change (str_eqb (u "/me") (u "/list")) with false.
    change (str_eqb (u "/me") (u "/msg")) with false.
    change (str_eqb (u "/me") (u "/me")) with true. cbv iota.
    unfold cmd_me, bind, clients_get, gets. now rewrite Hg.
  - rewrite (handle_command_msg lower write_fails clock w msg_line st P2 C2).
    unfold cmd_msg, bind, clients_get, gets. now rewrite Hg.
  - intros F. now rewrite send_line_eq, F.
Qed.

End ReadOnly.

(** ** What is delivered when no write fails *)

Section Delivery.
Variable lower : str -> str.
Variable write_fails : nat -> conn -> bool.
Variable clock : nat -> str.

Lemma deliveries_quiet t ws line :
  quiet_from write_fails t ->
  deliveries write_fails t ws line = map (fun w => Sent w line) ws.
Proof.
  revert t. induction ws as [|x rest IH]; intros t Q; simpl; auto.
  rewrite (Q t x (le_n t)). f_equal. apply IH.
  intros t' w H. apply Q. lia.
Qed.

Lemma dict_keys_set_present (V : Type) (k : conn) (v : V) (d : dict conn V) :
  In k (dict_keys d) ->
  dict_keys (dict_set Nat.eq_dec k v d) = dict_keys d.
Proof.
  induction d as [|[k' v'] t IH]; simpl; [intros []|].
  destruct (Nat.eq_dec k k') as [E|E]; simpl; auto.
  intros [H|H]; [congruence|]. f_equal. now apply IH.
Qed.

Lemma broadcast_quiet_out text exclude st :
  quiet_from write_fails (tick st) -> locked st = false ->
  exists st',
    broadcast write_fails clock text exclude st = (Ok tt, st') /\
    clients st' = clients st /\ nick_to_writer st' = nick_to_writer st /\
    locked st' = false /\ tick st' = S (tick st) + List.length (recipients exclude st) /\
    out st' = out st ++ map (fun c => Sent c (stamped (clock (tick st)) text))
                            (recipients exclude st).
Proof.
  intros Q L. rewrite (@broadcast_quiet write_fails clock text exclude st Q L).
  eexists. split; [reflexivity|]. unfold after_delivery. simpl.
  repeat split; auto. f_equal. apply deliveries_quiet.
  intros t' w H. apply Q. lia.
Qed.

(** X6 -- a chat line from a connection with a nickname, when no write
    fails: the line "[HH:MM] <nick> text" is written once to every
    registered connection in registry order, the sender and the connections
    that have no nickname yet included, and no dictionary changes. *)
Theorem chat_reaches_everyone w s text st :
  nick_of w st = Some s ->
  truthy_str s = true ->
  locked st = false ->
  quiet_from write_fails (tick st) ->
  exists st',
    handle_chat write_fails clock w text st = (Ok tt, st') /\
    clients st' = clients st /\
    nick_to_writer st' = nick_to_writer st /\
    out st' = out st ++ map (fun c => Sent c (stamped (clock (tick st)) (msg_chat s text)))
                            (dict_keys (clients st)).
Proof.
  intros Hn T L Q.
  assert (handle_chat write_fails clock w text st =
          broadcast write_fails clock (msg_chat s text) [] st) as E.
  { unfold handle_chat, bind, clients_get, gets. fold (nick_of w st).
    now rewrite Hn, T. }
  destruct (broadcast_quiet_out (msg_chat s text) [] st Q L)
    as [st' [Eb [Ec [En [_ [_ Eo]]]]]].
  exists st'. rewrite E, Eb. rewrite recipients_nil in Eo. auto.
Qed.

(** X7 -- [/me] keeps one word: the action announced is [parts[1]], the
    first word after the command; whatever follows it on the line is
    dropped, so two [/me] lines with the same first word do the same. *)
Theorem me_keeps_first_word w line p0 action rest line' p0' rest' s st :
  split_ws 2 line = p0 :: action :: rest ->
  lower p0 = u "/me" ->
  split_ws 2 line' = p0' :: action :: rest' ->
  lower p0' = u "/me" ->
  nick_of w st = Some s ->
  truthy_str s = true ->
  handle_command lower write_fails clock w line st =
    broadcast write_fails clock (msg_emote s action) [] st /\
  is_word action = true /\
  handle_command lower write_fails clock w line' st =
    handle_command lower write_fails clock w line st.
Proof.
  intros P C P' C' Hn T.
  assert (forall l q r,
             split_ws 2 l = q :: action :: r -> lower q = u "/me" ->
             handle_command lower write_fails clock w l st =
             broadcast write_fails clock (msg_emote s action) [] st) as H.
  { intros l q r Pl Cl. unfold handle_command. rewrite Pl. cbv zeta. rewrite Cl.
    change (str_eqb (u "/me") (u "/help")) with false.
    change (str_eqb (u "/me") (u "/quit")) with false.
    change (str_eqb (u "/me") (u "/nick")) with false.
    change (str_eqb (u "/me") (u "/list")) with false.
    change (str_eqb (u "/me") (u "/msg")) with false.
    change (str_eqb (u "/me") (u "/me")) with true. cbv iota.
    unfold cmd_me, bind, clients_get, gets. fold (nick_of w st).
    now rewrite Hn, T. }
  split; [now apply (H line p0 rest)|].
  split; [apply (split_ws_arg _ P)|].
  rewrite (H line p0 rest P C). now apply (H line' p0' rest').
Qed.

(** What [/msg] does once the sender has a nickname. *)
Lemma cmd_msg_lookup w target text rest s st :
  nick_of w st = Some s ->
  truthy_str s = true ->
  locked st = false ->
  cmd_msg write_fails clock w (target :: text :: rest) st =
  match dict_get str_eq_dec target (nick_to_writer st) with
  | None => send_line write_fails clock w (msg_not_found target) st
  | Some tw =>
      send_line write_fails clock w (msg_pm_echo target text)
        (emit (if write_fails (S (tick st)) tw
               then SendFailed tw (msg_pm (clock (tick st)) s text)
               else Sent tw (msg_pm (clock (tick st)) s text))
              (advance (advance st)))
  end.
Proof.
  intros Hn T L. unfold cmd_msg.
  unfold bind at 1, clients_get, gets. fold (nick_of w st). rewrite Hn, T.
  unfold bind at 1, with_lock. rewrite L. cbn [nick_to_writer set_locked].
  rewrite (unlock_after_lock _ L).
  destruct (dict_get str_eq_dec target (nick_to_writer st)) as [tw|]; [|reflexivity].
  unfold bind at 1, ts. unfold bind at 1. rewrite safe_send_eq. reflexivity.
Qed.

(** X8 -- [/msg] to a nickname of the directory: one write of
    "[HH:MM] [PM] <sender> text" is attempted to its connection, then the
    echo "[PM -> target] text" goes to the sender.  A failure of the first
    write is swallowed: if the echo goes through the command returns, and
    no dictionary has changed, the target is still registered. *)
Theorem private_message_delivery w line p0 target text rest s tw st :
  split_ws 2 line = p0 :: target :: text :: rest ->
  lower p0 = u "/msg" ->
  nick_of w st = Some s ->
  truthy_str s = true ->
  dict_get str_eq_dec target (nick_to_writer st) = Some tw ->
  locked st = false ->
  let pm := msg_pm (clock (tick st)) s text in
  let echo := msg_pm_echo target text in
  let attempt := if write_fails (S (tick st)) tw
                 then SendFailed tw pm else Sent tw pm in
  let res := handle_command lower write_fails clock w line st in
  res = send_line write_fails clock w echo (emit attempt (advance (advance st))) /\
  (write_fails (S (S (tick st))) w = false ->
   fst res = Ok tt /\
   clients (snd res) = clients st /\
   nick_to_writer (snd res) = nick_to_writer st /\
   out (snd res) = out st ++ [attempt; Sent w echo]).
Proof.
  intros P C Hn T Ht L pm echo attempt res.
  assert (res = send_line write_fails clock w echo
                  (emit attempt (advance (advance st)))) as E.
  { subst res. rewrite (handle_command_msg lower write_fails clock w line st P C).
    rewrite (cmd_msg_lookup w target text rest st Hn T L). now rewrite Ht. }
  split; [exact E|]. intros F. rewrite E, send_line_eq. simpl. rewrite F. simpl.
  repeat split; auto. now rewrite <- app_assoc.
Qed.

(** X9 -- [/msg] looks the target up as typed, while [/nick] compares names
    up to letter case: a target that differs from a nickname of the
    directory only by case is a name [/nick] would refuse as taken, and yet
    [/msg] answers "not found". *)
Theorem private_message_is_case_sensitive w line p0 target text rest s n st :
  wf lower st ->
  split_ws 2 line = p0 :: target :: text :: rest ->
  lower p0 = u "/msg" ->
  nick_of w st = Some s ->
  locked st = false ->
  In n (dict_keys (nick_to_writer st)) ->
  lower target = lower n ->
  target <> n ->
  name_taken lower target (nick_to_writer st) = true /\
  dict_get str_eq_dec target (nick_to_writer st) = None /\
  handle_command lower write_fails clock w line st =
    send_line write_fails clock w (msg_not_found target) st.
Proof.
  intros Hwf P C Hn L In_n El Ne.
  assert (dict_get str_eq_dec target (nick_to_writer st) = None) as Hg.
  { apply dict_get_none. intros I. apply Ne. now apply (wf_unique Hwf). }
  assert (truthy_str s = true) as T.
  { apply truthy_str_true. intros ->. apply nick_of_some in Hn.
    now apply (wf_nonempty Hwf) in Hn. }
  split; [apply name_taken_true; eauto|]. split; [exact Hg|].
  rewrite (handle_command_msg lower write_fails clock w line st P C).
  rewrite (cmd_msg_lookup w target text rest st Hn T L). now rewrite Hg.
Qed.

End Delivery.

(** ** A [/nick] that succeeds *)

Section NickSuccess.
Variable lower : str -> str.
Variable write_fails : nat -> conn -> bool.
Variable clock : nat -> str.

Lemma install_nick_clients w name st :
  clients (install_nick w name st) =
  dict_set Nat.eq_dec w (Some name) (clients st).
Proof.
  unfold install_nick.
  destruct (nick_of w st) as [o|]; [destruct (truthy_str o)|]; reflexivity.
Qed.

Lemma others_after_set (V : Type) w (v : V) (d : dict conn V) :
  filter (fun c => negb (Nat.eqb c w || false))
         (dict_keys (dict_set Nat.eq_dec w v d)) =
  filter (fun c => negb (Nat.eqb c w)) (dict_keys d).
Proof.
  rewrite (filter_ext (fun c => negb (Nat.eqb c w || false))
                      (fun c => negb (Nat.eqb c w)))
    by (intros c; now rewrite orb_false_r).
  induction d as [|[k' v'] t IH]; simpl.
  - now rewrite Nat.eqb_refl.
  - destruct (Nat.eq_dec w k') as [E|E]; simpl; [reflexivity|].
    destruct (Nat.eqb k' w); simpl; now rewrite IH.
Qed.

(** X10 -- a first [/nick] with a free name, when no write fails: the name
    is entered in registry and directory, "OK. You are now 'name'." goes to
    the issuer alone, and "[HH:MM] * name joined the chat" to every other
    registered connection, not to the issuer. *)
Theorem first_nickname_confirmed_and_announced w line p0 name rest st :
  split_ws 2 line = p0 :: name :: rest ->
  lower p0 = u "/nick" ->
  nick_of w st = None ->
  name_taken lower name (nick_to_writer st) = false ->
  locked st = false ->
  quiet_from write_fails (tick st) ->
  exists st',
    handle_command lower write_fails clock w line st = (Ok tt, st') /\
    clients st' = dict_set Nat.eq_dec w (Some name) (clients st) /\
    nick_to_writer st' = dict_set str_eq_dec name w (nick_to_writer st) /\
    out st' =
      out st ++ Sent w (msg_nick_ok name)
             :: map (fun c => Sent c (stamped (clock (S (tick st))) (msg_joined name)))
                    (filter (fun c => negb (Nat.eqb c w)) (dict_keys (clients st))).
Proof.
  intros P C Hn Tk L Q.
  destruct (split_ws_arg _ P) as [W Ne].
  rewrite (handle_command_nick lower write_fails clock w line st P C).
  rewrite (cmd_nick_free lower write_fails clock w rest st W Ne L Tk).
  rewrite Hn. unfold announce_nick, bind.
  assert (install_nick w name st =
          mkState (dict_set Nat.eq_dec w (Some name) (clients st))
                  (dict_set str_eq_dec name w (nick_to_writer st))
                  (locked st) (tick st) (out st)) as Ei.
  { unfold install_nick. now rewrite Hn. }
  rewrite Ei. rewrite send_line_quiet by exact Q.
  assert (quiet_from write_fails (S (tick st))) as Q'
      by (intros t' x H; apply Q; lia).
  match goal with
  | |- context [broadcast _ _ ?t ?e ?s] =>
      destruct (@broadcast_quiet_out write_fails clock t e s Q' L)
        as [st' [Eb [Ec [En [_ [_ Eo]]]]]]
  end.
  exists st'. rewrite Eb. split; [reflexivity|].
  split; [exact Ec|]. split; [exact En|].
  rewrite Eo. simpl. unfold recipients. simpl.
  rewrite others_after_set. now rewrite <- app_assoc.
Qed.

(** X11 -- a connection that has nickname [old] takes a free name, when no
    write fails: the registry shows the new name, the directory entry of
    [old] is gone and [old] passes the collision test again, the other
    connections keep their nicknames, and the only output is
    "[HH:MM] * old is now known as name", written to every registered
    connection, the issuer included: there is no private confirmation. *)
Theorem rename_frees_old_name w line p0 name rest old st :
  wf lower st ->
  split_ws 2 line = p0 :: name :: rest ->
  lower p0 = u "/nick" ->
  nick_of w st = Some old ->
  name_taken lower name (nick_to_writer st) = false ->
  locked st = false ->
  quiet_from write_fails (tick st) ->
  exists st',
    handle_command lower write_fails clock w line st = (Ok tt, st') /\
    nick_of w st' = Some name /\
    dict_get str_eq_dec name (nick_to_writer st') = Some w /\
    dict_get str_eq_dec old (nick_to_writer st') = None /\
    name_taken lower old (nick_to_writer st') = false /\
    (forall c, c <> w -> nick_of c st' = nick_of c st) /\
    out st' =
      out st ++ map (fun c => Sent c (stamped (clock (tick st)) (msg_renamed old name)))
                    (dict_keys (clients st)).
Proof.
  intros Hwf P C Ho Tk L Q.
  destruct (split_ws_arg _ P) as [W Ne].
  assert (truthy_str old = true) as To.
  { apply truthy_str_true. intros ->. apply nick_of_some in Ho.
    now apply (wf_nonempty Hwf) in Ho. }
  assert (In old (dict_keys (nick_to_writer st))) as Io.
  { apply nick_of_some in Ho. apply (wf_link Hwf) in Ho.
    eapply dict_get_some_key; eauto. }
  assert (In w (dict_keys (clients st))) as Iw.
  { apply nick_of_some in Ho. eapply dict_get_some_key; eauto. }
  pose proof (proj1 (name_taken_false lower name (nick_to_writer st)) Tk) as Free.
  assert (old <> name) as Hne.
  { intros E. apply (Free old Io). now rewrite E. }
  rewrite (handle_command_nick lower write_fails clock w line st P C).
  rewrite (cmd_nick_free lower write_fails clock w rest st W Ne L Tk).
  rewrite Ho. unfold announce_nick. rewrite To.
  assert (install_nick w name st =
          mkState (dict_set Nat.eq_dec w (Some name) (clients st))
                  (dict_set str_eq_dec name w
                            (dict_pop str_eq_dec old (nick_to_writer st)))
                  (locked st) (tick st) (out st)) as Ei.
  { unfold install_nick. now rewrite Ho, To. }
  rewrite Ei.
  match goal with
  | |- context [broadcast _ _ ?t ?e ?s] =>
      destruct (@broadcast_quiet_out write_fails clock t e s Q L)
        as [st' [Eb [Ec [En [_ [_ Eo]]]]]]
  end.
  exists st'. rewrite Eb. simpl in Ec, En, Eo.
  split; [reflexivity|]. split; [|split; [|split; [|split; [|split]]]].
  - unfold nick_of. rewrite Ec. now rewrite dict_get_set_eq.
  - rewrite En. apply dict_get_set_eq.
  - rewrite En. rewrite dict_get_set_neq by exact Hne. apply dict_get_pop_eq.
  - apply name_taken_false. intros k Ik E. rewrite En in Ik.
    apply dict_keys_set in Ik. destruct Ik as [->|Ik].
    + apply (Free old Io). now symmetry.
    + apply dict_keys_pop in Ik. destruct Ik as [Hk Ik].
      apply Hk. symmetry. now apply (wf_unique Hwf).
  - intros c Hc. unfold nick_of. rewrite Ec. now rewrite dict_get_set_neq.
  - rewrite Eo. rewrite recipients_nil. simpl.
    now rewrite dict_keys_set_present.
Qed.

End NickSuccess.

(** ** Line endings *)

Section Framing.
Variable lower : str -> str.
Variable write_fails : nat -> conn -> bool.
Variable clock : nat -> str.

Lemma ascii_not_cont a : (a <? 128)%N = true -> is_cont a = false.
Proof.
  intros H. apply N.ltb_lt in H. unfold is_cont.
  destruct (N.leb_spec 128 a); [lia|reflexivity].
Qed.

Lemma ok2_ascii b a : (a <? 128)%N = true -> ok2 b a = false.
Proof. intros H. unfold ok2. rewrite (ascii_not_cont _ H). apply andb_false_r. Qed.

Lemma ok3_ascii_mid b a x : (a <? 128)%N = true -> ok3 b a x = false.
Proof.
  intros H. unfold ok3. rewrite (ascii_not_cont _ H).
  apply N.ltb_lt in H.
  destruct (N.leb_spec 160 a); [lia|]. destruct (N.leb_spec 128 a); [lia|].
  rewrite !andb_false_r. reflexivity.
Qed.

Lemma ok3_ascii_last b x a : (a <? 128)%N = true -> ok3 b x a = false.
Proof. intros H. unfold ok3. rewrite (ascii_not_cont _ H). apply andb_false_r. Qed.

Lemma ok4_ascii_1 b a x y : (a <? 128)%N = true -> ok4 b a x y = false.
Proof.
  intros H. unfold ok4. rewrite (ascii_not_cont _ H).
  apply N.ltb_lt in H.
  destruct (N.leb_spec 144 a); [lia|]. destruct (N.leb_spec 128 a); [lia|].
  rewrite !andb_false_r. reflexivity.
Qed.

Lemma ok4_ascii_2 b x a y : (a <? 128)%N = true -> ok4 b x a y = false.
Proof.
  intros H. unfold ok4. rewrite (ascii_not_cont _ H).
  rewrite andb_false_r. reflexivity.
Qed.

Lemma ok4_ascii_3 b x y a : (a <? 128)%N = true -> ok4 b x y a = false.
Proof. intros H. unfold ok4. rewrite (ascii_not_cont _ H). apply andb_false_r. Qed.

(** A sequence that is cut short is not completed by ASCII bytes. *)
Lemma decode_step_ascii_tail b t tail :
  decode_step (b :: t) = None ->
  forallb (fun a => (a <? 128)%N) tail = true ->
  decode_step ((b :: t) ++ tail) = None.
Proof.
  intros Hn Ht.
  assert (forall a r, tail = a :: r -> (a <? 128)%N = true) as H1.
  { intros a r ->. simpl in Ht. now apply andb_prop in Ht. }
  simpl in Hn. destruct (b <? 128)%N eqn:Hb; [discriminate|].
  destruct t as [|b1 t1].
  - destruct tail as [|a1 r1]; [simpl; now rewrite Hb|].
    pose proof (H1 _ _ eq_refl) as A1. simpl. rewrite Hb, (@ok2_ascii b a1 A1).
    destruct r1 as [|a2 r2]; [reflexivity|]. rewrite (@ok3_ascii_mid b a1 a2 A1).
    destruct r2 as [|a3 r3]; [reflexivity|].
    now rewrite (@ok4_ascii_1 b a1 a2 a3 A1).
  - destruct (ok2 b b1) eqn:O2; [discriminate|].
    destruct t1 as [|b2 t2].
    + destruct tail as [|a1 r1]; [simpl; now rewrite Hb, O2|].
      pose proof (H1 _ _ eq_refl) as A1. simpl.
      rewrite Hb, O2, (@ok3_ascii_last b b1 a1 A1).
      destruct r1 as [|a2 r2]; [reflexivity|].
      now rewrite (@ok4_ascii_2 b b1 a1 a2 A1).
    + destruct (ok3 b b1 b2) eqn:O3; [discriminate|].
      destruct t2 as [|b3 t3].
      * destruct tail as [|a1 r1]; [simpl; now rewrite Hb, O2, O3|].
        pose proof (H1 _ _ eq_refl) as A1. simpl.
        now rewrite Hb, O2, O3, (@ok4_ascii_3 b b1 b2 a1 A1).
      * destruct (ok4 b b1 b2 b3) eqn:O4; [discriminate|].
        simpl. now rewrite Hb, O2, O3, O4.
Qed.

Lemma decode_ignore_ascii tail :
  forallb (fun a => (a <? 128)%N) tail = true -> decode_ignore tail = tail.
Proof.
  unfold decode_ignore. induction tail as [|a r IH]; simpl; auto.
  intros H. apply andb_prop in H. destruct H as [Ha Hr]. rewrite Ha.
  specialize (IH Hr).
  destruct (@decode_ignore_defined (List.length r) r (le_n _)) as [x Hx].
  rewrite Hx in *. simpl. now rewrite IH.
Qed.

(** ASCII bytes after any bytes decode to themselves, after what the
    bytes before them decode to. *)
Lemma decode_ignore_ascii_tail n :
  forall bs tail,
    List.length bs <= n ->
    forallb (fun a => (a <? 128)%N) tail = true ->
    decode_ignore (bs ++ tail) = decode_ignore bs ++ tail.
Proof.
  induction n as [|n IH]; intros [|b t] tail Hl Ht; simpl in Hl; try lia;
    try (simpl; now apply decode_ignore_ascii).
  unfold decode_ignore in *.
  change ((b :: t) ++ tail) with (b :: (t ++ tail)).
  rewrite !decode_with_cons.
  change (b :: (t ++ tail)) with ((b :: t) ++ tail).
  destruct (decode_step (b :: t)) as [[c r]|] eqn:E.
  - rewrite (decode_step_app _ tail E).
    pose proof (decode_step_shorter _ E) as Hs. simpl in Hs.
    assert (List.length r <= n) as Hr by lia.
    specialize (IH r tail Hr Ht).
    destruct (@decode_ignore_defined (List.length (r ++ tail)) (r ++ tail) (le_n _))
      as [x Hx].
    destruct (@decode_ignore_defined (List.length r) r (le_n _)) as [y Hy].
    rewrite Hx, Hy in *. simpl. now rewrite IH.
  - rewrite (@decode_step_ascii_tail b t tail E Ht).
    apply IH; [lia|exact Ht].
Qed.

Lemma rstrip_by_tail (p : N -> bool) s tail :
  forallb p tail = true -> rstrip_by p (s ++ tail) = rstrip_by p s.
Proof.
  intros Ht. induction s as [|c t IH]; simpl.
  - induction tail as [|a r IHr]; simpl; auto.
    simpl in Ht. apply andb_prop in Ht. destruct Ht as [Ha Hr].
    rewrite (IHr Hr). now rewrite Ha.
  - now rewrite IH.
Qed.

Lemma crlf_is_ascii tail :
  forallb is_crlf tail = true -> forallb (fun a => (a <? 128)%N) tail = true.
Proof.
  induction tail as [|a r IH]; simpl; auto. intros H.
  apply andb_prop in H. destruct H as [Ha Hr]. rewrite (IH Hr), andb_true_r.
  unfold is_crlf in Ha. apply orb_prop in Ha.
  destruct Ha as [Ha|Ha]; apply N.eqb_eq in Ha; subst; reflexivity.
Qed.

(** The line [handle_client] works on: what the bytes before the line
    ending decode to, without CR or LF at its end. *)
Lemma received_line body tail :
  forallb is_crlf tail = true ->
  rstrip_by is_crlf (decode_ignore (body ++ tail)) =
  rstrip_by is_crlf (decode_ignore body).
Proof.
  intros Ht.
  rewrite (@decode_ignore_ascii_tail (List.length body) body tail (le_n _)
             (crlf_is_ascii _ Ht)).
  now apply rstrip_by_tail.
Qed.

(** X12 -- the line ending does not matter: a received line is handled
    the same whether it ends in LF, in CR LF or in any other run of CR and
    LF bytes; these bytes never reach the command or the chat text. *)
Theorem line_ending_tolerated w body tail1 tail2 st :
  tail1 <> [] ->
  tail2 <> [] ->
  forallb is_crlf tail1 = true ->
  forallb is_crlf tail2 = true ->
  client_step lower write_fails clock w (Data (body ++ tail1)) st =
  client_step lower write_fails clock w (Data (body ++ tail2)) st.
Proof.
  intros N1 N2 H1 H2. unfold client_step.
  rewrite (received_line body tail1 H1), (received_line body tail2 H2).
  destruct (body ++ tail1) as [|x1 r1] eqn:E1.
  { apply app_eq_nil in E1. destruct E1; contradiction. }
  destruct (body ++ tail2) as [|x2 r2] eqn:E2.
  { apply app_eq_nil in E2. destruct E2; contradiction. }
  reflexivity.
Qed.

Lemma blank_step w raw st :
  raw <> [] ->
  forallb is_crlf raw = true ->
  client_step lower write_fails clock w (Data raw) st = (Ok Continue, st).
Proof.
  intros Ne H. unfold client_step.
  pose proof (received_line [] raw H) as E. simpl in E.
  change (decode_ignore []) with (@nil N) in E. simpl in E.
  destruct raw as [|b r]; [contradiction|]. cbv zeta. rewrite E. reflexivity.
Qed.

(** X13 -- a line that holds nothing but CR and LF bytes is skipped: no
    reply, no change of state, and the read loop goes on. *)
Theorem blank_line_is_skipped w raw st :
  raw <> [] ->
  forallb is_crlf raw = true ->
  client_step lower write_fails clock w (Data raw) st = (Ok Continue, st).
Proof. apply blank_step. Qed.

End Framing.

(** ** Nicknames are words *)

Section Steps.
Variable lower : str -> str.
Variable write_fails : nat -> conn -> bool.
Variable clock : nat -> str.

Lemma shrinks_announce_nick w old name st :
  shrinks st (snd (announce_nick write_fails clock w old name st)).
Proof.
  assert (shrinks st (snd ((send_line write_fails clock w (msg_nick_ok name) ;;
                            broadcast write_fails clock (msg_joined name) [w]) st)))
    as Hj.
  { apply (respects_bind shrinks_trans).
    - intros s. apply (@respects_send_line shrinks shrinks_refl shrinks_trans
                         shrinks_lock shrinks_advance shrinks_emit write_fails clock
                         shrinks_drop).
    - intros _ s. apply shrinks_broadcast. }
  unfold announce_nick. destruct old as [o|]; [destruct (truthy_str o)|]; auto.
  apply shrinks_broadcast.
Qed.

Lemma cmd_nick_when_locked w a1 rest st :
  is_word a1 = true -> a1 <> [] -> locked st = true ->
  cmd_nick lower write_fails clock w (a1 :: rest) st = (Hung, st).
Proof.
  intros W Ne L. unfold cmd_nick.
  rewrite (strip_word _ W), (word_no_space _ W).
  apply truthy_str_true in Ne. rewrite Ne. cbn [negb].
  unfold bind at 1, with_lock. now rewrite L.
Qed.

End Steps.

(** ** Properties that every run keeps

    A property of the state that holds at the start, is kept when entries
    are removed and when a connection is registered without a nickname, and
    is kept by the critical section of [/nick] for a free name, holds in
    every state of every run, also when calls of [disconnect] are overtaken
    at the lock. *)

Section Invariants.
Variable lower : str -> str.
Variable write_fails : nat -> conn -> bool.
Variable clock : nat -> str.
Variable I : State -> Prop.
Hypothesis I_init : I init_state.
Hypothesis I_shrinks : forall a b, shrinks a b -> I a -> I b.
Hypothesis I_open :
  forall w st, I st -> I (set_clients (dict_set Nat.eq_dec w None (clients st)) st).
Hypothesis I_install :
  forall w name st,
    is_word name = true -> name <> [] ->
    name_taken lower name (nick_to_writer st) = false ->
    I st -> I (install_nick w name st).

Lemma shrinks_keeps a b : shrinks a b -> keeps I a b.
Proof. intros Sh H. exact (I_shrinks Sh H). Qed.

Lemma keeps_refl st : keeps I st st.
Proof. intros H. exact H. Qed.

Lemma keeps_trans a b c : keeps I a b -> keeps I b c -> keeps I a c.
Proof. unfold keeps. auto. Qed.

Lemma keeps_lock b st : keeps I st (set_locked b st).
Proof. apply shrinks_keeps, shrinks_lock. Qed.

Lemma keeps_advance st : keeps I st (advance st).
Proof. apply shrinks_keeps, shrinks_advance. Qed.

Lemma keeps_emit e st : keeps I st (emit e st).
Proof. apply shrinks_keeps, shrinks_emit. Qed.

Lemma keeps_drop w st : keeps I st (drop_conn w st).
Proof. apply shrinks_keeps, shrinks_drop. Qed.

Lemma keeps_handle_command w line st :
  keeps I st (snd (handle_command lower write_fails clock w line st)).
Proof.
  destruct (split_ws 2 line) as [|p0 args] eqn:P.
  { unfold handle_command. rewrite P. apply keeps_refl. }
  destruct (str_eq_dec (lower p0) (u "/nick")) as [C|C].
  - rewrite (handle_command_nick lower write_fails clock w line st P C).
    destruct args as [|name rest].
    { apply shrinks_keeps.
      apply (@respects_send_line shrinks shrinks_refl shrinks_trans
               shrinks_lock shrinks_advance shrinks_emit write_fails clock
               shrinks_drop). }
    destruct (split_ws_arg _ P) as [W Ne].
    destruct (locked st) eqn:L.
    { rewrite (@cmd_nick_when_locked lower write_fails clock w name rest st W Ne L).
      apply keeps_refl. }
    destruct (name_taken lower name (nick_to_writer st)) eqn:Tk.
    + rewrite (cmd_nick_taken lower write_fails clock w rest st W Ne L Tk).
      destruct (write_fails (tick st) w); apply shrinks_keeps; cbn [snd].
      * eapply shrinks_trans; [|apply shrinks_lock].
        eapply shrinks_trans; [apply shrinks_advance|apply shrinks_emit].
      * eapply shrinks_trans; [apply shrinks_advance|apply shrinks_emit].
    + rewrite (cmd_nick_free lower write_fails clock w rest st W Ne L Tk).
      eapply keeps_trans; [intros H; exact (I_install w W Ne Tk H)|].
      apply shrinks_keeps, shrinks_announce_nick.
  - apply shrinks_keeps.
    apply (shrinks_other_command lower write_fails clock w line st P C).
Qed.

Lemma keeps_client_step w r st :
  keeps I st (snd (client_step lower write_fails clock w r st)).
Proof.
  unfold client_step.
  apply (@respects_guarded (keeps I) keeps_refl keeps_trans
           keeps_lock keeps_advance keeps_emit write_fails clock
           keeps_drop w).
  destruct r as [raw| |]; try (intros s; apply keeps_refl).
  destruct raw as [|b raw].
  - apply (respects_bind keeps_trans).
    + intros s. apply shrinks_keeps, shrinks_disconnect.
    + intros _ s. apply keeps_refl.
  - cbv zeta. destruct (negb _); [intros s; apply keeps_refl|].
    destruct (startswith_slash _); apply (respects_bind keeps_trans);
      try (intros _ s; apply keeps_refl); intros s.
    + apply keeps_handle_command.
    + apply shrinks_keeps.
      apply (shrinks_handle_chat write_fails clock).
Qed.

Lemma keeps_client_open w st :
  keeps I st (snd (client_open write_fails clock w st)).
Proof.
  unfold client_open, bind at 1, modify.
  eapply keeps_trans; [|
    apply (@respects_guarded (keeps I) keeps_refl keeps_trans
             keeps_lock keeps_advance keeps_emit write_fails clock
             keeps_drop w)].
  - intros H. now apply I_open.
  - apply (respects_bind keeps_trans).
    + intros s. apply shrinks_keeps.
      apply (@respects_send_line shrinks shrinks_refl shrinks_trans
               shrinks_lock shrinks_advance shrinks_emit write_fails clock
               shrinks_drop).
    + intros _ s. apply keeps_refl.
Qed.

Lemma invariant_run q st : run lower write_fails clock q st -> I st.
Proof.
  induction 1.
  - exact I_init.
  - now apply keeps_client_open.
  - now apply keeps_client_step.
  - now apply keeps_handle_command.
  - now apply (shrinks_keeps (shrinks_disconnect write_fails clock w reason st)).
  - assumption.
  - now apply (shrinks_keeps
                 (shrinks_disconnect_resume write_fails clock name w reason st)).
Qed.

Lemma invariant_reachable st : reachable lower write_fails clock st -> I st.
Proof. intros [q H]. exact (invariant_run H). Qed.

End Invariants.

(** ** Nicknames are words, and differ up to letter case *)

Section Words.
Variable lower : str -> str.
Variable write_fails : nat -> conn -> bool.
Variable clock : nat -> str.

Lemma nick_of_install c w name st n :
  nick_of c (install_nick w name st) = Some n ->
  (c = w /\ n = name) \/ nick_of c st = Some n.
Proof.
  unfold nick_of. rewrite install_nick_clients.
  destruct (Nat.eq_dec c w) as [->|Hc].
  - rewrite dict_get_set_eq. intros [= <-]. now left.
  - rewrite dict_get_set_neq by exact Hc. now right.
Qed.

Lemma keys_of_install k w name st :
  In k (dict_keys (nick_to_writer (install_nick w name st))) ->
  k = name \/ In k (dict_keys (nick_to_writer st)).
Proof.
  intros H. unfold install_nick in H. simpl in H.
  apply dict_keys_set in H. destruct H as [->|H]; [now left|right].
  destruct (nick_of w st) as [o|]; [destruct (truthy_str o)|]; simpl in H; auto.
  apply dict_keys_pop in H. apply H.
Qed.

Lemma words_init : names_are_words init_state.
Proof. split; [intros n []|intros w n H; discriminate H]. Qed.

Lemma words_shrinks a b : shrinks a b -> names_are_words a -> names_are_words b.
Proof.
  intros Sh [Hd Hr]. split.
  - intros n Hn. apply Hd. now apply (sh_nicks Sh).
  - intros w n Hn. apply (Hr w). now apply (sh_nick_of Sh).
Qed.

Lemma words_open w st :
  names_are_words st ->
  names_are_words (set_clients (dict_set Nat.eq_dec w None (clients st)) st).
Proof.
  intros [Hd Hr]. split; [exact Hd|].
  intros c n. unfold nick_of. cbn [set_clients clients].
  destruct (Nat.eq_dec c w) as [->|Hc].
  - rewrite dict_get_set_eq. discriminate.
  - rewrite dict_get_set_neq by exact Hc. apply Hr.
Qed.

Lemma words_install w name st :
  is_word name = true -> name <> [] ->
  name_taken lower name (nick_to_writer st) = false ->
  names_are_words st -> names_are_words (install_nick w name st).
Proof.
  intros W Ne _ [Hd Hr]. split.
  - intros n Hn. apply keys_of_install in Hn. destruct Hn as [->|Hn]; auto.
  - intros c n Hn. apply nick_of_install in Hn.
    destruct Hn as [[_ ->]|Hn]; [auto|now apply (Hr c)].
Qed.

Lemma nicknames_are_words_aux st :
  reachable lower write_fails clock st -> names_are_words st.
Proof.
  apply (@invariant_reachable lower write_fails clock names_are_words
           words_init words_shrinks words_open words_install).
Qed.

Lemma distinct_init : distinct_names lower init_state.
Proof. intros n1 n2 []. Qed.

Lemma distinct_shrinks a b :
  shrinks a b -> distinct_names lower a -> distinct_names lower b.
Proof.
  intros Sh H n1 n2 H1 H2. apply H; now apply (sh_nicks Sh).
Qed.

Lemma distinct_open w st :
  distinct_names lower st ->
  distinct_names lower (set_clients (dict_set Nat.eq_dec w None (clients st)) st).
Proof. intros H. exact H. Qed.

Lemma distinct_install w name st :
  is_word name = true -> name <> [] ->
  name_taken lower name (nick_to_writer st) = false ->
  distinct_names lower st -> distinct_names lower (install_nick w name st).
Proof.
  intros _ _ Tk H n1 n2 H1 H2 E.
  pose proof (proj1 (name_taken_false lower name (nick_to_writer st)) Tk) as Free.
  apply keys_of_install in H1. apply keys_of_install in H2.
  destruct H1 as [->|H1]; destruct H2 as [->|H2]; auto.
  - exfalso. now apply (Free n2 H2).
  - exfalso. apply (Free n1 H1). now symmetry.
Qed.

(** The part of the invariant that no interleaving breaks: in every state
    of every run, two directory entries whose nicknames are equal up to
    letter case are one entry, so the directory never gives one nickname to
    two connections. *)
Lemma names_stay_distinct st n1 n2 w1 w2 :
  reachable lower write_fails clock st ->
  dict_get str_eq_dec n1 (nick_to_writer st) = Some w1 ->
  dict_get str_eq_dec n2 (nick_to_writer st) = Some w2 ->
  lower n1 = lower n2 -> w1 = w2.
Proof.
  intros Hr H1 H2 E.
  pose proof (@invariant_reachable lower write_fails clock (distinct_names lower)
                distinct_init distinct_shrinks distinct_open distinct_install
                st Hr) as D.
  assert (n1 = n2) as ->.
  { apply D; auto; eapply dict_get_some_key; eauto. }
  congruence.
Qed.

(** X14 -- every nickname the directory ever holds is a non-empty string
    without whitespace: names enter it only as the first argument of a
    split command line. *)
Theorem nicknames_are_words st n :
  reachable lower write_fails clock st ->
  In n (dict_keys (nick_to_writer st)) ->
  is_word n = true /\ n <> [].
Proof. intros Hr. apply (proj1 (nicknames_are_words_aux Hr)). Qed.

Lemma lstrip_word_app a r : is_word a = true -> a <> [] -> lstrip (a ++ r) = a ++ r.
Proof.
  destruct a as [|c t]; [congruence|]. simpl. intros H _.
  apply andb_prop in H. destruct H as [Hc _]. now destruct (isspace c).
Qed.

(** A command word, an argument word and a text put together with single
    spaces are the three parts [split] finds; the text is not touched. *)
Lemma split_command a b c t :
  is_word a = true -> a <> [] -> is_word b = true -> b <> [] ->
  isspace c = false ->
  split_ws 2 (a ++ 32%N :: b ++ 32%N :: c :: t) = [a; b; c :: t].
Proof.
  intros Wa Na Wb Nb Hc.
  change (split_ws 2 (a ++ 32%N :: b ++ 32%N :: c :: t))
    with (match lstrip (a ++ 32%N :: b ++ 32%N :: c :: t) with
          | [] => []
          | r => let (w, rest) := span_word r in w :: split_ws 1 rest
          end).
  rewrite (@lstrip_word_app a (32%N :: b ++ 32%N :: c :: t) Wa Na).
  destruct a as [|a0 a']; [congruence|].
  change ((a0 :: a') ++ 32%N :: b ++ 32%N :: c :: t)
    with (a0 :: (a' ++ 32%N :: b ++ 32%N :: c :: t)).
  cbv iota.
  change (a0 :: (a' ++ 32%N :: b ++ 32%N :: c :: t))
    with ((a0 :: a') ++ 32%N :: b ++ 32%N :: c :: t).
  rewrite (@span_word_app (a0 :: a') (b ++ 32%N :: c :: t) Wa). f_equal.
  change (split_ws 1 (32%N :: b ++ 32%N :: c :: t))
    with (match lstrip (b ++ 32%N :: c :: t) with
          | [] => []
          | r => let (w, rest) := span_word r in w :: split_ws 0 rest
          end).
  rewrite (@lstrip_word_app b (32%N :: c :: t) Wb Nb).
  destruct b as [|b0 b']; [congruence|].
  change ((b0 :: b') ++ 32%N :: c :: t) with (b0 :: (b' ++ 32%N :: c :: t)).
  cbv iota.
  change (b0 :: (b' ++ 32%N :: c :: t)) with ((b0 :: b') ++ 32%N :: c :: t).
  rewrite (@span_word_app (b0 :: b') (c :: t) Wb). f_equal.
  simpl. now rewrite Hc.
Qed.

(** X15 -- whoever is in the directory can be written to: for a nickname
    [n] of a reachable state and a text that does not start with
    whitespace, the line "/msg n text" splits into exactly these parts, so
    the connection of [n] is sent the text as typed, inner and trailing
    spaces included, and the sender gets the echo. *)
Theorem every_nickname_can_be_messaged w s n tw c t st :
  reachable lower write_fails clock st ->
  lower (u "/msg") = u "/msg" ->
  nick_of w st = Some s ->
  dict_get str_eq_dec n (nick_to_writer st) = Some tw ->
  locked st = false ->
  isspace c = false ->
  let text := c :: t in
  let line := u "/msg" ++ 32%N :: n ++ 32%N :: text in
  split_ws 2 line = [u "/msg"; n; text] /\
  handle_command lower write_fails clock w line st =
    send_line write_fails clock w (msg_pm_echo n text)
      (emit (if write_fails (S (tick st)) tw
             then SendFailed tw (msg_pm (clock (tick st)) s text)
             else Sent tw (msg_pm (clock (tick st)) s text))
            (advance (advance st))).
Proof.
  intros Hr Cl Hs Hn L Hc text line.
  destruct (nicknames_are_words_aux Hr) as [Hdir Hreg].
  destruct (Hdir n) as [Wn Nn].
  { eapply dict_get_some_key; eauto. }
  assert (split_ws 2 line = [u "/msg"; n; text]) as P.
  { subst line text. apply split_command; auto; discriminate. }
  split; [exact P|].
  assert (truthy_str s = true) as T.
  { apply truthy_str_true. exact (proj2 (Hreg w s Hs)). }
  rewrite (handle_command_msg lower write_fails clock w line st P Cl).
  subst text.
  rewrite (@cmd_msg_lookup write_fails clock w _ _ _ s st Hs T L).
  now rewrite Hn.
Qed.

End Words.

(** ** Encoding and decoding are inverse *)

From Stdlib Require Import ZifyBool ZifyN.

Ltac Zify.zify_post_hook ::= Z.div_mod_to_equations.

Section Encoding.

Lemma decode_step_1 b0 rest :
  (b0 <? 128)%N = true -> decode_step (b0 :: rest) = Some (b0, rest).
Proof. intros H. cbn [decode_step]. now rewrite H. Qed.

Lemma decode_step_2 b0 b1 rest :
  ok2 b0 b1 = true -> decode_step (b0 :: b1 :: rest) = Some (cp2 b0 b1, rest).
Proof.
  intros H. cbn [decode_step]. rewrite H.
  assert ((b0 <? 128)%N = false) as ->; [|reflexivity].
  unfold ok2 in H. lia.
Qed.

Lemma decode_step_3 b0 b1 b2 rest :
  ok3 b0 b1 b2 = true ->
  decode_step (b0 :: b1 :: b2 :: rest) = Some (cp3 b0 b1 b2, rest).
Proof.
  intros H. cbn [decode_step]. rewrite H.
  assert ((b0 <? 128)%N = false) as -> by (unfold ok3 in H; lia).
  assert (ok2 b0 b1 = false) as ->; [|reflexivity].
  unfold ok3 in H. unfold ok2. lia.
Qed.

Lemma decode_step_4 b0 b1 b2 b3 rest :
  ok4 b0 b1 b2 b3 = true ->
  decode_step (b0 :: b1 :: b2 :: b3 :: rest) = Some (cp4 b0 b1 b2 b3, rest).
Proof.
  intros H. cbn [decode_step]. rewrite H.
  assert ((b0 <? 128)%N = false) as -> by (unfold ok4 in H; lia).
  assert (ok2 b0 b1 = false) as -> by (unfold ok4 in H; unfold ok2; lia).
  assert (ok3 b0 b1 b2 = false) as ->; [|reflexivity].
  unfold ok4 in H. unfold ok3. lia.
Qed.

(** The bytes of a code point are a well-formed sequence that decodes to
    it. *)
Lemma decode_step_encode c enc rest :
  encode_cp c = Some enc -> decode_step (enc ++ rest) = Some (c, rest).
Proof.
  unfold encode_cp.
  destruct (c <? 128)%N eqn:H1.
  { intros H. assert (enc = [c]) as -> by congruence. now apply decode_step_1. }
  destruct (c <? 2048)%N eqn:H2.
  { intros H.
    assert (enc = [192 + c / 64; 128 + c mod 64]%N) as -> by congruence.
    change (decode_step ((192 + c / 64)%N :: (128 + c mod 64)%N :: rest)
            = Some (c, rest)).
    rewrite decode_step_2 by (unfold ok2, is_cont; lia).
    f_equal. f_equal. unfold cp2. lia. }
  destruct (c <? 65536)%N eqn:H3.
  { destruct ((55296 <=? c) && (c <=? 57343))%N eqn:H4; [discriminate|].
    intros H.
    assert (enc = [224 + c / 4096; 128 + (c / 64) mod 64; 128 + c mod 64]%N) as ->
        by congruence.
    change (decode_step ((224 + c / 4096)%N :: (128 + (c / 64) mod 64)%N ::
                         (128 + c mod 64)%N :: rest) = Some (c, rest)).
    rewrite decode_step_3 by (unfold ok3, is_cont; lia).
    f_equal. f_equal. unfold cp3. lia. }
  destruct (c <? 1114112)%N eqn:H4; [|discriminate].
  intros H.
  assert (enc = [240 + c / 262144; 128 + (c / 4096) mod 64; 128 + (c / 64) mod 64;
                 128 + c mod 64]%N) as -> by congruence.
  change (decode_step ((240 + c / 262144)%N :: (128 + (c / 4096) mod 64)%N ::
                       (128 + (c / 64) mod 64)%N :: (128 + c mod 64)%N :: rest)
          = Some (c, rest)).
  rewrite decode_step_4 by (unfold ok4, is_cont; lia).
  f_equal. f_equal. unfold cp4. lia.
Qed.

Lemma encode_cp_nonempty c enc : encode_cp c = Some enc -> enc <> [].
Proof.
  unfold encode_cp.
  repeat match goal with
         | |- context [if ?b then _ else _] => destruct b
         end; intros H E; subst; discriminate.
Qed.

Lemma encode_cp_2 b0 b1 : ok2 b0 b1 = true -> encode_cp (cp2 b0 b1) = Some [b0; b1].
Proof.
  intros H. unfold ok2, is_cont in H. unfold encode_cp.
  assert ((cp2 b0 b1 <? 128)%N = false) as -> by (unfold cp2; lia).
  assert ((cp2 b0 b1 <? 2048)%N = true) as -> by (unfold cp2; lia).
  f_equal. f_equal; [|f_equal]; unfold cp2; lia.
Qed.

Lemma encode_cp_3 b0 b1 b2 :
  ok3 b0 b1 b2 = true -> encode_cp (cp3 b0 b1 b2) = Some [b0; b1; b2].
Proof.
  intros H. unfold ok3, is_cont in H. unfold encode_cp.
  assert ((cp3 b0 b1 b2 <? 128)%N = false) as -> by (unfold cp3; lia).
  assert ((cp3 b0 b1 b2 <? 2048)%N = false) as -> by (unfold cp3; lia).
  assert ((cp3 b0 b1 b2 <? 65536)%N = true) as -> by (unfold cp3; lia).
  assert (((55296 <=? cp3 b0 b1 b2) && (cp3 b0 b1 b2 <=? 57343))%N = false) as ->
      by (unfold cp3; lia).
  f_equal. f_equal; [|f_equal; [|f_equal]]; unfold cp3; lia.
Qed.

Lemma encode_cp_4 b0 b1 b2 b3 :
  ok4 b0 b1 b2 b3 = true -> encode_cp (cp4 b0 b1 b2 b3) = Some [b0; b1; b2; b3].
Proof.
  intros H. unfold ok4, is_cont in H. unfold encode_cp.
  assert ((cp4 b0 b1 b2 b3 <? 128)%N = false) as -> by (unfold cp4; lia).
  assert ((cp4 b0 b1 b2 b3 <? 2048)%N = false) as -> by (unfold cp4; lia).
  assert ((cp4 b0 b1 b2 b3 <? 65536)%N = false) as -> by (unfold cp4; lia).
  assert ((cp4 b0 b1 b2 b3 <? 1114112)%N = true) as -> by (unfold cp4; lia).
  f_equal. f_equal; [|f_equal; [|f_equal; [|f_equal]]]; unfold cp4; lia.
Qed.

(** A well-formed sequence is the encoding of the code point it decodes
    to: the decoder accepts no second spelling. *)
Lemma decode_step_canonical bs c rest :
  decode_step bs = Some (c, rest) ->
  exists enc, encode_cp c = Some enc /\ bs = enc ++ rest.
Proof.
  destruct bs as [|b0 t0]; [discriminate|]. cbn [decode_step].
  destruct (b0 <? 128)%N eqn:H0.
  { intros [= <- <-]. exists [b0]. unfold encode_cp. now rewrite H0. }
  destruct t0 as [|b1 t1]; [discriminate|].
  destruct (ok2 b0 b1) eqn:O2.
  { intros [= <- <-]. exists [b0; b1]. split; [now apply encode_cp_2|reflexivity]. }
  destruct t1 as [|b2 t2]; [discriminate|].
  destruct (ok3 b0 b1 b2) eqn:O3.
  { intros [= <- <-]. exists [b0; b1; b2].
    split; [now apply encode_cp_3|reflexivity]. }
  destruct t2 as [|b3 t3]; [discriminate|].
  destruct (ok4 b0 b1 b2 b3) eqn:O4; [|discriminate].
  intros [= <- <-]. exists [b0; b1; b2; b3].
  split; [now apply encode_cp_4|reflexivity].
Qed.

Lemma decode_ignore_cons b t :
  decode_ignore (b :: t) =
  match decode_step (b :: t) with
  | Some (c, rest) => c :: decode_ignore rest
  | None => decode_ignore t
  end.
Proof.
  unfold decode_ignore. rewrite decode_with_cons.
  destruct (decode_step (b :: t)) as [[c rest]|]; [|reflexivity].
  destruct (@decode_ignore_defined (List.length rest) rest (le_n _)) as [x Hx].
  now rewrite Hx.
Qed.

Lemma decode_strict_encode s :
  forall bs, encode s = Some bs -> decode_with Strict bs = Some s.
Proof.
  induction s as [|c t IH]; cbn [encode]; intros bs H.
  - now inversion H.
  - destruct (encode_cp c) as [a|] eqn:Ec; [|discriminate].
    destruct (encode t) as [b|] eqn:Et; [|discriminate].
    inversion H; subst. clear H.
    pose proof (encode_cp_nonempty _ Ec) as Ne.
    pose proof (@decode_step_encode c a b Ec) as Hd.
    destruct a as [|a0 a']; [congruence|].
    change ((a0 :: a') ++ b) with (a0 :: (a' ++ b)) in *.
    rewrite decode_with_cons, Hd, (IH b eq_refl). reflexivity.
Qed.

Lemma encode_decode_strict n :
  forall bs s, List.length bs <= n ->
               decode_with Strict bs = Some s -> encode s = Some bs.
Proof.
  induction n as [|n IH]; intros [|b t] s Hl; simpl in Hl; try lia;
    try (simpl; intros H; inversion H; reflexivity).
  rewrite decode_with_cons.
  destruct (decode_step (b :: t)) as [[c r]|] eqn:E; [|discriminate].
  destruct (decode_with Strict r) as [s'|] eqn:D; [|discriminate].
  simpl. intros H. inversion H; subst. clear H.
  pose proof (decode_step_shorter _ E) as Hs. simpl in Hs.
  destruct (decode_step_canonical _ E) as [enc [Ec Eb]].
  cbn [encode]. rewrite Ec, (IH r s'); [|lia|exact D]. now rewrite Eb.
Qed.

Lemma decoded_is_encodable n :
  forall bs, List.length bs <= n ->
             exists out, encode (decode_ignore bs) = Some out.
Proof.
  induction n as [|n IH]; intros [|b t] Hl; simpl in Hl; try lia;
    try (exists []; reflexivity).
  rewrite decode_ignore_cons.
  destruct (decode_step (b :: t)) as [[c r]|] eqn:E.
  - pose proof (decode_step_shorter _ E) as Hs. simpl in Hs.
    destruct (decode_step_canonical _ E) as [enc [Ec _]].
    destruct (IH r) as [out Ho]; [lia|].
    exists (enc ++ out). cbn [encode]. now rewrite Ec, Ho.
  - apply IH. lia.
Qed.

Lemma encode_app a b :
  encode (a ++ b) =
  match encode a, encode b with
  | Some x, Some y => Some (x ++ y)
  | _, _ => None
  end.
Proof.
  induction a as [|c t IH]; cbn [encode app].
  - now destruct (encode b).
  - rewrite IH. destruct (encode_cp c) as [e|]; [|reflexivity].
    destruct (encode t) as [x|]; [|reflexivity].
    destruct (encode b) as [y|]; [|reflexivity].
    now rewrite app_assoc.
Qed.

Lemma encode_nonempty s bs : encode s = Some bs -> s <> [] -> bs <> [].
Proof.
  destruct s as [|c t]; [congruence|]. cbn [encode].
  destruct (encode_cp c) as [a|] eqn:Ec; [|discriminate].
  destruct (encode t) as [b|]; [|discriminate].
  intros [= <-] _ E. apply app_eq_nil in E.
  now apply (encode_cp_nonempty _ Ec).
Qed.

(** No byte of an encoded text is a line feed, unless the text holds one. *)
Lemma encode_cp_no_lf c enc :
  encode_cp c = Some enc -> (c =? 10)%N = false ->
  forallb (fun b => negb (b =? 10)%N) enc = true.
Proof.
  unfold encode_cp. intros H Hc.
  destruct (c <? 128)%N.
  { assert (enc = [c]) as -> by congruence. cbn [forallb]. now rewrite Hc. }
  destruct (c <? 2048)%N.
  { assert (enc = [192 + c / 64; 128 + c mod 64]%N) as -> by congruence.
    cbn [forallb]. lia. }
  destruct (c <? 65536)%N.
  { destruct ((55296 <=? c) && (c <=? 57343))%N; [discriminate|].
    assert (enc = [224 + c / 4096; 128 + (c / 64) mod 64; 128 + c mod 64]%N) as ->
        by congruence.
    cbn [forallb]. lia. }
  destruct (c <? 1114112)%N; [|discriminate].
  assert (enc = [240 + c / 262144; 128 + (c / 4096) mod 64; 128 + (c / 64) mod 64;
                 128 + c mod 64]%N) as -> by congruence.
  cbn [forallb]. lia.
Qed.

Lemma encode_no_lf s :
  forall bs, encode s = Some bs -> contains_char 10 s = false ->
             forallb (fun b => negb (b =? 10)%N) bs = true.
Proof.
  induction s as [|c t IH]; cbn [encode contains_char]; intros bs H Hc.
  - now inversion H.
  - destruct (encode_cp c) as [a|] eqn:Ec; [|discriminate].
    destruct (encode t) as [b|] eqn:Et; [|discriminate].
    inversion H; subst. apply orb_false_elim in Hc. destruct Hc as [Hc Ht].
    rewrite forallb_app, (encode_cp_no_lf _ Ec Hc), (IH b eq_refl Ht). reflexivity.
Qed.

Lemma readline_app pre rest :
  forallb (fun b => negb (b =? 10)%N) pre = true ->
  readline (pre ++ 10%N :: rest) = (pre ++ [10%N], rest).
Proof.
  induction pre as [|b t IH]; cbn [forallb app readline]; [reflexivity|].
  intros H. apply andb_prop in H. destruct H as [Hb Ht].
  apply negb_true_iff in Hb. rewrite Hb, (IH Ht). reflexivity.
Qed.

Lemma encode_then_decode_aux s bs :
  encode s = Some bs ->
  decode_with Strict bs = Some s /\ decode_ignore bs = s.
Proof.
  intros H. pose proof (decode_strict_encode _ H) as D.
  split; [exact D|]. unfold decode_ignore.
  now rewrite (@decode_strict_agrees (List.length bs) bs s (le_n _) D).
Qed.

(** X16 -- what [encode] produces, [decode] reads back: the bytes of a text
    are well-formed UTF-8, the strict decoder and the one that ignores
    errors both return the text, so a line arrives as it was sent. *)
Theorem encode_then_decode s bs :
  encode s = Some bs ->
  decode_with Strict bs = Some s /\ decode_ignore bs = s.
Proof. apply encode_then_decode_aux. Qed.

(** X17 -- the decoder accepts one spelling of a text only: bytes that
    decode without error are exactly the bytes [encode] gives for the
    decoded text. *)
Theorem decode_then_encode bs s :
  decode_with Strict bs = Some s -> encode s = Some bs.
Proof. apply (@encode_decode_strict (List.length bs)), le_n. Qed.

(** X18 -- a received line can always be sent on: whatever the bytes,
    [encode] does not raise on the text [decode(errors="ignore")] returns
    (no surrogate is ever decoded), and its bytes decode to that text
    again. *)
Theorem received_text_is_encodable bs :
  exists out, encode (decode_ignore bs) = Some out /\
              decode_ignore out = decode_ignore bs.
Proof.
  destruct (@decoded_is_encodable (List.length bs) bs (le_n _)) as [out Ho].
  exists out. split; [exact Ho|]. pose proof (decode_strict_encode _ Ho) as D.
  unfold decode_ignore at 1.
  now rewrite (@decode_strict_agrees (List.length out) out _ (le_n _) D).
Qed.

End Encoding.

(** ** The client *)

Section ClientRun.
Variable lower : str -> str.
Variable write_fails : nat -> bool.

Lemma rstrip_nothing line : rstrip_by (fun c => contains_char c []) line = line.
Proof.
  induction line as [|c t IH]; cbn [rstrip_by]; [reflexivity|].
  rewrite IH. destruct t; reflexivity.
Qed.

Lemma stdin_reader_cons line rest :
  line <> [] ->
  Client.stdin_reader (line :: rest) = line :: Client.stdin_reader rest.
Proof.
  intros Ne. cbn [Client.stdin_reader].
  rewrite (proj2 (str_eqb_false line []) Ne). now rewrite rstrip_nothing.
Qed.

Lemma stdin_reader_eof rest : Client.stdin_reader ([] :: rest) = [u "/quit"].
Proof. reflexivity. Qed.

(** The empty-line test of the loop never fires on what [stdin_reader]
    queues. *)
Lemma stdin_reader_nonempty input line :
  In line (Client.stdin_reader input) -> line <> [].
Proof.
  induction input as [|l rest IH]; [intros []|].
  destruct l as [|c t].
  - rewrite stdin_reader_eof. intros [<-|[]]. discriminate.
  - rewrite stdin_reader_cons by discriminate. intros [<-|H]; [discriminate|auto].
Qed.

Lemma main_loop_quit t :
  lower (u "/quit") = u "/quit" ->
  Client.main_loop lower write_fails t [u "/quit"] =
  if write_fails t
  then (Client.Failed, S t, [Client.WriteFailed (u "/quit" ++ nl)])
  else (Client.Broke, S t, [Client.Written (u "/quit" ++ nl)]).
Proof.
  intros Hq. cbn [Client.main_loop].
  change (strip (u "/quit")) with (u "/quit"). rewrite Hq.
  change (negb (truthy_str (u "/quit"))) with false.
  change (str_eqb (u "/quit") (u "/help")) with false.
  change (str_eqb (u "/quit") (u "/quit")) with true.
  change (encode (u "/quit" ++ nl)) with (Some (u "/quit" ++ nl)).
  cbv iota. now destruct (write_fails t).
Qed.

Lemma main_loop_fed :
  lower (u "/quit") = u "/quit" ->
  forall input t,
    existsb (ends_session lower) input = true ->
    fst (fst (Client.main_loop lower write_fails t (Client.stdin_reader input)))
    <> Client.Starved.
Proof.
  intros Hq. induction input as [|line rest IH]; intros t H; [discriminate|].
  destruct line as [|c l].
  { rewrite stdin_reader_eof, (main_loop_quit t Hq).
    now destruct (write_fails t). }
  rewrite stdin_reader_cons by discriminate.
  cbn [existsb] in H. unfold ends_session at 1 in H.
  change (str_eqb (c :: l) []) with false in H. cbn [orb] in H.
  cbn [Client.main_loop]. change (negb (truthy_str (c :: l))) with false. cbv iota.
  destruct (str_eqb (lower (strip (c :: l))) (u "/help")) eqn:Eh.
  { apply str_eqb_true in Eh. rewrite Eh in H.
    change (str_eqb (u "/help") (u "/quit")) with false in H. cbn [orb] in H.
    specialize (IH t H).
    destruct (Client.main_loop lower write_fails t (Client.stdin_reader rest))
      as [[e t'] evs]. exact IH. }
  destruct (encode ((c :: l) ++ nl)) as [data|]; [|discriminate].
  destruct (write_fails t); [discriminate|].
  destruct (str_eqb (lower (strip (c :: l))) (u "/quit")) eqn:Eq; [discriminate|].
  cbn [orb] in H. specialize (IH (S t) H).
  destruct (Client.main_loop lower write_fails (S t) (Client.stdin_reader rest))
    as [[e t'] evs]. exact IH.
Qed.

Lemma main_loop_never_closes queue :
  forall t, filter is_close (snd (Client.main_loop lower write_fails t queue)) = [].
Proof.
  induction queue as [|line rest IH]; intros t; [reflexivity|].
  cbn [Client.main_loop].
  destruct (negb (truthy_str line)); [apply IH|].
  destruct (str_eqb (lower (strip line)) (u "/help")).
  { specialize (IH t).
    destruct (Client.main_loop lower write_fails t rest) as [[e t'] evs]. exact IH. }
  destruct (encode (line ++ nl)) as [data|]; [|reflexivity].
  destruct (write_fails t); [reflexivity|].
  destruct (str_eqb (lower (strip line)) (u "/quit")); [reflexivity|].
  specialize (IH (S t)).
  destruct (Client.main_loop lower write_fails (S t) rest) as [[e t'] evs]. exact IH.
Qed.

Lemma session_shape close_fails t queue :
  fst (Client.session lower write_fails close_fails t queue) <> Client.Waiting ->
  exists pre t',
    snd (Client.session lower write_fails close_fails t queue) =
      pre ++ Client.write_drain write_fails t' (u "/quit" ++ nl)
          :: Client.WriterClosed
          :: (if close_fails then []
              else [Client.Stdout (u "[INFO] Disconnected" ++ nl)]) /\
    filter is_close pre = [].
Proof.
  unfold Client.session. pose proof (main_loop_never_closes queue t) as Hc.
  destruct (Client.main_loop lower write_fails t queue) as [[e t'] evs].
  cbn [snd] in Hc. unfold Client.finally.
  destruct e; destruct close_fails; cbn [fst snd]; intros H;
    try congruence; exists evs, t'; auto.
Qed.

(** X19 -- the client does not outlive its input: once standard input
    reaches its end, or a line that reads [/quit] is typed, [run_client]
    ends, by returning or by an exception, whatever the writes do; the loop
    is never left waiting on the queue. *)
Theorem client_session_ends connect_error close_fails host port nick input :
  lower (u "/quit") = u "/quit" ->
  existsb (ends_session lower) input = true ->
  fst (Client.run_client lower write_fails connect_error close_fails
                         host port nick input) <> Client.Waiting.
Proof.
  intros Hq H.
  assert (forall t, fst (Client.session lower write_fails close_fails t
                                        (Client.stdin_reader input))
                    <> Client.Waiting) as Hs.
  { intros t. unfold Client.session. pose proof (main_loop_fed Hq input t H) as F.
    destruct (Client.main_loop lower write_fails t (Client.stdin_reader input))
      as [[e t'] evs]. cbn [fst] in F. unfold Client.finally.
    destruct e; destruct close_fails; cbn [fst]; congruence. }
  unfold Client.run_client. destruct connect_error; [discriminate|].
  destruct (truthy nick).
  - destruct (encode _); [|discriminate].
    destruct (write_fails 0); [discriminate|].
    specialize (Hs 1).
    destruct (Client.session lower write_fails close_fails 1
                             (Client.stdin_reader input)). exact Hs.
  - specialize (Hs 0).
    destruct (Client.session lower write_fails close_fails 0
                             (Client.stdin_reader input)). exact Hs.
Qed.

(** X20 -- a session that ends closes the socket exactly once, after a last
    attempt to write [/quit], with one exception: when the write of the
    nickname given on the command line raises, which happens before the
    [try], the socket is not closed at all. *)
Theorem client_closes_socket_once close_fails host port nick input :
  let res := Client.run_client lower write_fails None close_fails
                               host port nick input in
  fst res <> Client.Waiting ->
  List.length (filter is_close (snd res)) =
    (if nick_write_raises write_fails nick then 0 else 1) /\
  (nick_write_raises write_fails nick = false ->
   exists pre t,
     snd res = pre ++ Client.write_drain write_fails t (u "/quit" ++ nl)
                   :: Client.WriterClosed
                   :: (if close_fails then []
                       else [Client.Stdout (u "[INFO] Disconnected" ++ nl)]) /\
     filter is_close pre = []).
Proof.
  intros res. subst res. unfold Client.run_client, nick_write_raises.
  assert (forall (l : list Client.event),
             filter is_close
                    (if close_fails then []
                     else [Client.Stdout (u "[INFO] Disconnected" ++ nl)]) = [])
    as Ht by (intros _; now destruct close_fails).
  assert (forall t pre,
             filter is_close pre = [] ->
             List.length
               (filter is_close
                  (pre ++ Client.write_drain write_fails t (u "/quit" ++ nl)
                       :: Client.WriterClosed
                       :: (if close_fails then []
                           else [Client.Stdout (u "[INFO] Disconnected" ++ nl)])))
             = 1) as Hcount.
  { intros t pre Hp. rewrite filter_app, Hp. cbn [app filter].
    unfold Client.write_drain. destruct (write_fails t); cbn [is_close];
      now rewrite (Ht []). }
  destruct (truthy nick); cbn [andb].
  - destruct (encode _) as [data|]; [|cbn; intros _; split; [reflexivity|discriminate]].
    destruct (write_fails 0) eqn:F0;
      [cbn; intros _; split; [reflexivity|discriminate]|].
    pose proof (session_shape close_fails 1 (Client.stdin_reader input)) as Sh.
    destruct (Client.session lower write_fails close_fails 1
                             (Client.stdin_reader input)) as [e evs].
    cbn [fst snd] in *. intros Hw. destruct (Sh Hw) as [pre [t' [E Hp]]].
    subst evs. split.
    + change (List.length
                (filter is_close
                   (pre ++ Client.write_drain write_fails t' (u "/quit" ++ nl)
                        :: Client.WriterClosed
                        :: (if close_fails then []
                            else [Client.Stdout (u "[INFO] Disconnected" ++ nl)])))
              = 1). now apply Hcount.
    + intros _. eexists (_ :: _ :: pre), t'. split; [reflexivity|exact Hp].
  - pose proof (session_shape close_fails 0 (Client.stdin_reader input)) as Sh.
    destruct (Client.session lower write_fails close_fails 0
                             (Client.stdin_reader input)) as [e evs].
    cbn [fst snd] in *. intros Hw. destruct (Sh Hw) as [pre [t' [E Hp]]].
    subst evs. split.
    + change (List.length
                (filter is_close
                   (pre ++ Client.write_drain write_fails t' (u "/quit" ++ nl)
                        :: Client.WriterClosed
                        :: (if close_fails then []
                            else [Client.Stdout (u "[INFO] Disconnected" ++ nl)])))
              = 1). now apply Hcount.
    + intros _. eexists (_ :: pre), t'. split; [reflexivity|exact Hp].
Qed.

(** X21 -- [/help] is answered by the client itself: every write the loop
    makes carries a line of the queue, with one more line feed, and that
    line is not empty and does not read [/help]. *)
Theorem help_is_answered_locally t queue d :
  In (Client.Written d) (snd (Client.main_loop lower write_fails t queue)) \/
  In (Client.WriteFailed d) (snd (Client.main_loop lower write_fails t queue)) ->
  exists line,
    In line queue /\ line <> [] /\
    lower (strip line) <> u "/help" /\
    encode (line ++ nl) = Some d.
Proof.
  revert t. induction queue as [|line rest IH]; intros t; [intros [[]|[]]|].
  assert (forall t', In (Client.Written d)
                        (snd (Client.main_loop lower write_fails t' rest)) \/
                     In (Client.WriteFailed d)
                        (snd (Client.main_loop lower write_fails t' rest)) ->
                     exists l, In l (line :: rest) /\ l <> [] /\
                               lower (strip l) <> u "/help" /\
                               encode (l ++ nl) = Some d) as IH'.
  { intros t' H. destruct (IH t' H) as [l [I R]]. exists l. split; [now right|exact R]. }
  cbn [Client.main_loop].
  destruct (negb (truthy_str line)) eqn:Tr; [apply IH'|].
  apply negb_false_iff, truthy_str_true in Tr.
  destruct (str_eqb (lower (strip line)) (u "/help")) eqn:Eh.
  { pose proof (IH' t) as IHt.
    destruct (Client.main_loop lower write_fails t rest) as [[e t'] evs].
    cbn [snd] in *. intros [[H|H]|[H|H]]; try discriminate; auto. }
  apply str_eqb_false in Eh.
  assert (forall data, encode (line ++ nl) = Some data -> data = d ->
                       exists l, In l (line :: rest) /\ l <> [] /\
                                 lower (strip l) <> u "/help" /\
                                 encode (l ++ nl) = Some d) as Here.
  { intros data E <-. exists line. split; [now left|auto]. }
  destruct (encode (line ++ nl)) as [data|] eqn:En; [|intros [[]|[]]].
  destruct (write_fails t).
  { cbn [snd]. intros [[H|[]]|[H|[]]]; [discriminate|].
    apply (Here data eq_refl). congruence. }
  destruct (str_eqb (lower (strip line)) (u "/quit")).
  { cbn [snd]. intros [[H|[]]|[H|[]]]; [|discriminate].
    apply (Here data eq_refl). congruence. }
  pose proof (IH' (S t)) as IHt.
  destruct (Client.main_loop lower write_fails (S t) rest) as [[e t'] evs].
  cbn [snd] in *. intros [[H|H]|[H|H]]; try discriminate; auto.
  apply (Here data eq_refl). congruence.
Qed.

End ClientRun.

(** ** From the keyboard to the handler, and from the server to the screen *)

Section EndToEnd.
Variable lower : str -> str.
Variable client_write_fails : nat -> bool.
Variable write_fails : nat -> conn -> bool.
Variable clock : nat -> str.

Lemma client_step_line w b raw st :
  client_step lower write_fails clock w (Data (b :: raw)) st =
  handle_line lower write_fails clock w
              (rstrip_by is_crlf (decode_ignore (b :: raw))) st.
Proof. reflexivity. Qed.

(** X22 -- a typed line on its way to the server.  [readline] returns the
    text with its line feed, [stdin_reader] strips nothing, and the loop
    adds a line feed of its own: the bytes sent end in two line feeds.  The
    server reads them as two lines: the first is handled as the text typed
    (without its trailing CR and LF characters), the second is empty and
    skipped. *)
Theorem typed_line_reaches_server text bs rest t w st :
  encode text = Some bs ->
  contains_char 10 text = false ->
  lower (strip (text ++ nl)) <> u "/help" ->
  lower (strip (text ++ nl)) <> u "/quit" ->
  client_write_fails t = false ->
  let sent := bs ++ [10; 10]%N in
  Client.main_loop lower client_write_fails t
                   (Client.stdin_reader ((text ++ nl) :: rest)) =
    (let '(e, t', evs) :=
       Client.main_loop lower client_write_fails (S t) (Client.stdin_reader rest) in
     (e, t', Client.Written sent :: evs)) /\
  readline sent = (bs ++ [10]%N, [10]%N) /\
  client_step lower write_fails clock w (Data (bs ++ [10]%N)) st =
    handle_line lower write_fails clock w (rstrip_by is_crlf text) st /\
  forall st', client_step lower write_fails clock w (Data [10]%N) st' =
              (Ok Continue, st').
Proof.
  intros He Hc Hh Hq Hw sent.
  assert (text ++ nl <> []) as Ne by (intros E; now apply app_eq_nil in E).
  split; [|split; [|split]].
  - rewrite (stdin_reader_cons rest Ne). cbn [Client.main_loop].
    rewrite (proj2 (truthy_str_true _) Ne). cbn [negb].
    rewrite (proj2 (str_eqb_false _ _) Hh), (proj2 (str_eqb_false _ _) Hq).
    rewrite !encode_app, He. change (encode nl) with (Some [10%N]). cbv iota.
    rewrite Hw. subst sent. now rewrite <- app_assoc.
  - subst sent. apply (readline_app bs [10%N]). now apply (encode_no_lf text).
  - assert (bs ++ [10%N] <> []) as Nb by (intros E; now apply app_eq_nil in E).
    destruct (bs ++ [10%N]) as [|b0 raw] eqn:Eb; [congruence|].
    rewrite client_step_line, <- Eb.
    rewrite (received_line bs [10%N] eq_refl).
    now rewrite (proj2 (@encode_then_decode_aux text bs He)).
  - intros st'. reflexivity.
Qed.

(** X23 -- what the server sends is what the user sees: the lines the
    server encoded are written to standard output as they were, one by one,
    and when the stream ends the client says so and shows nothing more. *)
Theorem server_lines_shown_verbatim lines datas more :
  Forall2 (fun l d => encode l = Some d /\ l <> []) lines datas ->
  Client.server_to_stdout (map Data datas ++ Data [] :: more) =
    map Client.Stdout lines ++
    [Client.Stdout (u "[INFO] Server closed the connection" ++ nl)].
Proof.
  induction 1 as [|l d ls ds [He Ne] _ IH]; [reflexivity|].
  cbn [map app Client.server_to_stdout]. rewrite IH.
  pose proof (@encode_nonempty l d He Ne) as Nd.
  destruct d as [|b0 raw]; [congruence|].
  now rewrite (proj2 (@encode_then_decode_aux l (b0 :: raw) He)).
Qed.

End EndToEnd.

(** ** Leaving with [/quit] *)

Section Quit.
Variable lower : str -> str.
Variable client_write_fails : nat -> bool.
Variable write_fails : nat -> conn -> bool.
Variable clock : nat -> str.
Hypothesis lower_quit : lower (u "/quit") = u "/quit".

Lemma dict_pop_twice (V : Type) (k : conn) (d : dict conn V) :
  dict_pop Nat.eq_dec k (dict_pop Nat.eq_dec k d) = dict_pop Nat.eq_dec k d.
Proof.
  induction d as [|[k' v] t IH]; simpl; auto.
  destruct (Nat.eq_dec k k') as [E|E]; auto. simpl.
  destruct (Nat.eq_dec k k'); [contradiction|]. now rewrite IH.
Qed.

Lemma handle_command_quit w st :
  handle_command lower write_fails clock w (u "/quit") st =
  disconnect write_fails clock w (u "quit") st.
Proof.
  unfold handle_command. change (split_ws 2 (u "/quit")) with [u "/quit"].
  cbv zeta. cbv iota. rewrite lower_quit.
  change (str_eqb (u "/quit") (u "/help")) with false.
  change (str_eqb (u "/quit") (u "/quit")) with true. reflexivity.
Qed.

Lemma quit_line_step w st st' :
  disconnect write_fails clock w (u "quit") st = (Ok tt, st') ->
  client_step lower write_fails clock w (Data (u "/quit" ++ nl)) st = (Ok Continue, st').
Proof.
  intros E.
  change (client_step lower write_fails clock w (Data (u "/quit" ++ nl)) st)
    with (guarded write_fails clock w
            (handle_command lower write_fails clock w (u "/quit") ;; ret Continue) st).
  unfold guarded, bind. now rewrite handle_command_quit, E.
Qed.

Lemma eof_step w st st' :
  disconnect write_fails clock w (u "client closed") st = (Ok tt, st') ->
  client_step lower write_fails clock w (Data []) st = (Ok Return, st').
Proof.
  intros E.
  change (client_step lower write_fails clock w (Data []) st)
    with (guarded write_fails clock w
            (disconnect write_fails clock w (u "client closed") ;; ret Return) st).
  unfold guarded, bind. now rewrite E.
Qed.

(** [disconnect] for a connection that is no longer registered. *)
Lemma disconnect_again w reason st :
  locked st = false ->
  ~ In w (dict_keys (clients st)) ->
  disconnect write_fails clock w reason st = (Ok tt, emit (Closed w) st).
Proof.
  intros L Hn.
  assert (nick_of w st = None) as Hk.
  { unfold nick_of. now rewrite (proj2 (dict_get_none Nat.eq_dec w (clients st)) Hn). }
  rewrite disconnect_eq, L. cbv zeta. rewrite Hk.
  unfold drop_conn. rewrite Hk. unfold set_clients.
  rewrite (dict_pop_absent Nat.eq_dec w (clients st) Hn).
  now destruct st.
Qed.

Lemma session_quit t :
  client_write_fails t = false ->
  Client.session lower client_write_fails false t
                 (Client.stdin_reader [u "/quit" ++ nl]) =
  (Client.Returned,
   [Client.Written (u "/quit" ++ [10; 10]%N);
    Client.write_drain client_write_fails (S t) (u "/quit" ++ nl);
    Client.WriterClosed;
    Client.Stdout (u "[INFO] Disconnected" ++ nl)]).
Proof.
  intros Hw. unfold Client.session.
  change (Client.stdin_reader [u "/quit" ++ nl]) with [u "/quit" ++ nl].
  cbn [Client.main_loop].
  change (negb (truthy_str (u "/quit" ++ nl))) with false.
  change (strip (u "/quit" ++ nl)) with (u "/quit"). rewrite lower_quit.
  change (str_eqb (u "/quit") (u "/help")) with false.
  change (str_eqb (u "/quit") (u "/quit")) with true.
  change (encode ((u "/quit" ++ nl) ++ nl)) with (Some (u "/quit" ++ [10; 10]%N)).
  cbv iota. rewrite Hw. reflexivity.
Qed.

(** X24 -- leaving with [/quit], end to end.  The client writes the typed
    line with two line feeds, breaks out of its loop, writes [/quit] once
    more and closes.  The server thus reads [/quit], an empty line, [/quit]
    again and the end of the stream, and calls [disconnect] three times;
    when no write fails the others are told once that the nickname left,
    with reason "quit", and the two later calls only close the stream
    again. *)
Theorem quit_is_announced_once t w n st :
  client_write_fails t = false ->
  nick_of w st = Some n ->
  n <> [] ->
  locked st = false ->
  quiet_from write_fails (tick st) ->
  let sent := u "/quit" ++ [10; 10]%N in
  let reads := [Data (u "/quit" ++ nl); Data nl; Data (u "/quit" ++ nl); Data []] in
  Client.session lower client_write_fails false t
                 (Client.stdin_reader [u "/quit" ++ nl]) =
    (Client.Returned,
     [Client.Written sent;
      Client.write_drain client_write_fails (S t) (u "/quit" ++ nl);
      Client.WriterClosed;
      Client.Stdout (u "[INFO] Disconnected" ++ nl)]) /\
  readline (sent ++ u "/quit" ++ nl) = (u "/quit" ++ nl, nl ++ u "/quit" ++ nl) /\
  exists st',
    read_loop lower write_fails clock w reads st = (Ok Return, st') /\
    clients st' = dict_pop Nat.eq_dec w (clients st) /\
    nick_to_writer st' = dict_pop str_eq_dec n (nick_to_writer st) /\
    out st' =
      out st ++
      Closed w
      :: map (fun c => Sent c (stamped (clock (tick st)) (msg_left n (u "quit"))))
             (dict_keys (dict_pop Nat.eq_dec w (clients st)))
      ++ [Closed w; Closed w].
Proof.
  intros Hw Hn Ne L Q sent reads.
  split; [exact (@session_quit t Hw)|]. split; [reflexivity|].
  pose proof (proj2 (truthy_str_true n) Ne) as T.
  pose proof (@drop_conn_named w n st Hn Ne) as Ed.
  pose (st1 := emit (Closed w)
                    (mkState (dict_pop Nat.eq_dec w (clients st))
                             (dict_pop str_eq_dec n (nick_to_writer st))
                             (locked st) (tick st) (out st))).
  assert (quiet_from write_fails (tick st1)) as Q1 by exact Q.
  assert (locked st1 = false) as L1 by exact L.
  destruct (@broadcast_quiet_out write_fails clock (msg_left n (u "quit")) [] st1 Q1 L1)
    as [st2 [Eb [Ec [En [L2 [_ Eo]]]]]].
  assert (disconnect write_fails clock w (u "quit") st = (Ok tt, st2)) as D1.
  { rewrite disconnect_eq, L. cbv zeta. rewrite Hn, T, Ed. exact Eb. }
  assert (clients st1 = dict_pop Nat.eq_dec w (clients st)) as C1 by reflexivity.
  assert (nick_to_writer st1 = dict_pop str_eq_dec n (nick_to_writer st)) as N1
      by reflexivity.
  assert (out st1 = out st ++ [Closed w]) as O1 by reflexivity.
  assert (forall s, clients s = dict_pop Nat.eq_dec w (clients st) ->
                    ~ In w (dict_keys (clients s))) as Absent.
  { intros s E I. rewrite E in I. apply dict_keys_pop in I. now destruct I. }
  pose proof (Absent st2 (eq_trans Ec C1)) as A2.
  pose proof (@disconnect_again w (u "quit") st2 L2 A2) as D2.
  pose proof (@disconnect_again w (u "client closed") (emit (Closed w) st2) L2 A2) as D3.
  exists (emit (Closed w) (emit (Closed w) st2)).
  split; [|split; [|split]].
  - unfold reads. cbn [read_loop]. unfold bind at 1.
    rewrite (@quit_line_step w st st2 D1). unfold bind at 1.
    change (client_step lower write_fails clock w (Data nl) st2)
      with (@Ok loop_ctl Continue, st2).
    cbv iota. unfold bind at 1. rewrite (@quit_line_step w st2 _ D2).
    unfold bind at 1. now rewrite (@eof_step w (emit (Closed w) st2) _ D3).
  - cbn [emit clients]. now rewrite Ec, C1.
  - cbn [emit nick_to_writer]. now rewrite En, N1.
  - cbn [emit out]. rewrite Eo, O1, recipients_nil, C1.
    rewrite <- !app_assoc. reflexivity.
Qed.

End Quit.

(** ** A connection that never takes a nickname *)

Section Visitor.
Variable lower : str -> str.
Variable write_fails : nat -> conn -> bool.
Variable clock : nat -> str.

Lemma dict_pop_set_new (V : Type) (k : conn) (v : V) (d : dict conn V) :
  ~ In k (dict_keys d) ->
  dict_pop Nat.eq_dec k (dict_set Nat.eq_dec k v d) = d.
Proof.
  induction d as [|[k' v'] t IH]; simpl; intros H.
  - destruct (Nat.eq_dec k k); [reflexivity|contradiction].
  - destruct (Nat.eq_dec k k') as [E|E]; [exfalso; apply H; left; auto|].
    simpl. destruct (Nat.eq_dec k k'); [contradiction|]. rewrite IH; auto.
Qed.

Lemma read_loop_blanks w blanks rest st :
  Forall (fun raw => raw <> [] /\ forallb is_crlf raw = true) blanks ->
  read_loop lower write_fails clock w (map Data blanks ++ rest) st =
  read_loop lower write_fails clock w rest st.
Proof.
  induction 1 as [|raw l [Ne Hb] _ IH]; [reflexivity|].
  cbn [map app read_loop]. unfold bind at 1.
  now rewrite (@blank_step lower write_fails clock w raw st Ne Hb).
Qed.

Lemma read_loop_eof w more st st' :
  disconnect write_fails clock w (u "client closed") st = (Ok tt, st') ->
  read_loop lower write_fails clock w (Data [] :: more) st = (Ok Return, st').
Proof.
  intros E. cbn [read_loop]. unfold bind at 1.
  now rewrite (@eof_step lower write_fails clock w st st' E).
Qed.

(** X25 -- a connection that is accepted, sends at most empty lines and
    ends its stream leaves both dictionaries as they were; the handler
    returns with the lock free, and the only socket activity is the welcome
    written to that connection and the closing of its stream (twice when
    the write of the welcome raised: [send_line] has then disconnected it
    already, and the loop still runs). *)
Theorem visitor_leaves_no_trace w blanks more st :
  locked st = false ->
  ~ In w (dict_keys (clients st)) ->
  Forall (fun raw => raw <> [] /\ forallb is_crlf raw = true) blanks ->
  exists st',
    handle_client lower write_fails clock w (map Data blanks ++ Data [] :: more) st =
      (Ok Return, st') /\
    clients st' = clients st /\
    nick_to_writer st' = nick_to_writer st /\
    locked st' = false /\
    out st' = out st ++ (if write_fails (tick st) w
                         then [SendFailed w WELCOME; Closed w; Closed w]
                         else [Sent w WELCOME; Closed w]).
Proof.
  intros L Hw Hb.
  pose (st0 := set_clients (dict_set Nat.eq_dec w None (clients st)) st).
  assert (nick_of w st0 = None) as N0.
  { unfold nick_of, st0. cbn [set_clients clients]. now rewrite dict_get_set_eq. }
  assert (dict_pop Nat.eq_dec w (clients st0) = clients st) as P0.
  { unfold st0. cbn [set_clients clients]. now apply dict_pop_set_new. }
  unfold handle_client, bind at 1, client_open, bind at 1, modify.
  fold st0. unfold guarded, bind at 1. rewrite send_line_eq.
  change (tick st0) with (tick st).
  destruct (write_fails (tick st) w) eqn:F.
  - pose (sA := emit (SendFailed w WELCOME) (advance st0)).
    assert (disconnect write_fails clock w (u "send failed") sA =
            (Ok tt, emit (Closed w)
                         (set_clients (dict_pop Nat.eq_dec w (clients sA)) sA))) as D1
        by (apply disconnect_nickless; [exact L|exact N0]).
    fold sA. rewrite D1.
    set (sB := emit (Closed w) (set_clients (dict_pop Nat.eq_dec w (clients sA)) sA)).
    assert (clients sB = clients st) as CB by exact P0.
    assert (~ In w (dict_keys (clients sB))) as AB by now rewrite CB.
    change (ret Continue sB) with (@Ok loop_ctl Continue, sB). cbv beta iota.
    rewrite (read_loop_blanks w (Data [] :: more) sB Hb).
    rewrite (@read_loop_eof w more sB (emit (Closed w) sB));
      [|now apply (@disconnect_again write_fails clock w (u "client closed") sB L AB)].
    eexists. split; [reflexivity|]. split; [exact CB|]. split; [reflexivity|].
    split; [exact L|]. cbn [emit out set_clients advance sA sB].
    now rewrite <- !app_assoc.
  - set (sA := emit (Sent w WELCOME) (advance st0)).
    change (ret Continue sA) with (@Ok loop_ctl Continue, sA). cbv beta iota.
    rewrite (read_loop_blanks w (Data [] :: more) sA Hb).
    rewrite (@read_loop_eof w more sA
               (emit (Closed w) (set_clients (dict_pop Nat.eq_dec w (clients sA)) sA)));
      [|apply disconnect_nickless; [exact L|exact N0]].
    eexists. split; [reflexivity|]. split; [exact P0|]. split; [reflexivity|].
    split; [exact L|]. cbn [emit out set_clients advance sA].
    now rewrite <- !app_assoc.
Qed.

End Visitor.

(** ** The handler as a whole *)

Section Handler.
Variable lower : str -> str.
Variable write_fails : nat -> conn -> bool.
Variable clock : nat -> str.

(** One turn of the loop, started with the lock free: it ends with the lock
    free, returning exactly when the stream ended, or it is the deadlock of
    [/nick]. *)
Lemma client_step_outcome w r st :
  locked st = false ->
  (exists c st',
      client_step lower write_fails clock w r st = (Ok c, st') /\
      locked st' = false /\
      (c = Return <-> stream_ended r = true) /\
      (c = Return -> gone w st')) \/
  fst (client_step lower write_fails clock w r st) = Hung.
Proof.
  intros L. destruct (stream_ended r) eqn:Se.
  - pose proof (@stream_end_step lower write_fails clock w r st L Se) as H.
    cbv zeta in H. destruct H as [_ [Ho [Hl Hg]]]. left.
    destruct (client_step lower write_fails clock w r st) as [s st'].
    cbn [fst snd] in *. subst s. exists Return, st'.
    split; [reflexivity|]. split; [exact Hl|]. split; [|auto]. split; auto.
  - destruct r as [[|b raw]| |]; try discriminate.
    rewrite (@client_step_line lower write_fails clock w b raw st).
    unfold handle_line.
    set (line := rstrip_by is_crlf (decode_ignore (b :: raw))).
    assert (forall st', locked st' = false ->
              exists c st'', (@Ok loop_ctl Continue, st') = (Ok c, st'') /\
                             locked st'' = false /\
                             (c = Return <-> false = true) /\
                             (c = Return -> gone w st'')) as Cont.
    { intros st' L'. exists Continue, st'. split; [reflexivity|].
      split; [exact L'|]. split; [split; discriminate|discriminate]. }
    destruct (negb (truthy_str line)); [left; now apply Cont|].
    destruct (startswith_slash line) eqn:Sl.
    + pose proof (@command_outcome lower write_fails clock w line st L Sl) as H.
      cbv zeta in H. unfold guarded, bind.
      destruct H as [[st' [E L']]|[p0 [name [rest [_ [_ [_ [_ E]]]]]]]]; rewrite E.
      * left. now apply Cont.
      * right. reflexivity.
    + destruct (@handle_chat_ok write_fails clock w line st L) as [st' [E L']].
      unfold guarded, bind. rewrite E. left. now apply Cont.
Qed.

Lemma read_loop_outcome w reads :
  forall st,
    locked st = false ->
    (exists c st',
        read_loop lower write_fails clock w reads st = (Ok c, st') /\
        locked st' = false /\
        (existsb stream_ended reads = true -> c = Return) /\
        (c = Return -> gone w st')) \/
    fst (read_loop lower write_fails clock w reads st) = Hung.
Proof.
  induction reads as [|r rest IH]; intros st L.
  - left. exists Continue, st. split; [reflexivity|]. split; [exact L|].
    split; discriminate.
  - cbn [read_loop existsb]. unfold bind.
    destruct (client_step_outcome w r st L) as [[c [st1 [E [L1 [Hr Hg]]]]]|H].
    + rewrite E. cbv beta iota. destruct c.
      * destruct (IH st1 L1) as [[c' [st2 [E2 [L2 [Hs2 Hg2]]]]]|H2]; [|now right].
        left. exists c', st2. split; [exact E2|]. split; [exact L2|].
        split; [|exact Hg2]. intros Hx. apply Hs2.
        destruct (stream_ended r); [|exact Hx].
        assert (Continue = Return) as X by now apply Hr. discriminate X.
      * left. exists Return, st1. split; [reflexivity|]. split; [exact L1|].
        split; [reflexivity|exact Hg].
    + right. destruct (client_step lower write_fails clock w r st) as [s st1].
      cbn [fst] in H. now subst s.
Qed.

(** X26 -- no exception leaves [handle_client]: started with the lock free,
    on any sequence of reads and any pattern of write failures, the handler
    is either still in its loop or has returned, with the lock free, or it
    is the task that waits for ever in a rejected [/nick].  It has returned
    whenever the reads include the end of the stream or a read that raised,
    and when it has returned the connection is out of the registry and its
    stream is closed. *)
Theorem handler_never_raises w reads st :
  locked st = false ->
  let res := handle_client lower write_fails clock w reads st in
  (exists c st',
      res = (Ok c, st') /\
      locked st' = false /\
      (existsb stream_ended reads = true -> c = Return) /\
      (c = Return -> gone w st')) \/
  fst res = Hung.
Proof.
  intros L res. subst res.
  pose (st0 := set_clients (dict_set Nat.eq_dec w None (clients st)) st).
  destruct (@send_line_ok write_fails clock w WELCOME st0 L) as [st1 [E L1]].
  assert (handle_client lower write_fails clock w reads st =
          read_loop lower write_fails clock w reads st1) as Eh.
  { unfold handle_client, bind at 1, client_open, bind at 1, modify.
    fold st0. unfold guarded, bind at 1. rewrite E. reflexivity. }
  rewrite Eh. apply read_loop_outcome. exact L1.
Qed.

End Handler.

(** ** A [disconnect] overtaken at its lock

    [disconnect] reads the nickname of the connection before it asks for
    the lock.  When others wait for the lock it is suspended there, and a
    [/nick] of the same connection that was waiting before it runs first.
    The run below is that schedule, for the connections 1 ("alice") and 2
    ("Bob"), every write to 1 raising from now on:
    - 2 sends a chat line; in the critical section of its [broadcast] the
      write to 1 raises, so [dead] is [[1]]; meanwhile the line
      "/nick carol" of 1 has arrived and waits for the lock;
    - [broadcast] leaves the lock and calls [disconnect] for 1, which reads
      the nickname "alice" and has to wait behind the [/nick];
    - the critical section of [/nick carol] runs: "alice" leaves the
      directory, "carol" is entered for 1;
    - [disconnect] gets the lock: it removes 1 from the registry and
      "alice", which is no longer there, from the directory, closes the
      stream and announces that alice left;
    - [/nick] announces the new name.
    [broadcast_split], [disconnect_split] and [cmd_nick_free] show that
    these pieces are the coroutines cut at these points. *)

Section Overtaken.

(** The run above leads to a state of the server, and the invariant does
    not hold in it. *)
Lemma reachable_breaks_wf :
  exists st,
    reachable ascii_lower never_fails noon st /\
    clients st = [(2, Some (u "Bob"))] /\
    nick_to_writer st = [(u "Bob", 2); (u "carol", 1)] /\
    ~ wf ascii_lower st.
Proof.
  pose (st0 := demo_two never_fails).
  pose (st1 := snd (handle_command ascii_lower never_fails noon 1 (u "/nick carol") st0)).
  exists (snd (disconnect_resume never_fails noon (nick_of 1 st0) 1
                                 (u "broken pipe") st1)).
  split; [|split; [reflexivity|split; [reflexivity|]]].
  - exists [(1, nick_of 1 st0, u "broken pipe")].
    apply run_resume; [|left; reflexivity].
    apply run_command. apply run_read. apply atomic_run_run.
    apply demo_two_atomic. reflexivity.
  - intros W. pose proof (proj1 (wf_link W (u "carol") 1) eq_refl) as H.
    vm_compute in H. discriminate H.
Qed.

(** C1 -- the directory and the registry part ways when a [disconnect] is
    overtaken at its lock by a [/nick] of the same connection: at the end
    of the run above the directory maps "carol" to connection 1, which is
    no longer in the registry, so the nickname of a connection is not
    non-null exactly when a directory entry points to it.  (The other half
    of the invariant survives: [names_stay_distinct].) *)
Theorem stale_nickname_orphans_directory_entry :
  let F := fails_from 7 1 in
  let st0 := demo_two F in
  let chat := broadcast_locked F noon (msg_chat (u "Bob") (u "hi")) [] st0 in
  let stA := snd chat in
  let name := nick_of 1 stA in
  let stB := install_nick 1 (u "carol") stA in
  let stC := snd (disconnect_resume F noon name 1 (u "broken pipe") stB) in
  let stD := snd (announce_nick F noon 1 name (u "carol") stC) in
  wf ascii_lower st0 /\
  clients st0 = [(1, Some (u "alice")); (2, Some (u "Bob"))] /\
  nick_to_writer st0 = [(u "alice", 1); (u "Bob", 2)] /\
  fst chat = Ok [1] /\
  name = Some (u "alice") /\
  handle_command ascii_lower F noon 1 (u "/nick carol") stA =
    announce_nick F noon 1 name (u "carol") stB /\
  clients stD = [(2, Some (u "Bob"))] /\
  nick_to_writer stD = [(u "Bob", 2); (u "carol", 1)] /\
  dict_get str_eq_dec (u "carol") (nick_to_writer stD) = Some 1 /\
  nick_of 1 stD = None /\
  ~ (forall w n, nick_of w stD = Some n <->
                 dict_get str_eq_dec n (nick_to_writer stD) = Some w).
Proof.
  cbv zeta. split; [exact demo_two_wf|].
  split; [reflexivity|]. split; [reflexivity|]. split; [reflexivity|].
  split; [reflexivity|]. split; [vm_compute; reflexivity|].
  split; [reflexivity|]. split; [reflexivity|]. split; [reflexivity|].
  split; [reflexivity|].
  intros H. destruct (H 1 (u "carol")) as [_ H1].
  assert (@None str = Some (u "carol")) as X by (apply H1; reflexivity).
  discriminate X.
Qed.

(** C7 -- after the same run, with "adam" for the new name, [/list] counts
    the directory: it reports two users, "adam, Bob", in the order of their
    lower-case forms and joined by ", ", while one connection only has a
    nickname in the registry. *)
Theorem list_counts_orphaned_nickname :
  let F := fails_from 7 1 in
  let st0 := demo_two F in
  let chat := broadcast_locked F noon (msg_chat (u "Bob") (u "hi")) [] st0 in
  let stA := snd chat in
  let name := nick_of 1 stA in
  let stB := install_nick 1 (u "adam") stA in
  let stC := snd (disconnect_resume F noon name 1 (u "broken pipe") stB) in
  let stD := snd (announce_nick F noon 1 name (u "adam") stC) in
  fst chat = Ok [1] /\
  name = Some (u "alice") /\
  handle_command ascii_lower F noon 1 (u "/nick adam") stA =
    announce_nick F noon 1 name (u "adam") stB /\
  clients stD = [(2, Some (u "Bob"))] /\
  nick_to_writer stD = [(u "Bob", 2); (u "adam", 1)] /\
  handle_command ascii_lower F noon 2 (u "/list") stD =
    (Ok tt, emit (Sent 2 (u "Users (2): adam, Bob" ++ nl)) (advance stD)) /\
  named_count (clients stD) = 1.
Proof.
  cbv zeta.
  split; [reflexivity|]. split; [reflexivity|]. split; [vm_compute; reflexivity|].
  split; [reflexivity|]. split; [reflexivity|].
  split; [vm_compute; reflexivity|reflexivity].
Qed.

End Overtaken.

(** ** Concrete runs of the properties above *)

Lemma command_returns_or_deadlocks_witness :
  locked (demo_two never_fails) = false /\
  startswith_slash (u "/nick ALICE") = true /\
  fst (handle_command ascii_lower (broken 2) noon 2 (u "/nick ALICE")
                      (demo_two never_fails)) = Hung.
Proof.
  split; [reflexivity|]. split; [reflexivity|].
  pose proof (@command_returns_or_deadlocks ascii_lower (broken 2) noon 2
                (u "/nick ALICE") (demo_two never_fails) eq_refl eq_refl) as H.
  cbv zeta in H. destruct H as [[st' [E _]]|[p0 [name [rest [_ [_ [_ [_ E]]]]]]]].
  - vm_compute in E. discriminate E.
  - now rewrite E.
Defined.

Lemma stream_end_removes_connection_witness :
  locked (demo_two never_fails) = false /\
  stream_ended (Data []) = true /\
  gone 1 (snd (client_step ascii_lower never_fails noon 1 (Data [])
                           (demo_two never_fails))).
Proof.
  split; [reflexivity|]. split; [reflexivity|].
  pose proof (@stream_end_removes_connection ascii_lower never_fails noon 1
                (Data []) (demo_two never_fails) eq_refl eq_refl) as H.
  cbv zeta in H. exact (proj2 (proj2 (proj2 H))).
Defined.

Lemma nickless_disconnect_is_silent_witness :
  locked (demo_one never_fails) = false /\
  nick_of 1 (demo_one never_fails) = None /\
  out (snd (disconnect never_fails noon 1 (u "quit") (demo_one never_fails))) =
  out (demo_one never_fails) ++ [Closed 1].
Proof.
  split; [reflexivity|]. split; [reflexivity|].
  rewrite (@nickless_disconnect_is_silent never_fails noon 1 (u "quit")
             (demo_one never_fails) eq_refl eq_refl).
  reflexivity.
Defined.

Lemma only_nick_adds_names_witness :
  split_ws 2 (u "/quit") = [u "/quit"] /\
  ascii_lower (u "/quit") <> u "/nick" /\
  List.length (clients (snd (handle_command ascii_lower never_fails noon 1 (u "/quit")
                                            (demo_two never_fails)))) <=
  List.length (clients (demo_two never_fails)).
Proof.
  assert (ascii_lower (u "/quit") <> u "/nick") as C
      by (intros E; vm_compute in E; discriminate E).
  split; [reflexivity|]. split; [exact C|].
  pose proof (@only_nick_adds_names ascii_lower never_fails noon 1 (u "/quit")
                (u "/quit") [] (u "hi") (demo_two never_fails) eq_refl C) as H.
  cbv zeta in H. exact (proj1 (proj2 (proj2 H))).
Defined.

Lemma nickname_required_witness :
  (nick_of 1 (demo_one never_fails) = None /\
  split_ws 2 (u "/me waves") = [u "/me"; u "waves"] /\
  split_ws 2 (u "/msg Bob hi") = [u "/msg"; u "Bob"; u "hi"] /\
  handle_command ascii_lower never_fails noon 1 (u "/msg Bob hi") (demo_one never_fails) =
  send_line never_fails noon 1 msg_set_nick_first (demo_one never_fails)) /\
  out (snd (handle_command ascii_lower never_fails noon 1 (u "/msg Bob hi")
                           (demo_one never_fails))) =
  out (demo_one never_fails) ++
  [Sent 1 (u "Set your nickname first: /nick <name>" ++ nl)].
Proof.
  split.
  { split; [reflexivity|]. split; [reflexivity|]. split; [reflexivity|].
    pose proof (@nickname_required ascii_lower never_fails noon 1 (u "hi")
                  (u "/me waves") (u "/me") (u "waves") []
                  (u "/msg Bob hi") (u "/msg") (u "Bob") (u "hi") []
                  (demo_one never_fails) eq_refl eq_refl eq_refl eq_refl eq_refl) as H.
    cbv zeta in H. exact (proj1 (proj2 (proj2 H))). }
  vm_compute; reflexivity.
Defined.

Lemma chat_reaches_everyone_witness :
  nick_of 1 (demo_two never_fails) = Some (u "alice") /\
  quiet_from never_fails (tick (demo_two never_fails)) /\
  exists st',
    handle_chat never_fails noon 1 (u "hello") (demo_two never_fails) = (Ok tt, st') /\
    out st' = out (demo_two never_fails) ++
              [Sent 1 (u "[12:00] <alice> hello" ++ nl);
               Sent 2 (u "[12:00] <alice> hello" ++ nl)].
Proof.
  assert (quiet_from never_fails (tick (demo_two never_fails))) as Q
      by (intros t w _; reflexivity).
  split; [reflexivity|]. split; [exact Q|].
  destruct (@chat_reaches_everyone never_fails noon 1 (u "alice") (u "hello")
              (demo_two never_fails) eq_refl eq_refl eq_refl Q)
    as [st' [E [_ [_ Eo]]]].
  exists st'. split; [exact E|]. rewrite Eo. reflexivity.
Defined.

Lemma me_keeps_first_word_witness :
  (split_ws 2 (u "/me waves hello") = [u "/me"; u "waves"; u "hello"] /\
  split_ws 2 (u "/me waves goodbye") = [u "/me"; u "waves"; u "goodbye"] /\
  handle_command ascii_lower never_fails noon 1 (u "/me waves goodbye")
                 (demo_two never_fails) =
  handle_command ascii_lower never_fails noon 1 (u "/me waves hello")
                 (demo_two never_fails)) /\
  out (snd (handle_command ascii_lower never_fails noon 1 (u "/me waves goodbye")
                           (demo_two never_fails))) =
  out (demo_two never_fails) ++
  [Sent 1 (u "[12:00] * alice waves" ++ nl); Sent 2 (u "[12:00] * alice waves" ++ nl)].
Proof.
  split.
  { split; [reflexivity|]. split; [reflexivity|].
    exact (proj2 (proj2
             (@me_keeps_first_word ascii_lower never_fails noon 1
                (u "/me waves hello") (u "/me") (u "waves") [u "hello"]
                (u "/me waves goodbye") (u "/me") [u "goodbye"] (u "alice")
                (demo_two never_fails) eq_refl eq_refl eq_refl eq_refl eq_refl eq_refl))). }
  vm_compute; reflexivity.
Defined.

Lemma private_message_delivery_witness :
  split_ws 2 (u "/msg Bob hi there") = [u "/msg"; u "Bob"; u "hi there"] /\
  dict_get str_eq_dec (u "Bob") (nick_to_writer (demo_two never_fails)) = Some 2 /\
  out (snd (handle_command ascii_lower (broken 2) noon 1 (u "/msg Bob hi there")
                           (demo_two never_fails))) =
  out (demo_two never_fails) ++
  [SendFailed 2 (u "[12:00] [PM] <alice> hi there" ++ nl);
   Sent 1 (u "[PM -> Bob] hi there" ++ nl)].
Proof.
  split; [reflexivity|]. split; [reflexivity|].
  pose proof (@private_message_delivery ascii_lower (broken 2) noon 1
                (u "/msg Bob hi there") (u "/msg") (u "Bob") (u "hi there") []
                (u "alice") 2 (demo_two never_fails)
                eq_refl eq_refl eq_refl eq_refl eq_refl eq_refl) as H.
  cbv zeta in H. destruct H as [_ H].
  exact (proj2 (proj2 (proj2 (H eq_refl)))).
Defined.

Lemma private_message_is_case_sensitive_witness :
  (split_ws 2 (u "/msg bob hi") = [u "/msg"; u "bob"; u "hi"] /\
  ascii_lower (u "bob") = ascii_lower (u "Bob") /\
  u "bob" <> u "Bob" /\
  handle_command ascii_lower never_fails noon 1 (u "/msg bob hi") (demo_two never_fails) =
  send_line never_fails noon 1 (msg_not_found (u "bob")) (demo_two never_fails)) /\
  out (snd (handle_command ascii_lower never_fails noon 1 (u "/msg bob hi")
                           (demo_two never_fails))) =
  out (demo_two never_fails) ++ [Sent 1 (u "User 'bob' not found." ++ nl)].
Proof.
  split.
  { assert (u "bob" <> u "Bob") as Ne by discriminate.
    assert (In (u "Bob") (dict_keys (nick_to_writer (demo_two never_fails)))) as I
        by (right; left; reflexivity).
    split; [reflexivity|]. split; [reflexivity|]. split; [exact Ne|].
    exact (proj2 (proj2
             (@private_message_is_case_sensitive ascii_lower never_fails noon 1
                (u "/msg bob hi") (u "/msg") (u "bob") (u "hi") [] (u "alice") (u "Bob")
                (demo_two never_fails) demo_two_wf eq_refl eq_refl eq_refl eq_refl
                I eq_refl Ne))). }
  vm_compute; reflexivity.
Defined.

Lemma first_nickname_confirmed_and_announced_witness :
  let st := snd (client_open never_fails noon 2
                   (snd (handle_command ascii_lower never_fails noon 1
                           (u "/nick alice") (demo_one never_fails)))) in
  split_ws 2 (u "/nick Bob") = [u "/nick"; u "Bob"] /\
  nick_of 2 st = None /\
  quiet_from never_fails (tick st) /\
  exists st',
    handle_command ascii_lower never_fails noon 2 (u "/nick Bob") st = (Ok tt, st') /\
    nick_to_writer st' = [(u "alice", 1); (u "Bob", 2)] /\
    out st' = out st ++ [Sent 2 (u "OK. You are now 'Bob'." ++ nl);
                         Sent 1 (u "[12:00] * Bob joined the chat" ++ nl)].
Proof.
  intros st.
  assert (quiet_from never_fails (tick st)) as Q by (intros t w _; reflexivity).
  split; [reflexivity|]. split; [reflexivity|]. split; [exact Q|].
  destruct (@first_nickname_confirmed_and_announced ascii_lower never_fails noon 2
              (u "/nick Bob") (u "/nick") (u "Bob") [] st
              eq_refl eq_refl eq_refl eq_refl eq_refl Q)
    as [st' [E [_ [En Eo]]]].
  exists st'. split; [exact E|]. split; [rewrite En; reflexivity|].
  rewrite Eo. reflexivity.
Defined.

Lemma rename_frees_old_name_witness :
  split_ws 2 (u "/nick carol") = [u "/nick"; u "carol"] /\
  nick_of 1 (demo_two never_fails) = Some (u "alice") /\
  quiet_from never_fails (tick (demo_two never_fails)) /\
  exists st',
    handle_command ascii_lower never_fails noon 1 (u "/nick carol")
                   (demo_two never_fails) = (Ok tt, st') /\
    nick_of 1 st' = Some (u "carol") /\
    name_taken ascii_lower (u "alice") (nick_to_writer st') = false /\
    out st' = out (demo_two never_fails) ++
              [Sent 1 (u "[12:00] * alice is now known as carol" ++ nl);
               Sent 2 (u "[12:00] * alice is now known as carol" ++ nl)].
Proof.
  assert (quiet_from never_fails (tick (demo_two never_fails))) as Q
      by (intros t w _; reflexivity).
  split; [reflexivity|]. split; [reflexivity|]. split; [exact Q|].
  destruct (@rename_frees_old_name ascii_lower never_fails noon 1
              (u "/nick carol") (u "/nick") (u "carol") [] (u "alice")
              (demo_two never_fails) demo_two_wf eq_refl eq_refl eq_refl eq_refl
              eq_refl Q)
    as [st' [E [Hn [_ [_ [Hf [_ Eo]]]]]]].
  exists st'. split; [exact E|]. split; [exact Hn|]. split; [exact Hf|].
  rewrite Eo. reflexivity.
Defined.

Lemma line_ending_tolerated_witness :
  forallb is_crlf [10%N] = true /\
  forallb is_crlf [13%N; 10%N] = true /\
  client_step ascii_lower never_fails noon 1 (Data (u "hello" ++ [10%N]))
              (demo_two never_fails) =
  client_step ascii_lower never_fails noon 1 (Data (u "hello" ++ [13%N; 10%N]))
              (demo_two never_fails).
Proof.
  split; [reflexivity|]. split; [reflexivity|].
  apply (@line_ending_tolerated ascii_lower never_fails noon 1 (u "hello")
           [10%N] [13%N; 10%N] (demo_two never_fails));
    try reflexivity; discriminate.
Defined.

Lemma blank_line_is_skipped_witness :
  forallb is_crlf [13%N; 10%N] = true /\
  client_step ascii_lower never_fails noon 1 (Data [13%N; 10%N])
              (demo_two never_fails) = (Ok Continue, demo_two never_fails).
Proof.
  split; [reflexivity|].
  apply (@blank_line_is_skipped ascii_lower never_fails noon 1 [13%N; 10%N]
           (demo_two never_fails)); [discriminate|reflexivity].
Defined.

Lemma nicknames_are_words_witness :
  reachable ascii_lower never_fails noon (demo_two never_fails) /\
  In (u "Bob") (dict_keys (nick_to_writer (demo_two never_fails))) /\
  is_word (u "Bob") = true.
Proof.
  assert (reachable ascii_lower never_fails noon (demo_two never_fails)) as R
      by (apply demo_two_reachable; vm_compute; reflexivity).
  assert (In (u "Bob") (dict_keys (nick_to_writer (demo_two never_fails)))) as I
      by (right; left; reflexivity).
  split; [exact R|]. split; [exact I|].
  exact (proj1 (@nicknames_are_words ascii_lower never_fails noon
                  (demo_two never_fails) (u "Bob") R I)).
Defined.

Lemma every_nickname_can_be_messaged_witness :
  reachable ascii_lower never_fails noon (demo_two never_fails) /\
  dict_get str_eq_dec (u "Bob") (nick_to_writer (demo_two never_fails)) = Some 2 /\
  split_ws 2 (u "/msg Bob hi  there ") = [u "/msg"; u "Bob"; u "hi  there "].
Proof.
  assert (reachable ascii_lower never_fails noon (demo_two never_fails)) as R
      by (apply demo_two_reachable; vm_compute; reflexivity).
  split; [exact R|]. split; [reflexivity|].
  pose proof (@every_nickname_can_be_messaged ascii_lower never_fails noon 1
                (u "alice") (u "Bob") 2 104%N (u "i  there ")
                (demo_two never_fails) R eq_refl eq_refl eq_refl eq_refl eq_refl) as H.
  cbv zeta in H. exact (proj1 H).
Defined.

Lemma encode_then_decode_witness :
  encode [104; 233; 8364; 128512]%N =
    Some [104; 195; 169; 226; 130; 172; 240; 159; 152; 128]%N /\
  decode_ignore [104; 195; 169; 226; 130; 172; 240; 159; 152; 128]%N =
    [104; 233; 8364; 128512]%N.
Proof.
  split; [reflexivity|].
  exact (proj2 (@encode_then_decode [104; 233; 8364; 128512]%N
                  [104; 195; 169; 226; 130; 172; 240; 159; 152; 128]%N eq_refl)).
Defined.

Lemma decode_then_encode_witness :
  decode_with Strict [226; 130; 172; 10]%N = Some [8364; 10]%N /\
  encode [8364; 10]%N = Some [226; 130; 172; 10]%N.
Proof.
  split; [reflexivity|].
  exact (@decode_then_encode [226; 130; 172; 10]%N [8364; 10]%N eq_refl).
Defined.

Lemma client_session_ends_witness :
  ascii_lower (u "/quit") = u "/quit" /\
  existsb (ends_session ascii_lower) [u "hello" ++ nl; []] = true /\
  fst (Client.run_client ascii_lower writes_ok None false (u "127.0.0.1") 5555%Z None
                         [u "hello" ++ nl; []]) <> Client.Waiting.
Proof.
  split; [reflexivity|]. split; [reflexivity|].
  apply (@client_session_ends ascii_lower writes_ok None false (u "127.0.0.1")
           5555%Z None [u "hello" ++ nl; []]); reflexivity.
Defined.

Lemma client_closes_socket_once_witness :
  fst (Client.run_client ascii_lower writes_ok None false (u "127.0.0.1") 5555%Z
                         (Some (u "alice")) [u "hello" ++ nl; []]) <> Client.Waiting /\
  List.length
    (filter is_close
       (snd (Client.run_client ascii_lower writes_ok None false (u "127.0.0.1") 5555%Z
                               (Some (u "alice")) [u "hello" ++ nl; []]))) = 1.
Proof.
  assert (fst (Client.run_client ascii_lower writes_ok None false (u "127.0.0.1")
                                 5555%Z (Some (u "alice")) [u "hello" ++ nl; []])
          <> Client.Waiting) as H by (vm_compute; discriminate).
  split; [exact H|].
  pose proof (@client_closes_socket_once ascii_lower writes_ok false (u "127.0.0.1")
                5555%Z (Some (u "alice")) [u "hello" ++ nl; []]) as T.
  cbv zeta in T. exact (proj1 (T H)).
Defined.

Lemma help_is_answered_locally_witness :
  In (Client.Written (u "hi" ++ nl))
     (snd (Client.main_loop ascii_lower writes_ok 0 [u "/Help"; u "hi"])) /\
  exists line,
    In line [u "/Help"; u "hi"] /\ line <> [] /\
    ascii_lower (strip line) <> u "/help" /\
    encode (line ++ nl) = Some (u "hi" ++ nl).
Proof.
  assert (In (Client.Written (u "hi" ++ nl))
             (snd (Client.main_loop ascii_lower writes_ok 0 [u "/Help"; u "hi"])))
    as H by (vm_compute; right; left; reflexivity).
  split; [exact H|].
  exact (@help_is_answered_locally ascii_lower writes_ok 0 [u "/Help"; u "hi"]
           (u "hi" ++ nl) (or_introl H)).
Defined.

Lemma typed_line_reaches_server_witness :
  encode (u "hello") = Some (u "hello") /\
  contains_char 10 (u "hello") = false /\
  writes_ok 0 = false /\
  readline (u "hello" ++ [10; 10]%N) = (u "hello" ++ [10]%N, [10]%N) /\
  client_step ascii_lower never_fails noon 1 (Data (u "hello" ++ [10]%N))
              (demo_two never_fails) =
  handle_line ascii_lower never_fails noon 1 (u "hello") (demo_two never_fails).
Proof.
  split; [reflexivity|]. split; [reflexivity|]. split; [reflexivity|].
  pose proof (@typed_line_reaches_server ascii_lower writes_ok never_fails noon
                (u "hello") (u "hello") [] 0 1 (demo_two never_fails)
                eq_refl eq_refl) as H.
  cbv zeta in H.
  assert (ascii_lower (strip (u "hello" ++ nl)) <> u "/help") as N1
      by (intros E; vm_compute in E; discriminate E).
  assert (ascii_lower (strip (u "hello" ++ nl)) <> u "/quit") as N2
      by (intros E; vm_compute in E; discriminate E).
  destruct (H N1 N2 eq_refl) as [_ [Hr [Hs _]]].
  split; [exact Hr|exact Hs].
Defined.

Lemma server_lines_shown_verbatim_witness :
  Forall2 (fun l d => encode l = Some d /\ l <> [])
          [u "[12:00] <alice> hi" ++ nl] [u "[12:00] <alice> hi" ++ nl] /\
  Client.server_to_stdout [Data (u "[12:00] <alice> hi" ++ nl); Data []; Data [10%N]] =
  [Client.Stdout (u "[12:00] <alice> hi" ++ nl);
   Client.Stdout (u "[INFO] Server closed the connection" ++ nl)].
Proof.
  assert (Forall2 (fun l d => encode l = Some d /\ l <> [])
                  [u "[12:00] <alice> hi" ++ nl] [u "[12:00] <alice> hi" ++ nl]) as F.
  { constructor; [split; [reflexivity|discriminate]|constructor]. }
  split; [exact F|].
  exact (@server_lines_shown_verbatim [u "[12:00] <alice> hi" ++ nl]
           [u "[12:00] <alice> hi" ++ nl] [Data [10%N]] F).
Defined.

Lemma quit_is_announced_once_witness :
  ascii_lower (u "/quit") = u "/quit" /\
  nick_of 1 (demo_two never_fails) = Some (u "alice") /\
  quiet_from never_fails (tick (demo_two never_fails)) /\
  exists st',
    read_loop ascii_lower never_fails noon 1
              [Data (u "/quit" ++ nl); Data nl; Data (u "/quit" ++ nl); Data []]
              (demo_two never_fails) = (Ok Return, st') /\
    out st' = out (demo_two never_fails) ++
              [Closed 1; Sent 2 (u "[12:00] * alice left (quit)" ++ nl);
               Closed 1; Closed 1].
Proof.
  assert (quiet_from never_fails (tick (demo_two never_fails))) as Q
      by (intros t w _; reflexivity).
  assert (u "alice" <> []) as Ne by discriminate.
  split; [reflexivity|]. split; [reflexivity|]. split; [exact Q|].
  pose proof (@quit_is_announced_once ascii_lower writes_ok never_fails noon
                eq_refl 0 1 (u "alice") (demo_two never_fails)
                eq_refl eq_refl Ne eq_refl Q) as H.
  cbv zeta in H. destruct H as [_ [_ [st' [E [_ [_ Eo]]]]]].
  exists st'. split; [exact E|]. rewrite Eo. reflexivity.
Defined.

Lemma visitor_leaves_no_trace_witness :
  locked (demo_two never_fails) = false /\
  ~ In 3 (dict_keys (clients (demo_two never_fails))) /\
  exists st',
    handle_client ascii_lower never_fails noon 3 [Data [13%N; 10%N]; Data []]
                  (demo_two never_fails) = (Ok Return, st') /\
    clients st' = clients (demo_two never_fails) /\
    out st' = out (demo_two never_fails) ++
              [Sent 3 (u "Welcome to AsyncChat!" ++ nl ++
                       u "Type /help for commands." ++ nl ++
                       u "First, set your nickname with: /nick <name>" ++ nl);
               Closed 3].
Proof.
  assert (~ In 3 (dict_keys (clients (demo_two never_fails)))) as A.
  { intros [H|[H|[]]]; discriminate H. }
  assert (Forall (fun raw => raw <> [] /\ forallb is_crlf raw = true) [[13%N; 10%N]])
    as F.
  { constructor; [split; [discriminate|reflexivity]|constructor]. }
  split; [reflexivity|]. split; [exact A|].
  destruct (@visitor_leaves_no_trace ascii_lower never_fails noon 3 [[13%N; 10%N]] []
              (demo_two never_fails) eq_refl A F)
    as [st' [E [Ec [_ [_ Eo]]]]].
  exists st'. split; [exact E|]. split; [exact Ec|exact Eo].
Defined.

Lemma handler_never_raises_witness :
  locked (demo_two never_fails) = false /\
  exists st',
    handle_client ascii_lower (broken 3) noon 3
                  [Data (u "/nick carol" ++ nl); ReadReset; Data (u "late" ++ nl)]
                  (demo_two never_fails) = (Ok Return, st') /\
    gone 3 st'.
Proof.
  split; [reflexivity|].
  pose proof (@handler_never_raises ascii_lower (broken 3) noon 3
                [Data (u "/nick carol" ++ nl); ReadReset; Data (u "late" ++ nl)]
                (demo_two never_fails) eq_refl) as H.
  cbv zeta in H. destruct H as [[c [st' [E [_ [Hr Hg]]]]]|H].
  - pose proof (Hr eq_refl) as Hc. subst c. exists st'. split; [exact E|now apply Hg].
  - vm_compute in H. discriminate H.
Defined.

